(** * A vector on raw memory: [RawMemory<T>] and [Vector<T>] of vector.h

    The development embeds the two class templates of vector.h and proves
    properties of their member functions.

    - Memory.  The free store is a finite map from block addresses to
      blocks; a block is a list of slots, and a slot is either raw
      ([None]) or holds a live object of the element type ([Some x]).
      A [T*] is a block address (or the null pointer) with an offset.
      Reading, assigning or destroying a slot that holds no object,
      stepping outside a block and subtracting unrelated pointers are
      undefined behaviour: the computation yields [Undefined].
    - Objects.  Named [Vector] objects live in a store indexed by their
      address, so that [this != &rhs] can be tested as the code does.
      Locals ([new_data], [temp]) are values.
    - Effects.  Member functions are computations in a state monad with
      three outcomes: normal return, an exception in flight (with the
      state it left behind), or undefined behaviour.
    - Element type.  [T] is a parameter.  Its size [sizeof(T)], its traits
      ([std::is_nothrow_move_constructible_v], [std::is_copy_constructible_v]),
      its value after value-initialisation, what a moved-from object holds,
      and an oracle that decides which allocation or element operation
      raises are collected in the class [Element].  Every such operation
      is recorded in a trace.
    - [size_t] is modelled by [nat].  A subtraction that would wrap and
      an offset outside the block only arise from precondition violations
      and are reported as [Undefined].  [Allocate n] asks [operator new] for
      [n * sizeof(T)] bytes.  The code computes this product in [size_t],
      taken to be 64 bits wide, where it wraps once it reaches 2^64, and
      the block obtained is then too small for [n] elements.  The model yields [n] slots or raises: it
      follows the code for the requests that fit, [fits n], and every
      theorem about a size or a capacity chosen by the caller ([Reserve],
      [Resize], the sized constructors) assumes [fits n].  A request
      derived from the size of a live vector ([size_ * 2], the size of the
      source of a copy) fits on any machine, since the live block takes up
      less than half of the address space. *)

From stdpp Require Import gmap list.

Set Default Proof Using "Type".

(** ** Element type *)

Inductive op (T : Type) : Type :=
  | OpNew (n : nat)          (* operator new(n * sizeof(T)) *)
  | OpCtor (x : T)           (* T(args...), constructing the value x *)
  | OpValueInit              (* T() *)
  | OpCopyCtor (x : T)       (* T(const T&) from an object holding x *)
  | OpMoveCtor (x : T)       (* T(T&&) from an object holding x *)
  | OpCopyAssign (x : T)     (* operator=(const T&) from an object holding x *)
  | OpMoveAssign (x : T)     (* operator=(T&&) from an object holding x *)
  | OpDestroy (x : T).       (* ~T() of an object holding x; never raises *)

Arguments OpNew {T} n.
Arguments OpCtor {T} x.
Arguments OpValueInit {T}.
Arguments OpCopyCtor {T} x.
Arguments OpMoveCtor {T} x.
Arguments OpCopyAssign {T} x.
Arguments OpMoveAssign {T} x.
Arguments OpDestroy {T} x.

Class Element (T W : Type) : Type := {
  size_of : nat;                           (* sizeof(T) *)
  size_of_pos : 0 < size_of;
  is_nothrow_move_constructible : bool;
  is_copy_constructible : bool;
  value_init : T;
  moved_from : T → T;
  raises : op T → W → bool;
  advance : op T → W → W;
  nothrow_move :
    is_nothrow_move_constructible = true → ∀ x w, raises (OpMoveCtor x) w = false
}.

(** ** Pointers *)

Abbreviation addr := nat (only parsing).
Abbreviation loc := nat (only parsing).

Record ptr : Type := Ptr { base : option addr; off : nat }.

Definition nullptr : ptr := Ptr None 0.

Definition ptr_add (p : ptr) (k : nat) : ptr := Ptr (base p) (off p + k).

Infix "+ₚ" := ptr_add (at level 50, left associativity).

(** ** The two classes *)

Record RawMemory : Type := mkRawMemory { buffer_ : option addr; capacity_ : nat }.

Record Vector : Type := mkVector { data_ : RawMemory; size_ : nat }.

(** Arguments of [Emplace]: the value that [T(args...)] constructs and the
    constructor that builds it. [Insert] and [PushBack] pass an lvalue
    ([CopyOf]) or an rvalue ([MoveOf]). *)
Inductive ctor_args (T : Type) : Type :=
  | FromArgs (x : T)
  | CopyOf (x : T)
  | MoveOf (x : T).

Arguments FromArgs {T} x.
Arguments CopyOf {T} x.
Arguments MoveOf {T} x.

Definition value_of {T} (a : ctor_args T) : T :=
  match a with FromArgs x | CopyOf x | MoveOf x => x end.

Definition ctor_op {T} (a : ctor_args T) : op T :=
  match a with
  | FromArgs x => OpCtor x
  | CopyOf x => OpCopyCtor x
  | MoveOf x => OpMoveCtor x
  end.

Section vector.
Context {T W : Type} `{!Element T W}.

(** ** State and outcomes *)

Record state : Type := mkState {
  vecs : gmap loc Vector;
  heap : gmap addr (list (option T));
  world : W;
  trace : list (op T)
}.

Inductive result (A : Type) : Type :=
  | Normal (a : A) (s : state)
  | Throws (s : state)
  | Undefined.

Arguments Normal {A} a s.
Arguments Throws {A} s.
Arguments Undefined {A}.

Definition M (A : Type) : Type := state → result A.

#[global] Instance M_ret : MRet M := λ A a s, Normal a s.

#[global] Instance M_bind : MBind M := λ A B f m s,
  match m s with
  | Normal a s' => f a s'
  | Throws s' => Throws s'
  | Undefined => Undefined
  end.

Definition ub {A} : M A := λ _, Undefined.

(** [on_throw m cleanup]: when [m] exits by an exception, run [cleanup]
    (a [catch (...) { ...; throw; }] handler, or the destructors of the
    locals during unwinding) and let the exception continue. An exception
    leaving [cleanup] would call [std::terminate]. *)
Definition on_throw {A} (m : M A) (cleanup : M unit) : M A := λ s,
  match m s with
  | Throws s' =>
      match cleanup s' with
      | Normal _ s'' => Throws s''
      | _ => Undefined
      end
  | r => r
  end.

Definition set_vecs (f : gmap loc Vector → gmap loc Vector) (s : state) : state :=
  mkState (f (vecs s)) (heap s) (world s) (trace s).

Definition set_heap (f : gmap addr (list (option T)) → gmap addr (list (option T)))
    (s : state) : state :=
  mkState (vecs s) (f (heap s)) (world s) (trace s).

Definition record (o : op T) (s : state) : state :=
  mkState (vecs s) (heap s) (world s) (trace s ++ [o]).

Definition step_world (o : op T) (s : state) : state :=
  mkState (vecs s) (heap s) (advance o (world s)) (trace s ++ [o]).

Definition log (o : op T) : M unit := λ s, Normal tt (record o s).

(** An operation that may raise: the oracle is asked and moves on. *)
Definition fault (o : op T) : M unit := λ s,
  if raises o (world s) then Throws (step_world o s) else Normal tt (step_world o s).

(** ** Raw slots *)

Definition read_slot (p : ptr) : M (option T) := λ s,
  match base p with
  | None => Undefined
  | Some a =>
      match heap s !! a with
      | None => Undefined
      | Some blk =>
          match blk !! off p with
          | None => Undefined
          | Some sl => Normal sl s
          end
      end
  end.

Definition write_slot (p : ptr) (sl : option T) : M unit := λ s,
  match base p with
  | None => Undefined
  | Some a =>
      match heap s !! a with
      | None => Undefined
      | Some blk =>
          if decide (off p < length blk)
          then Normal tt (set_heap (<[a := <[off p := sl]> blk]>) s)
          else Undefined
      end
  end.

(** [*p] for a live object. *)
Definition deref (p : ptr) : M T :=
  sl ← read_slot p;
  match sl with Some x => mret x | None => ub end.

(** Placement new of an already computed value. *)
Definition construct_at (p : ptr) (x : T) : M unit :=
  _ ← read_slot p; write_slot p (Some x).

Definition assign_at (p : ptr) (x : T) : M unit :=
  _ ← deref p; write_slot p (Some x).

(** [std::destroy_at(p)] *)
Definition destroy_at (p : ptr) : M unit :=
  x ← deref p;
  log (OpDestroy x);;
  write_slot p None.

(** [p - k] and [p - q]: defined inside one block only *)
Definition ptr_sub (p : ptr) (k : nat) : M ptr :=
  if decide (k ≤ off p) then mret (Ptr (base p) (off p - k)) else ub.

Definition ptr_diff (p q : ptr) : M nat :=
  if decide (base p = base q ∧ off q ≤ off p) then mret (off p - off q) else ub.

(** [a - b] on [size_t], where the code relies on [b <= a] *)
Definition size_sub (a b : nat) : M nat :=
  if decide (b ≤ a) then mret (a - b) else ub.

(** ** Element operations *)

(** [new (to) T(from[0])] *)
Definition copy_construct (to from : ptr) : M unit :=
  x ← deref from;
  fault (OpCopyCtor x);;
  construct_at to x.

(** [new (to) T(std::move(from[0]))] *)
Definition move_construct (to from : ptr) : M unit :=
  x ← deref from;
  fault (OpMoveCtor x);;
  construct_at to x;;
  write_slot from (Some (moved_from x)).

(** [new (to) T()] *)
Definition value_construct (to : ptr) : M unit :=
  fault OpValueInit;;
  construct_at to value_init.

(** [new (to) T(std::forward<Args>(args)...)] *)
Definition construct_from (to : ptr) (args : ctor_args T) : M unit :=
  fault (ctor_op args);;
  construct_at to (value_of args).

(** [to[0] = from[0]] *)
Definition copy_assign (to from : ptr) : M unit :=
  x ← deref from;
  _ ← deref to;
  fault (OpCopyAssign x);;
  assign_at to x.

(** [to[0] = std::move(from[0])] *)
Definition move_assign (to from : ptr) : M unit :=
  x ← deref from;
  _ ← deref to;
  fault (OpMoveAssign x);;
  assign_at to x;;
  write_slot from (Some (moved_from x)).

(** [to[0] = std::move(temp)] for a local [temp] holding [x] *)
Definition move_assign_temp (to : ptr) (x : T) : M unit :=
  _ ← deref to;
  fault (OpMoveAssign x);;
  assign_at to x.

(** ** Algorithms of <memory> and <algorithm> *)

Fixpoint destroy_n (first : ptr) (n : nat) : M unit :=
  match n with
  | 0 => mret tt
  | S n' => destroy_at first;; destroy_n (first +ₚ 1) n'
  end.

(** The loop shared by the [uninitialized_*_n] algorithms: [cur] runs over
    the destination; when a construction raises, the objects built so far,
    [first .. first + done), are destroyed and the exception continues. *)
Fixpoint uninitialized_loop (build : ptr → ptr → M unit)
    (from : ptr) (n : nat) (first : ptr) (done : nat) : M unit :=
  match n with
  | 0 => mret tt
  | S n' =>
      on_throw (build (first +ₚ done) from) (destroy_n first done);;
      uninitialized_loop build (from +ₚ 1) n' first (S done)
  end.

Definition uninitialized_copy_n (from : ptr) (n : nat) (to : ptr) : M unit :=
  uninitialized_loop copy_construct from n to 0.

Definition uninitialized_move_n (from : ptr) (n : nat) (to : ptr) : M unit :=
  uninitialized_loop move_construct from n to 0.

Definition uninitialized_value_construct_n (first : ptr) (n : nat) : M unit :=
  uninitialized_loop (λ to _, value_construct to) nullptr n first 0.

(** [std::copy_n(from, n, to)] *)
Fixpoint copy_n (from : ptr) (n : nat) (to : ptr) : M unit :=
  match n with
  | 0 => mret tt
  | S n' => copy_assign to from;; copy_n (from +ₚ 1) n' (to +ₚ 1)
  end.

Fixpoint move_n (first : ptr) (n : nat) (d_first : ptr) : M unit :=
  match n with
  | 0 => mret tt
  | S n' => move_assign d_first first;; move_n (first +ₚ 1) n' (d_first +ₚ 1)
  end.

(** [std::move(first, last, d_first)] *)
Definition std_move (first last d_first : ptr) : M unit :=
  n ← ptr_diff last first;
  move_n first n d_first.

Fixpoint move_backward_n (last : ptr) (n : nat) (d_last : ptr) : M unit :=
  match n with
  | 0 => mret tt
  | S n' =>
      d ← ptr_sub d_last 1;
      l ← ptr_sub last 1;
      move_assign d l;;
      move_backward_n l n' d
  end.

(** [std::move_backward(first, last, d_last)] *)
Definition std_move_backward (first last d_last : ptr) : M unit :=
  n ← ptr_diff last first;
  move_backward_n last n d_last.

(** ** RawMemory *)

(** [operator new]: a fresh block of [n] raw slots. *)
Definition alloc_block (n : nat) : M (option addr) := λ s,
  let a := fresh (dom (heap s)) in
  Normal (Some a) (set_heap (<[a := replicate n None]>) s).

(** The argument of [operator new] in [Allocate]: [n * sizeof(T)],
    computed in the 64-bit [size_t]. *)
Definition request_bytes (n : nat) : N :=
  ((N.of_nat n * N.of_nat size_of) mod 2 ^ 64)%N.

(** A request for [n] objects fits: its size in bytes, [n * sizeof(T)], is
    below 2^64, so the product that [Allocate] computes does not wrap and
    the block obtained has room for [n] objects. *)
Definition fits (n : nat) : Prop :=
  (N.of_nat n * N.of_nat size_of < 2 ^ 64)%N.

(** [static T* Allocate(size_t n)]: [operator new(n * sizeof(T))] for
    [n != 0], a block of [request_bytes n] bytes.  It has room for the [n]
    objects of the model's block when [fits n]; the theorems about a
    caller-chosen [n] assume it. *)
Definition Allocate (n : nat) : M (option addr) :=
  if decide (n ≠ 0) then fault (OpNew n);; alloc_block n else mret None.

(** [static void Deallocate(T* buf) noexcept]; releasing a block twice is
    undefined. *)
Definition Deallocate (buf : option addr) : M unit := λ s,
  match buf with
  | None => Normal tt s
  | Some a =>
      match heap s !! a with
      | Some _ => Normal tt (set_heap (delete a) s)
      | None => Undefined
      end
  end.

(** [RawMemory() = default] *)
Definition RawMemory_default : RawMemory := mkRawMemory None 0.

(** [explicit RawMemory(size_t capacity)] *)
Definition RawMemory_ctor (capacity : nat) : M RawMemory :=
  buf ← Allocate capacity;
  mret (mkRawMemory buf capacity).

(** [~RawMemory()] *)
Definition RawMemory_dtor (r : RawMemory) : M unit := Deallocate (buffer_ r).

(** [a.Swap(b)]: the pair of the two objects after the call. *)
Definition RawMemory_Swap (a b : RawMemory) : RawMemory * RawMemory :=
  (mkRawMemory (buffer_ b) (capacity_ b), mkRawMemory (buffer_ a) (capacity_ a)).

(** [T* GetAddress() noexcept] *)
Definition GetAddress (r : RawMemory) : ptr := Ptr (buffer_ r) 0.

(** [T* operator+(size_t offset) noexcept], with its assertion *)
Definition RawMemory_plus (r : RawMemory) (offset : nat) : M ptr :=
  if decide (offset ≤ capacity_ r) then mret (GetAddress r +ₚ offset) else ub.

(** [T& operator[](size_t index) noexcept], with its assertion; the
    reference is the address of the slot. *)
Definition RawMemory_index (r : RawMemory) (index : nat) : M ptr :=
  if decide (index < capacity_ r) then mret (GetAddress r +ₚ index) else ub.

(** [size_t Capacity() const] *)
Definition RawMemory_Capacity (r : RawMemory) : nat := capacity_ r.

(** ** Vector *)

(** Access to the members of the object at [this]. *)
Definition get_vec (this : loc) : M Vector := λ s,
  match vecs s !! this with
  | Some v => Normal v s
  | None => Undefined
  end.

Definition put_vec (this : loc) (v : Vector) : M unit := λ s,
  Normal tt (set_vecs (<[this := v]>) s).

Definition drop_vec (this : loc) : M unit := λ s,
  Normal tt (set_vecs (delete this) s).

Definition set_data (this : loc) (d : RawMemory) : M unit :=
  v ← get_vec this; put_vec this (mkVector d (size_ v)).

Definition set_size (this : loc) (n : nat) : M unit :=
  v ← get_vec this; put_vec this (mkVector (data_ v) n).

(** [++size_] *)
Definition incr_size (this : loc) : M unit :=
  v ← get_vec this; put_vec this (mkVector (data_ v) (size_ v + 1)).

(** [Vector() = default] *)
Definition Vector_default : Vector := mkVector RawMemory_default 0.

(** [explicit Vector(size_t size)] *)
Definition Vector_sized (size : nat) : M Vector :=
  d ← RawMemory_ctor size;
  on_throw (uninitialized_value_construct_n (GetAddress d) size) (RawMemory_dtor d);;
  mret (mkVector d size).

(** [Vector(const Vector& other)] *)
Definition Vector_copy (other : loc) : M Vector :=
  o ← get_vec other;
  d ← RawMemory_ctor (size_ o);
  on_throw (uninitialized_copy_n (GetAddress (data_ o)) (size_ o) (GetAddress d))
           (RawMemory_dtor d);;
  mret (mkVector d (size_ o)).

(** [Vector(Vector&& other) noexcept] *)
Definition Vector_move (other : loc) : M Vector :=
  o ← get_vec other;
  put_vec other Vector_default;;
  mret o.

(** [~Vector()], followed by the destructor of the member [data_] *)
Definition Vector_dtor (v : Vector) : M unit :=
  destroy_n (GetAddress (data_ v)) (size_ v);;
  RawMemory_dtor (data_ v).

(** A declaration [Vector<T> this(...)] and the end of its lifetime. *)
Definition declare (this : loc) (ctor : M Vector) : M unit :=
  v ← ctor; put_vec this v.

Definition end_of_life (this : loc) : M unit :=
  v ← get_vec this;
  Vector_dtor v;;
  drop_vec this.

(** [void Swap(Vector& other) noexcept] *)
Definition Swap (this other : loc) : M unit :=
  a ← get_vec this;
  b ← get_vec other;
  put_vec this b;;
  put_vec other a.

(** [Size()], [Capacity()], [begin()], [end()] *)
Definition Size (this : loc) : M nat := v ← get_vec this; mret (size_ v).

Definition Capacity (this : loc) : M nat :=
  v ← get_vec this; mret (RawMemory_Capacity (data_ v)).

Definition begin (this : loc) : M ptr := v ← get_vec this; mret (GetAddress (data_ v)).

Definition end_ (this : loc) : M ptr :=
  v ← get_vec this; mret (GetAddress (data_ v) +ₚ size_ v).

(** [T& operator[](size_t index) noexcept], with its assertion *)
Definition at_ (this : loc) (index : nat) : M ptr :=
  v ← get_vec this;
  if decide (index < size_ v) then mret (GetAddress (data_ v) +ₚ index) else ub.

(** [void MoveItemsInNewMemory(Pointer from, Pointer to, size_t count)] *)
Definition MoveItemsInNewMemory (from to : ptr) (count : nat) : M unit :=
  (if is_nothrow_move_constructible || negb is_copy_constructible
   then uninitialized_move_n from count to
   else uninitialized_copy_n from count to);;
  destroy_n from count.

(** [void Reserve(size_t new_capacity)]; the local [new_data] is released
    when the function is left, normally or by an exception. *)
Definition Reserve (this : loc) (new_capacity : nat) : M unit :=
  cap ← Capacity this;
  if decide (new_capacity ≤ cap) then mret tt else
  new_data ← RawMemory_ctor new_capacity;
  v ← get_vec this;
  on_throw
    (MoveItemsInNewMemory (GetAddress (data_ v)) (GetAddress new_data) (size_ v))
    (RawMemory_dtor new_data);;
  let '(d, new_data) := RawMemory_Swap (data_ v) new_data in
  set_data this d;;
  RawMemory_dtor new_data.

(** [void Resize(size_t new_size)] *)
Definition Resize (this : loc) (new_size : nat) : M unit :=
  v ← get_vec this;
  (if decide (new_size < size_ v)
   then destroy_n (GetAddress (data_ v) +ₚ new_size) (size_ v - new_size)
   else mret tt);;
  (if decide (size_ v < new_size) then
     cap ← Capacity this;
     (if decide (cap < new_size) then Reserve this new_size else mret tt);;
     v' ← get_vec this;
     uninitialized_value_construct_n (GetAddress (data_ v') +ₚ size_ v') (new_size - size_ v')
   else mret tt);;
  set_size this new_size.

(** [void PopBack() noexcept] *)
Definition PopBack (this : loc) : M unit :=
  v ← get_vec this;
  n ← size_sub (size_ v) 1;
  set_size this n;;
  destroy_at (GetAddress (data_ v) +ₚ n).

(** [void InsertWithReallocate(size_t index, Args&&... args)] *)
Definition InsertWithReallocate (this : loc) (index : nat) (args : ctor_args T) : M unit :=
  v ← get_vec this;
  new_data ← RawMemory_ctor (if decide (size_ v = 0) then 1 else size_ v * 2);
  on_throw
    (construct_from (GetAddress new_data +ₚ index) args;;
     MoveItemsInNewMemory (GetAddress (data_ v)) (GetAddress new_data) index;;
     rest ← size_sub (size_ v) index;
     MoveItemsInNewMemory (GetAddress (data_ v) +ₚ index)
       (GetAddress new_data +ₚ index +ₚ 1) rest)
    (RawMemory_dtor new_data);;
  let '(d, new_data) := RawMemory_Swap (data_ v) new_data in
  set_data this d;;
  RawMemory_dtor new_data.

(** [void InsertInPlace(size_t index, Args&&... args)]; the local [temp] is
    destroyed when its block is left. *)
Definition InsertInPlace (this : loc) (index : nat) (args : ctor_args T) : M unit :=
  v ← get_vec this;
  if decide (index = size_ v) then
    construct_from (GetAddress (data_ v) +ₚ size_ v) args
  else
    fault (ctor_op args);;
    let temp := value_of args in
    on_throw
      (b ← begin this;
       back ← ptr_sub (b +ₚ size_ v) 1;
       move_construct (GetAddress (data_ v) +ₚ size_ v) back;;
       e ← end_ this;
       last ← ptr_sub e 1;
       std_move_backward (b +ₚ index) last (b +ₚ size_ v);;
       move_assign_temp (b +ₚ index) temp)
      (log (OpDestroy temp));;
    log (OpDestroy (moved_from temp)).

(** [iterator Emplace(const_iterator pos, Args&&... args)] *)
Definition Emplace (this : loc) (pos : ptr) (args : ctor_args T) : M ptr :=
  b ← begin this;
  index ← ptr_diff pos b;
  v ← get_vec this;
  cap ← Capacity this;
  (if decide (size_ v = cap ∨ index = cap)
   then InsertWithReallocate this index args
   else InsertInPlace this index args);;
  incr_size this;;
  b' ← begin this;
  mret (b' +ₚ index).

(** [iterator Erase(const_iterator pos)] *)
Definition Erase (this : loc) (pos : ptr) : M ptr :=
  b ← begin this;
  index ← ptr_diff pos b;
  e ← end_ this;
  std_move (b +ₚ index +ₚ 1) e (b +ₚ index);;
  v ← get_vec this;
  last ← ptr_sub (GetAddress (data_ v) +ₚ size_ v) 1;
  destroy_n last 1;;
  n ← size_sub (size_ v) 1;
  set_size this n;;
  b' ← begin this;
  mret (b' +ₚ index).

(** [iterator Insert(const_iterator pos, const T& value)] and
    [iterator Insert(const_iterator pos, T&& value)] *)
Definition Insert (this : loc) (pos : ptr) (value : ctor_args T) : M ptr :=
  Emplace this pos value.

(** [T& EmplaceBack(Args&&... args)] *)
Definition EmplaceBack (this : loc) (args : ctor_args T) : M ptr :=
  b ← begin this;
  v ← get_vec this;
  Emplace this (b +ₚ size_ v) args;;
  v' ← get_vec this;
  i ← size_sub (size_ v') 1;
  RawMemory_index (data_ v') i.

(** [void PushBack(const T& value)] and [void PushBack(T&& value)] *)
Definition PushBack (this : loc) (value : ctor_args T) : M unit :=
  EmplaceBack this value;; mret tt.

(** A run of [PushBack] calls, one per argument. *)
Fixpoint push_all (this : loc) (values : list (ctor_args T)) : M unit :=
  match values with
  | [] => mret tt
  | value :: values' => PushBack this value;; push_all this values'
  end.

(** [Vector& operator=(const Vector& rhs)] *)
Definition assign_copy (this rhs : loc) : M unit :=
  if decide (this ≠ rhs) then
    r ← get_vec rhs;
    t ← get_vec this;
    if decide (RawMemory_Capacity (data_ t) < size_ r) then
      temp ← Vector_copy rhs;
      put_vec this temp;;
      Vector_dtor t
    else
      let m := size_ r `min` size_ t in
      copy_n (GetAddress (data_ r)) m (GetAddress (data_ t));;
      uninitialized_copy_n (GetAddress (data_ r) +ₚ m) (size_ r - m)
        (GetAddress (data_ t) +ₚ m);;
      (if decide (size_ r < size_ t)
       then destroy_n (GetAddress (data_ t) +ₚ size_ r) (size_ t - size_ r)
       else mret tt);;
      set_size this (size_ r)
  else mret tt.

(** [Vector& operator=(Vector&& rhs) noexcept] *)
Definition assign_move (this rhs : loc) : M unit :=
  if decide (this ≠ rhs) then Swap this rhs else mret tt.

End vector.

Arguments state T W : clear implicits.
Arguments mkState {T W} vecs heap world trace.
Arguments result T W A : clear implicits.
Arguments Normal {T W A} a s.
Arguments Throws {T W A} s.
Arguments Undefined {T W A}.
Arguments M T W A : clear implicits.

(** * Reasoning about computations *)

Section outcome.
Context {T W : Type} `{!Element T W}.

(** [outcome m s Q E]: from [s], [m] is defined; when it returns [a] in
    state [s'], [Q a s'] holds; when it raises leaving [s'], [E s'] holds. *)
Definition outcome {A} (m : M T W A) (s : state T W)
    (Q : A → state T W → Prop) (E : state T W → Prop) : Prop :=
  match m s with
  | Normal a s' => Q a s'
  | Throws s' => E s'
  | Undefined => False
  end.

(** No allocation and no element operation ever raises. *)
Definition no_faults : Prop := ∀ (o : op T) (w : W), raises o w = false.

(** Total correctness: [m] is defined from [s], every normal return
    satisfies [Q], and [m] does return when nothing raises. *)
Definition returns {A} (m : M T W A) (s : state T W) (Q : A → state T W → Prop) : Prop :=
  m s ≠ Undefined ∧
  (∀ a s', m s = Normal a s' → Q a s') ∧
  (no_faults → ∃ a s', m s = Normal a s').

(** The contents of a block of [cap] slots whose first slots hold [l]. *)
Definition slots (l : list T) (cap : nat) : list (option T) :=
  (Some <$> l) ++ replicate (cap - length l) None.

(** In state [s], the vector object at [this] has buffer [buf] of capacity
    [cap] and holds exactly the elements [l]: the slots [0, length l) are
    live and the slots [length l, cap) are raw. *)
Definition holds (s : state T W) (this : loc) (l : list T) (cap : nat)
    (buf : option addr) : Prop :=
  vecs s !! this = Some (mkVector (mkRawMemory buf cap) (length l)) ∧
  length l ≤ cap ∧
  match buf with
  | None => cap = 0
  | Some a => heap s !! a = Some (slots l cap)
  end.

(** The element operation that relocates an object holding [x], and what
    the relocated-from object holds just before it is destroyed. *)
Definition relocate_by_move : bool :=
  is_nothrow_move_constructible || negb is_copy_constructible.

Definition relocate_op (x : T) : op T :=
  if relocate_by_move then OpMoveCtor x else OpCopyCtor x.

Definition relocated_from (x : T) : T :=
  if relocate_by_move then moved_from x else x.

(** What the slot vacated by a shift holds: the moved-from state of the
    last object moved out of it, or its own object when nothing moved. *)
Definition vacated (x : T) (moved : option T) : T :=
  from_option moved_from x moved.

(** The heap with the block of [buf] replaced by [blk]. *)
Definition with_block (buf : option addr) (blk : list (option T))
    (h : gmap addr (list (option T))) : gmap addr (list (option T)) :=
  match buf with
  | None => h
  | Some a => <[a := blk]> h
  end.

(** The heap once the block of [buf] has been released. *)
Definition release (buf : option addr) (h : gmap addr (list (option T)))
    : gmap addr (list (option T)) :=
  match buf with
  | None => h
  | Some a => delete a h
  end.

(** Allocations, constructions and destructions, counted in a trace. *)
Definition is_allocation (o : op T) : bool :=
  match o with OpNew _ => true | _ => false end.

Definition is_construction (o : op T) : bool :=
  match o with
  | OpCtor _ | OpValueInit | OpCopyCtor _ | OpMoveCtor _ => true
  | _ => false
  end.

Definition is_destruction (o : op T) : bool :=
  match o with OpDestroy _ => true | _ => false end.

Definition count_ops (p : op T → bool) (tr : list (op T)) : nat :=
  length (List.filter p tr).

(** The capacity that [n] appends to an empty vector lead to. *)
Definition doubling (n c : nat) : Prop :=
  (n = 0 ∧ c = 0) ∨ (0 < n ∧ c = 2 ^ Nat.log2_up n).

(** The allocations that lead to capacity [c] by doubling from 0. *)
Definition allocations_for (c : nat) : nat :=
  if decide (c = 0) then 0 else Nat.log2 c + 1.

(** [m] does not return normally from [s]: it raises, or its behaviour is
    undefined. *)
Definition never_returns {A} (m : M T W A) (s : state T W) : Prop :=
  ∀ a s', m s ≠ Normal a s'.

End outcome.

(** * Element types and states used in the examples *)

(** [int]: nothing raises, a moved-from object keeps its value. *)
Definition plain : Element nat unit := {|
  size_of := 4;
  size_of_pos := Nat.lt_0_succ 3;
  is_nothrow_move_constructible := true;
  is_copy_constructible := true;
  value_init := 0;
  moved_from := λ x, x;
  raises := λ _ _, false;
  advance := λ _ w, w;
  nothrow_move := λ _ _ _, eq_refl
|}.

Definition copy_raises_on_13 (o : op nat) : bool :=
  match o with
  | OpCopyCtor 13 => true
  | _ => false
  end.

(** A copyable type whose move constructor is not [noexcept] and whose copy
    constructor raises when it copies the value 13. *)
Definition fragile : Element nat unit := {|
  size_of := 4;
  size_of_pos := Nat.lt_0_succ 3;
  is_nothrow_move_constructible := false;
  is_copy_constructible := true;
  value_init := 0;
  moved_from := λ x, x;
  raises := λ o _, copy_raises_on_13 o;
  advance := λ _ w, w;
  nothrow_move := λ H, match Bool.diff_false_true H with end
|}.

Definition move_raises_on_13 (o : op nat) : bool :=
  match o with
  | OpMoveCtor 13 => true
  | _ => false
  end.

(** A move-only type whose move constructor is not [noexcept]: it raises
    when it moves from the value 13 and leaves 0 in a moved-from object. *)
Definition move_only : Element nat unit := {|
  size_of := 4;
  size_of_pos := Nat.lt_0_succ 3;
  is_nothrow_move_constructible := false;
  is_copy_constructible := false;
  value_init := 0;
  moved_from := λ _, 0;
  raises := λ o _, move_raises_on_13 o;
  advance := λ _ w, w;
  nothrow_move := λ H, match Bool.diff_false_true H with end
|}.

Definition empty_state : state nat unit := mkState ∅ ∅ tt [].

(** The state whose only object is a vector at address 0 holding [l] in a
    block of [cap] slots at address 0. *)
Definition one_vector (l : list nat) (cap : nat) : state nat unit :=
  mkState {[ 0 := mkVector (mkRawMemory (Some 0) cap) (length l) ]}
          {[ 0 := (Some <$> l) ++ replicate (cap - length l) None ]} tt [].

(** Two full vectors: [lt] at address 0 in block 0, [lr] at address 1 in
    block 1. *)
Definition two_vectors (lt lr : list nat) : state nat unit :=
  mkState {[ 0 := mkVector (mkRawMemory (Some 0) (length lt)) (length lt);
             1 := mkVector (mkRawMemory (Some 1) (length lr)) (length lr) ]}
          {[ 0 := Some <$> lt; 1 := Some <$> lr ]} tt [].

(** The state whose only object is a default-constructed vector at
    address 0. *)
Definition default_vector : state nat unit :=
  mkState {[ 0 := Vector_default ]} ∅ tt [].

(** Two vectors with room to spare: [lt] at address 0 in a block of [capt]
    slots at address 0, [lr] at address 1 in a block of [capr] slots at
    address 1. *)
Definition two_vectors_with (lt : list nat) (capt : nat) (lr : list nat) (capr : nat)
    : state nat unit :=
  mkState {[ 0 := mkVector (mkRawMemory (Some 0) capt) (length lt);
             1 := mkVector (mkRawMemory (Some 1) capr) (length lr) ]}
          {[ 0 := (Some <$> lt) ++ replicate (capt - length lt) None;
             1 := (Some <$> lr) ++ replicate (capr - length lr) None ]} tt [].

(** * Proof rules *)

(** Equality of two heaps built from inserts and deletes. *)
Ltac heap_eq :=
  apply map_eq; intros ?;
  repeat (rewrite ?lookup_insert, ?lookup_delete; try case_decide; subst);
  try done; try congruence.

Section rules.
Context {T W : Type} `{!Element T W}.
Implicit Types (s : state T W) (vs : gmap loc Vector) (h : gmap addr (list (option T))).
Implicit Types (w : W) (tr : list (op T)) (xs ys l : list T) (x y : T).
Implicit Types (pre post : list (option T)) (E : state T W → Prop).

Lemma outcome_ret {A} (a : A) s (Q : A → state T W → Prop) E :
  Q a s → outcome (mret a) s Q E.
Proof. done. Qed.

Lemma outcome_bind {A B} (m : M T W A) (f : A → M T W B) s (Q : B → state T W → Prop) E :
  outcome m s (λ a s', outcome (f a) s' Q E) E → outcome (m ≫= f) s Q E.
Proof. unfold outcome, mbind, M_bind. by destruct (m s). Qed.

Lemma outcome_bind_eq {A B} (m : M T W A) (f : A → M T W B) s a s'
    (Q : B → state T W → Prop) E :
  m s = Normal a s' → outcome (f a) s' Q E → outcome (m ≫= f) s Q E.
Proof. unfold outcome, mbind, M_bind. by intros ->. Qed.

Lemma outcome_eq {A} (m : M T W A) s a s' (Q : A → state T W → Prop) E :
  m s = Normal a s' → Q a s' → outcome m s Q E.
Proof. unfold outcome. by intros ->. Qed.

Lemma outcome_on_throw {A} (m : M T W A) cleanup s (Q : A → state T W → Prop) E :
  outcome m s Q (λ s', outcome cleanup s' (λ _ s'', E s'') (λ _, False)) →
  outcome (on_throw m cleanup) s Q E.
Proof.
  unfold outcome, on_throw. destruct (m s) as [a s'|s'|]; try done.
  by destruct (cleanup s').
Qed.

Lemma outcome_mono {A} (m : M T W A) s (Q Q' : A → state T W → Prop) E E' :
  outcome m s Q E → (∀ a s', Q a s' → Q' a s') → (∀ s', E s' → E' s') →
  outcome m s Q' E'.
Proof. unfold outcome. destruct (m s); naive_solver. Qed.

Lemma outcome_fault o vs h w tr (Q : unit → state T W → Prop) E :
  (raises o w = false → Q tt (mkState vs h (advance o w) (tr ++ [o]))) →
  (raises o w = true → E (mkState vs h (advance o w) (tr ++ [o]))) →
  outcome (fault o) (mkState vs h w tr) Q E.
Proof. unfold outcome, fault. simpl. destruct (raises o w); auto. Qed.

Lemma outcome_returns {A} (m : M T W A) s (Q : A → state T W → Prop) :
  outcome m s Q (λ _, ¬ no_faults) → returns m s Q.
Proof.
  unfold outcome, returns. destruct (m s) as [a s'|s'|]; intros HQ; try done.
  split_and!; [done| |eauto]. by intros ?? [= <- <-].
Qed.

(** ** Slots *)

Lemma deref_eq a i blk x vs h w tr :
  h !! a = Some blk → blk !! i = Some (Some x) →
  deref (Ptr (Some a) i) (mkState vs h w tr) = Normal x (mkState vs h w tr).
Proof.
  intros Ha Hi. unfold deref, read_slot, mbind, M_bind. simpl. by rewrite Ha, Hi.
Qed.

Lemma construct_at_eq a i blk x vs h w tr :
  h !! a = Some blk → i < length blk →
  construct_at (Ptr (Some a) i) x (mkState vs h w tr)
  = Normal tt (mkState vs (<[a := <[i := Some x]> blk]> h) w tr).
Proof.
  intros Ha Hi. unfold construct_at, read_slot, write_slot, mbind, M_bind. simpl.
  rewrite Ha. destruct (lookup_lt_is_Some_2 blk i Hi) as [sl ->].
  simpl. rewrite Ha. by rewrite decide_True.
Qed.

Lemma write_slot_eq a i blk sl vs h w tr :
  h !! a = Some blk → i < length blk →
  write_slot (Ptr (Some a) i) sl (mkState vs h w tr)
  = Normal tt (mkState vs (<[a := <[i := sl]> blk]> h) w tr).
Proof.
  intros Ha Hi. unfold write_slot. simpl. rewrite Ha. by rewrite decide_True.
Qed.

Lemma assign_at_eq a i blk x y vs h w tr :
  h !! a = Some blk → blk !! i = Some (Some y) →
  assign_at (Ptr (Some a) i) x (mkState vs h w tr)
  = Normal tt (mkState vs (<[a := <[i := Some x]> blk]> h) w tr).
Proof.
  intros Ha Hi. unfold assign_at, mbind, M_bind.
  rewrite (deref_eq a i blk y) by done.
  apply write_slot_eq; [done|]. by eapply lookup_lt_Some.
Qed.

Lemma destroy_at_eq a i blk x vs h w tr :
  h !! a = Some blk → blk !! i = Some (Some x) →
  destroy_at (Ptr (Some a) i) (mkState vs h w tr)
  = Normal tt (mkState vs (<[a := <[i := None]> blk]> h) w (tr ++ [OpDestroy x])).
Proof.
  intros Ha Hi. unfold destroy_at, mbind, M_bind.
  rewrite (deref_eq a i blk x) by done. unfold log, record. simpl.
  apply write_slot_eq; [done|]. by eapply lookup_lt_Some.
Qed.

Lemma insert_middle {A} (l1 l2 : list A) (x y : A) i :
  i = length l1 → <[i := y]> (l1 ++ x :: l2) = l1 ++ y :: l2.
Proof.
  intros ->. replace (length l1) with (length l1 + 0) by lia.
  by rewrite insert_app_r.
Qed.

Lemma lookup_middle {A} (l1 l2 : list A) (x : A) i :
  i = length l1 → (l1 ++ x :: l2) !! i = Some x.
Proof. intros ->. by apply list_lookup_middle. Qed.

Lemma destroy_n_eq a i n pre xs post vs h w tr :
  i = length pre → n = length xs →
  h !! a = Some (pre ++ (Some <$> xs) ++ post) →
  destroy_n (Ptr (Some a) i) n (mkState vs h w tr)
  = Normal tt (mkState vs (<[a := pre ++ replicate n None ++ post]> h) w
                 (tr ++ (OpDestroy <$> xs))).
Proof.
  intros Hi ->. revert i pre h tr Hi.
  induction xs as [|x xs IH]; intros i pre h tr Hi Ha.
  - simpl. rewrite app_nil_r. by rewrite insert_id.
  - rewrite fmap_cons in Ha. rewrite <- app_comm_cons in Ha.
    rewrite length_cons, fmap_cons. cbn [destroy_n].
    unfold mbind, M_bind.
    rewrite (destroy_at_eq a i _ x _ _ _ _ Ha)
      by (by apply lookup_middle).
    rewrite insert_middle by done.
    unfold ptr_add; cbn [base off].
    rewrite (IH _ (pre ++ [None])).
    + rewrite insert_insert_eq. rewrite <- !app_assoc. by simpl.
    + rewrite length_app. simpl. lia.
    + rewrite lookup_insert_eq. by rewrite <- app_assoc.
Qed.

Lemma destroy_n_zero p s : destroy_n p 0 s = Normal tt s.
Proof. done. Qed.

(** ** Element operations *)

Lemma outcome_copy_construct a b i j sblk dblk x vs h w tr
    (Q : unit → state T W → Prop) E :
  h !! a = Some sblk → sblk !! i = Some (Some x) →
  h !! b = Some dblk → j < length dblk →
  (raises (OpCopyCtor x) w = false →
   Q tt (mkState vs (<[b := <[j := Some x]> dblk]> h) (advance (OpCopyCtor x) w)
           (tr ++ [OpCopyCtor x]))) →
  (raises (OpCopyCtor x) w = true →
   E (mkState vs h (advance (OpCopyCtor x) w) (tr ++ [OpCopyCtor x]))) →
  outcome (copy_construct (Ptr (Some b) j) (Ptr (Some a) i)) (mkState vs h w tr) Q E.
Proof.
  intros Ha Hi Hb Hj HQ HE. unfold copy_construct.
  eapply outcome_bind_eq; [by eapply deref_eq|].
  apply outcome_bind, outcome_fault; [|done].
  intros Hr. eapply outcome_eq; [by apply construct_at_eq|]. auto.
Qed.

Lemma outcome_move_construct a b i j sblk dblk x vs h w tr
    (Q : unit → state T W → Prop) E :
  a ≠ b →
  h !! a = Some sblk → sblk !! i = Some (Some x) →
  h !! b = Some dblk → j < length dblk →
  (raises (OpMoveCtor x) w = false →
   Q tt (mkState vs (<[a := <[i := Some (moved_from x)]> sblk]>
                       (<[b := <[j := Some x]> dblk]> h))
           (advance (OpMoveCtor x) w) (tr ++ [OpMoveCtor x]))) →
  (raises (OpMoveCtor x) w = true →
   E (mkState vs h (advance (OpMoveCtor x) w) (tr ++ [OpMoveCtor x]))) →
  outcome (move_construct (Ptr (Some b) j) (Ptr (Some a) i)) (mkState vs h w tr) Q E.
Proof.
  intros Hab Ha Hi Hb Hj HQ HE. unfold move_construct.
  eapply outcome_bind_eq; [by eapply deref_eq|].
  apply outcome_bind, outcome_fault; [|done].
  intros Hr. eapply outcome_bind_eq; [by apply construct_at_eq|].
  eapply outcome_eq; [|by apply HQ].
  apply write_slot_eq; [by rewrite lookup_insert_ne|]. by eapply lookup_lt_Some.
Qed.

(** Source and destination in the same block. *)
Lemma outcome_move_construct_same a i j blk x vs h w tr
    (Q : unit → state T W → Prop) E :
  h !! a = Some blk → blk !! i = Some (Some x) → j < length blk →
  (raises (OpMoveCtor x) w = false →
   Q tt (mkState vs (<[a := <[i := Some (moved_from x)]> (<[j := Some x]> blk)]> h)
           (advance (OpMoveCtor x) w) (tr ++ [OpMoveCtor x]))) →
  (raises (OpMoveCtor x) w = true →
   E (mkState vs h (advance (OpMoveCtor x) w) (tr ++ [OpMoveCtor x]))) →
  outcome (move_construct (Ptr (Some a) j) (Ptr (Some a) i)) (mkState vs h w tr) Q E.
Proof.
  intros Ha Hi Hj HQ HE. unfold move_construct.
  eapply outcome_bind_eq; [by eapply deref_eq|].
  apply outcome_bind, outcome_fault; [|done].
  intros Hr. eapply outcome_bind_eq; [by apply construct_at_eq|].
  eapply outcome_eq.
  - apply write_slot_eq; [by rewrite lookup_insert_eq|].
    rewrite length_insert. by eapply lookup_lt_Some.
  - rewrite insert_insert_eq. by apply HQ.
Qed.

Lemma outcome_value_construct b j dblk vs h w tr (Q : unit → state T W → Prop) E :
  h !! b = Some dblk → j < length dblk →
  (raises OpValueInit w = false →
   Q tt (mkState vs (<[b := <[j := Some value_init]> dblk]> h) (advance OpValueInit w)
           (tr ++ [OpValueInit]))) →
  (raises OpValueInit w = true →
   E (mkState vs h (advance OpValueInit w) (tr ++ [OpValueInit]))) →
  outcome (value_construct (Ptr (Some b) j)) (mkState vs h w tr) Q E.
Proof.
  intros Hb Hj HQ HE. unfold value_construct.
  apply outcome_bind, outcome_fault; [|done].
  intros Hr. eapply outcome_eq; [by apply construct_at_eq|]. auto.
Qed.

Lemma outcome_construct_from b j dblk args vs h w tr (Q : unit → state T W → Prop) E :
  h !! b = Some dblk → j < length dblk →
  (raises (ctor_op args) w = false →
   Q tt (mkState vs (<[b := <[j := Some (value_of args)]> dblk]> h)
           (advance (ctor_op args) w) (tr ++ [ctor_op args]))) →
  (raises (ctor_op args) w = true →
   E (mkState vs h (advance (ctor_op args) w) (tr ++ [ctor_op args]))) →
  outcome (construct_from (Ptr (Some b) j) args) (mkState vs h w tr) Q E.
Proof.
  intros Hb Hj HQ HE. unfold construct_from.
  apply outcome_bind, outcome_fault; [|done].
  intros Hr. eapply outcome_eq; [by apply construct_at_eq|]. auto.
Qed.

(** Move assignment inside one block. *)
Lemma outcome_move_assign a i j blk x y vs h w tr (Q : unit → state T W → Prop) E :
  h !! a = Some blk → blk !! i = Some (Some x) → blk !! j = Some (Some y) →
  (raises (OpMoveAssign x) w = false →
   Q tt (mkState vs (<[a := <[i := Some (moved_from x)]> (<[j := Some x]> blk)]> h)
           (advance (OpMoveAssign x) w) (tr ++ [OpMoveAssign x]))) →
  (raises (OpMoveAssign x) w = true →
   E (mkState vs h (advance (OpMoveAssign x) w) (tr ++ [OpMoveAssign x]))) →
  outcome (move_assign (Ptr (Some a) j) (Ptr (Some a) i)) (mkState vs h w tr) Q E.
Proof.
  intros Ha Hi Hj HQ HE. unfold move_assign.
  eapply outcome_bind_eq; [by eapply deref_eq|].
  eapply outcome_bind_eq; [by eapply deref_eq|].
  apply outcome_bind, outcome_fault; [|done].
  intros Hr. eapply outcome_bind_eq; [by eapply assign_at_eq|].
  eapply outcome_eq.
  - apply write_slot_eq; [by rewrite lookup_insert_eq|].
    rewrite length_insert. by eapply lookup_lt_Some.
  - rewrite insert_insert_eq. by apply HQ.
Qed.

Lemma outcome_move_assign_temp a j blk x y vs h w tr (Q : unit → state T W → Prop) E :
  h !! a = Some blk → blk !! j = Some (Some y) →
  (raises (OpMoveAssign x) w = false →
   Q tt (mkState vs (<[a := <[j := Some x]> blk]> h)
           (advance (OpMoveAssign x) w) (tr ++ [OpMoveAssign x]))) →
  (raises (OpMoveAssign x) w = true →
   E (mkState vs h (advance (OpMoveAssign x) w) (tr ++ [OpMoveAssign x]))) →
  outcome (move_assign_temp (Ptr (Some a) j) x) (mkState vs h w tr) Q E.
Proof.
  intros Ha Hj HQ HE. unfold move_assign_temp.
  eapply outcome_bind_eq; [by eapply deref_eq|].
  apply outcome_bind, outcome_fault; [|done].
  intros Hr. eapply outcome_eq; [by eapply assign_at_eq|]. auto.
Qed.

Lemma state_eq vs h h' w tr tr' (P : state T W → Prop) :
  P (mkState vs h w tr) → h = h' → tr = tr' → P (mkState vs h' w tr').
Proof. by intros ? <- <-. Qed.

Lemma outcome_uninit_copy_loop a b i j d spre xs spost dpre done dpost vs h w tr
    (Q : unit → state T W → Prop) E :
  a ≠ b → i = length spre → j = length dpre → d = length done →
  h !! a = Some (spre ++ (Some <$> xs) ++ spost) →
  h !! b = Some (dpre ++ (Some <$> done) ++ replicate (length xs) None ++ dpost) →
  (∀ w', Q tt (mkState vs (<[b := dpre ++ (Some <$> done ++ xs) ++ dpost]> h) w'
                 (tr ++ (OpCopyCtor <$> xs)))) →
  ((∃ x w0, x ∈ xs ∧ raises (OpCopyCtor x) w0 = true) →
   ∀ w' tr', E (mkState vs
     (<[b := dpre ++ replicate (length done + length xs) None ++ dpost]> h) w' tr')) →
  outcome (uninitialized_loop copy_construct (Ptr (Some a) i) (length xs)
             (Ptr (Some b) j) d)
    (mkState vs h w tr) Q E.
Proof.
  intros Hab Hi Hj. revert i d spre done h w tr Hi.
  induction xs as [|x xs IH]; intros i d spre done h w tr Hi Hd Ha Hb HQ HE.
  - apply outcome_ret. eapply state_eq; [apply (HQ w)| |by rewrite app_nil_r].
    rewrite app_nil_r. simpl in Hb. by rewrite insert_id.
  - rewrite fmap_cons in Ha. rewrite <- app_comm_cons in Ha.
    rewrite length_cons in *. rewrite replicate_S in Hb. rewrite <- app_comm_cons in Hb.
    cbn [uninitialized_loop].
    apply outcome_bind, outcome_on_throw.
    unfold ptr_add; cbn [base off].
    eapply outcome_copy_construct; [done|by apply lookup_middle|done| | |].
    + rewrite !length_app, length_fmap. simpl. lia.
    + intros _. rewrite (app_assoc dpre), insert_middle
        by (by rewrite length_app, length_fmap; subst).
      eapply (IH _ _ (spre ++ [Some x]) (done ++ [x])).
      * rewrite length_app. simpl. lia.
      * rewrite length_app. simpl. lia.
      * rewrite lookup_insert_ne by done. by rewrite <- app_assoc.
      * rewrite lookup_insert_eq. by rewrite fmap_app, <- !app_assoc.
      * intros w'. eapply state_eq; [apply (HQ w')| |].
        -- rewrite insert_insert_eq. by rewrite <- !app_assoc.
        -- by rewrite <- app_assoc.
      * intros [y [w0 [Hy Hr]]] w' tr'.
        eapply state_eq; [apply (HE (ltac:(exists y, w0; set_solver)) w' tr')| |done].
        rewrite insert_insert_eq, length_app. simpl.
        by replace (length done + 1 + length xs) with (length done + S (length xs)) by lia.
    + intros Hr.
      eapply outcome_eq; [by eapply (destroy_n_eq b j _ dpre done)|].
      eapply state_eq; [apply (HE (ltac:(exists x, w; set_solver)) _ _)| |done].
      subst d. rewrite replicate_add, replicate_S. by rewrite <- !app_assoc.
Qed.

Lemma outcome_uninit_move_loop a b i j d spre xs spost dpre done dpost vs h w tr
    (Q : unit → state T W → Prop) E :
  a ≠ b → i = length spre → j = length dpre → d = length done →
  h !! a = Some (spre ++ (Some <$> xs) ++ spost) →
  h !! b = Some (dpre ++ (Some <$> done) ++ replicate (length xs) None ++ dpost) →
  (∀ w', Q tt (mkState vs
                 (<[b := dpre ++ (Some <$> done ++ xs) ++ dpost]>
                    (<[a := spre ++ (Some <$> (moved_from <$> xs)) ++ spost]> h))
                 w' (tr ++ (OpMoveCtor <$> xs)))) →
  ((∃ x w0, x ∈ xs ∧ raises (OpMoveCtor x) w0 = true) →
   ∀ xs1 xs2 w' tr', xs = xs1 ++ xs2 →
     E (mkState vs
          (<[b := dpre ++ replicate (length done + length xs) None ++ dpost]>
             (<[a := spre ++ (Some <$> (moved_from <$> xs1) ++ xs2) ++ spost]> h))
          w' tr')) →
  outcome (uninitialized_loop move_construct (Ptr (Some a) i) (length xs)
             (Ptr (Some b) j) d)
    (mkState vs h w tr) Q E.
Proof.
  intros Hab Hi Hj. revert i d spre done h w tr Hi.
  induction xs as [|x xs IH]; intros i d spre done h w tr Hi Hd Ha Hb HQ HE.
  - apply outcome_ret. eapply state_eq; [apply (HQ w)| |by rewrite app_nil_r].
    rewrite app_nil_r. simpl in *. by rewrite !insert_id by (by rewrite ?insert_id).
  - rewrite fmap_cons in Ha. rewrite <- app_comm_cons in Ha.
    rewrite length_cons in *. rewrite replicate_S in Hb. rewrite <- app_comm_cons in Hb.
    cbn [uninitialized_loop].
    apply outcome_bind, outcome_on_throw.
    unfold ptr_add; cbn [base off].
    eapply outcome_move_construct; [done|done|by apply lookup_middle|done| | |].
    + rewrite !length_app, length_fmap. simpl. lia.
    + intros _. rewrite (app_assoc dpre), !insert_middle
        by (by rewrite ?length_app, ?length_fmap; subst).
      eapply (IH _ _ (spre ++ [Some (moved_from x)]) (done ++ [x])).
      * rewrite length_app. simpl. lia.
      * rewrite length_app. simpl. lia.
      * rewrite lookup_insert_eq. by rewrite <- app_assoc.
      * rewrite lookup_insert_ne by done. rewrite lookup_insert_eq.
        by rewrite fmap_app, <- !app_assoc.
      * intros w'. eapply state_eq; [apply (HQ w')| |].
        -- rewrite insert_insert_eq. rewrite (insert_insert_ne _ a b) by done.
           rewrite insert_insert_eq. rewrite !fmap_cons. by rewrite <- !app_assoc.
        -- by rewrite <- app_assoc.
      * intros [y [w0 [Hy Hr]]] xs1 xs2 w' tr' ->.
        eapply state_eq;
          [apply (HE (ltac:(exists y, w0; split; [by right|done]))
                    (x :: xs1) xs2 w' tr' eq_refl)
          | |done].
        rewrite insert_insert_eq. rewrite (insert_insert_ne _ a b) by done.
        rewrite insert_insert_eq. rewrite !length_app. simpl.
        rewrite <- !app_assoc. simpl.
        by replace (length done + 1 + (length xs1 + length xs2))
          with (length done + S (length xs1 + length xs2)) by lia.
    + intros Hr.
      eapply outcome_eq; [by eapply (destroy_n_eq b j _ dpre done)|].
      eapply state_eq;
        [apply (HE (ltac:(exists x, w; set_solver)) [] (x :: xs) _ _ eq_refl)| |done].
      subst d. simpl. rewrite (insert_id h a) by done.
      rewrite replicate_add, replicate_S. by rewrite <- !app_assoc.
Qed.

Lemma outcome_uninit_value_loop b j d n p dpre done dpost vs h w tr
    (Q : unit → state T W → Prop) E :
  j = length dpre → d = length done →
  h !! b = Some (dpre ++ (Some <$> done) ++ replicate n None ++ dpost) →
  (∀ w', Q tt (mkState vs
                 (<[b := dpre ++ (Some <$> done ++ replicate n value_init) ++ dpost]> h)
                 w' (tr ++ replicate n OpValueInit))) →
  ((∃ w0, raises OpValueInit w0 = true) →
   ∀ w' tr', E (mkState vs
     (<[b := dpre ++ replicate (length done + n) None ++ dpost]> h) w' tr')) →
  outcome (uninitialized_loop (λ to _, value_construct to) p n (Ptr (Some b) j) d)
    (mkState vs h w tr) Q E.
Proof.
  intros Hj. revert d p done h w tr.
  induction n as [|n IH]; intros d p done h w tr Hd Hb HQ HE.
  - apply outcome_ret. eapply state_eq; [apply (HQ w)| |by rewrite app_nil_r].
    rewrite app_nil_r. simpl in Hb. by rewrite insert_id.
  - rewrite replicate_S in Hb. rewrite <- app_comm_cons in Hb.
    cbn [uninitialized_loop].
    apply outcome_bind, outcome_on_throw.
    unfold ptr_add; cbn [base off].
    eapply outcome_value_construct; [done| | |].
    + rewrite !length_app, length_fmap. simpl. lia.
    + intros _. rewrite (app_assoc dpre), insert_middle
        by (by rewrite length_app, length_fmap; subst).
      eapply (IH _ _ (done ++ [value_init])).
      * rewrite length_app. simpl. lia.
      * rewrite lookup_insert_eq. by rewrite fmap_app, <- !app_assoc.
      * intros w'. eapply state_eq; [apply (HQ w')| |].
        -- rewrite insert_insert_eq. by rewrite <- !app_assoc.
        -- by rewrite <- app_assoc.
      * intros Hr w' tr'.
        eapply state_eq; [apply (HE Hr w' tr')| |done].
        rewrite insert_insert_eq, length_app. simpl.
        by replace (length done + 1 + n) with (length done + S n) by lia.
    + intros Hr.
      eapply outcome_eq; [by eapply (destroy_n_eq b j _ dpre done)|].
      eapply state_eq; [apply (HE (ltac:(by exists w)) _ _)| |done].
      subst d. rewrite replicate_add, replicate_S. by rewrite <- !app_assoc.
Qed.

Lemma outcome_uninitialized_copy_n a b i j n spre xs spost dpre dpost vs h w tr
    (Q : unit → state T W → Prop) E :
  a ≠ b → i = length spre → j = length dpre → n = length xs →
  h !! a = Some (spre ++ (Some <$> xs) ++ spost) →
  h !! b = Some (dpre ++ replicate n None ++ dpost) →
  (∀ w', Q tt (mkState vs (<[b := dpre ++ (Some <$> xs) ++ dpost]> h) w'
                 (tr ++ (OpCopyCtor <$> xs)))) →
  ((∃ x w0, x ∈ xs ∧ raises (OpCopyCtor x) w0 = true) →
   ∀ w' tr', E (mkState vs h w' tr')) →
  outcome (uninitialized_copy_n (Ptr (Some a) i) n (Ptr (Some b) j))
    (mkState vs h w tr) Q E.
Proof.
  intros Hab Hi Hj -> Ha Hb HQ HE. unfold uninitialized_copy_n.
  eapply (outcome_uninit_copy_loop a b i j 0 spre xs spost dpre [] dpost);
    try done.
  intros Hr w' tr'. eapply state_eq; [by apply HE| |done].
  simpl. by rewrite insert_id.
Qed.

Lemma outcome_uninitialized_move_n a b i j n spre xs spost dpre dpost vs h w tr
    (Q : unit → state T W → Prop) E :
  a ≠ b → i = length spre → j = length dpre → n = length xs →
  h !! a = Some (spre ++ (Some <$> xs) ++ spost) →
  h !! b = Some (dpre ++ replicate n None ++ dpost) →
  (∀ w', Q tt (mkState vs
                 (<[b := dpre ++ (Some <$> xs) ++ dpost]>
                    (<[a := spre ++ (Some <$> (moved_from <$> xs)) ++ spost]> h))
                 w' (tr ++ (OpMoveCtor <$> xs)))) →
  ((∃ x w0, x ∈ xs ∧ raises (OpMoveCtor x) w0 = true) →
   ∀ xs1 xs2 w' tr', xs = xs1 ++ xs2 →
     E (mkState vs (<[a := spre ++ (Some <$> (moved_from <$> xs1) ++ xs2) ++ spost]> h)
          w' tr')) →
  outcome (uninitialized_move_n (Ptr (Some a) i) n (Ptr (Some b) j))
    (mkState vs h w tr) Q E.
Proof.
  intros Hab Hi Hj -> Ha Hb HQ HE. unfold uninitialized_move_n.
  eapply (outcome_uninit_move_loop a b i j 0 spre xs spost dpre [] dpost);
    try done.
  intros Hr xs1 xs2 w' tr' Hx. eapply state_eq; [by apply (HE Hr xs1 xs2)| |done].
  simpl. rewrite (insert_insert_ne _ b a) by done. by rewrite (insert_id h b).
Qed.

Lemma outcome_uninitialized_value_construct_n b j n dpre dpost vs h w tr
    (Q : unit → state T W → Prop) E :
  j = length dpre →
  h !! b = Some (dpre ++ replicate n None ++ dpost) →
  (∀ w', Q tt (mkState vs (<[b := dpre ++ (Some <$> replicate n value_init) ++ dpost]> h)
                 w' (tr ++ replicate n OpValueInit))) →
  ((∃ w0, raises OpValueInit w0 = true) → ∀ w' tr', E (mkState vs h w' tr')) →
  outcome (uninitialized_value_construct_n (Ptr (Some b) j) n) (mkState vs h w tr) Q E.
Proof.
  intros Hj Hb HQ HE. unfold uninitialized_value_construct_n.
  eapply (outcome_uninit_value_loop b j 0 n nullptr dpre [] dpost); try done.
  intros Hr w' tr'. eapply state_eq; [by apply HE| |done].
  simpl. by rewrite insert_id.
Qed.

Lemma uninitialized_loop_zero build p q d s :
  uninitialized_loop build p 0 q d s = Normal tt s.
Proof. done. Qed.

Lemma MoveItemsInNewMemory_zero p q s : MoveItemsInNewMemory p q 0 s = Normal tt s.
Proof. unfold MoveItemsInNewMemory. by destruct (_ || _). Qed.

Lemma outcome_MoveItemsInNewMemory a b i j n spre xs spost dpre dpost vs h w tr
    (Q : unit → state T W → Prop) E :
  a ≠ b → i = length spre → j = length dpre → n = length xs →
  h !! a = Some (spre ++ (Some <$> xs) ++ spost) →
  h !! b = Some (dpre ++ replicate n None ++ dpost) →
  (∀ w', Q tt (mkState vs
                 (<[b := dpre ++ (Some <$> xs) ++ dpost]>
                    (<[a := spre ++ replicate n None ++ spost]> h))
                 w' (tr ++ (relocate_op <$> xs) ++ (OpDestroy <$> (relocated_from <$> xs))))) →
  (relocate_by_move = false →
   (∃ x w0, x ∈ xs ∧ raises (OpCopyCtor x) w0 = true) →
   ∀ w' tr', E (mkState vs h w' tr')) →
  (relocate_by_move = true →
   (∃ x w0, x ∈ xs ∧ raises (OpMoveCtor x) w0 = true) →
   ∀ xs1 xs2 w' tr', xs = xs1 ++ xs2 →
     E (mkState vs (<[a := spre ++ (Some <$> (moved_from <$> xs1) ++ xs2) ++ spost]> h)
          w' tr')) →
  outcome (MoveItemsInNewMemory (Ptr (Some a) i) (Ptr (Some b) j) n)
    (mkState vs h w tr) Q E.
Proof.
  intros Hab Hi Hj Hn Ha Hb HQ HEc HEm. unfold MoveItemsInNewMemory.
  change (is_nothrow_move_constructible || negb is_copy_constructible)
    with relocate_by_move.
  unfold relocate_op, relocated_from in HQ.
  destruct relocate_by_move; apply outcome_bind.
  - eapply outcome_uninitialized_move_n; try done; [|by apply HEm].
    intros w'. eapply outcome_eq.
    + eapply (destroy_n_eq a i n spre (moved_from <$> xs));
        [done|by rewrite length_fmap|].
      rewrite lookup_insert_ne by done. by rewrite lookup_insert_eq.
    + eapply state_eq; [apply (HQ w')| |].
      * rewrite (insert_insert_ne _ a b) by done. by rewrite insert_insert_eq.
      * by rewrite <- app_assoc.
  - eapply outcome_uninitialized_copy_n; try done; [|by apply HEc].
    intros w'. eapply outcome_eq.
    + eapply (destroy_n_eq a i n spre xs); [done|done|].
      by rewrite lookup_insert_ne.
    + eapply state_eq; [apply (HQ w')| |].
      * by rewrite (insert_insert_ne _ a b).
      * rewrite <- app_assoc. by rewrite list_fmap_id.
Qed.


Lemma vacated_last x y xs : vacated (moved_from y) (last xs) = vacated x (last (y :: xs)).
Proof.
  destruct xs as [|z xs]; [done|].
  change (last (y :: z :: xs)) with (last (z :: xs)).
  destruct (last (z :: xs)) eqn:Hl; [done|]. by apply last_None in Hl.
Qed.

Lemma vacated_head x y xs : vacated (moved_from y) (head xs) = vacated x (head (xs ++ [y])).
Proof. by destruct xs. Qed.

Lemma outcome_move_n a i pre x xs post vs h w tr (Q : unit → state T W → Prop) E :
  i = length pre →
  h !! a = Some (pre ++ Some x :: (Some <$> xs) ++ post) →
  (∀ w', Q tt (mkState vs
                 (<[a := pre ++ (Some <$> xs) ++ Some (vacated x (last xs)) :: post]> h)
                 w' (tr ++ (OpMoveAssign <$> xs)))) →
  ((∃ y w0, y ∈ xs ∧ raises (OpMoveAssign y) w0 = true) → ∀ s', E s') →
  outcome (move_n (Ptr (Some a) (i + 1)) (length xs) (Ptr (Some a) i))
    (mkState vs h w tr) Q E.
Proof.
  revert i pre x h w tr.
  induction xs as [|y xs IH]; intros i pre x h w tr Hi Ha HQ HE.
  - apply outcome_ret. eapply state_eq; [apply (HQ w)| |by rewrite app_nil_r].
    simpl in *. by rewrite insert_id.
  - rewrite fmap_cons in Ha. rewrite <- app_comm_cons in Ha.
    rewrite length_cons. cbn [move_n].
    apply outcome_bind.
    eapply outcome_move_assign; [done| |by apply lookup_middle| |].
    + rewrite (cons_middle (Some x) pre), app_assoc. apply lookup_middle.
      rewrite length_app. simpl. lia.
    + intros _. rewrite insert_middle by done.
      rewrite (cons_middle (Some y) pre), app_assoc, insert_middle
        by (rewrite length_app; simpl; lia).
      unfold ptr_add; cbn [base off].
      eapply (IH _ (pre ++ [Some y]) (moved_from y)).
      * rewrite length_app. simpl. lia.
      * rewrite lookup_insert_eq. by rewrite <- !app_assoc.
      * intros w'. eapply state_eq; [apply (HQ w')| |].
        -- rewrite insert_insert_eq. rewrite fmap_cons, <- vacated_last.
           by rewrite <- !app_assoc.
        -- by rewrite <- app_assoc.
      * intros [z [w0 [Hz Hr]]]. apply HE. exists z, w0. set_solver.
    + intros Hr. apply HE. exists y, w. set_solver.
Qed.

Lemma lookup_middle_next {A} (l1 l2 : list A) (x y : A) i :
  i = length l1 + 1 → (l1 ++ x :: y :: l2) !! i = Some y.
Proof.
  intros ->. rewrite (cons_middle x), app_assoc. apply lookup_middle.
  rewrite length_app. simpl. lia.
Qed.

Lemma insert_middle_next {A} (l1 l2 : list A) (x y z : A) i :
  i = length l1 + 1 → <[i := z]> (l1 ++ x :: y :: l2) = l1 ++ x :: z :: l2.
Proof.
  intros ->. rewrite (cons_middle x), app_assoc, insert_middle.
  - by rewrite <- app_assoc.
  - rewrite length_app. simpl. lia.
Qed.

Lemma outcome_move_backward_n a i j n pre xs y post vs h w tr
    (Q : unit → state T W → Prop) E :
  i = length pre + length xs → j = i + 1 → n = length xs →
  h !! a = Some (pre ++ (Some <$> xs) ++ Some y :: post) →
  (∀ w', Q tt (mkState vs
                 (<[a := pre ++ Some (vacated y (head xs)) :: (Some <$> xs) ++ post]> h)
                 w' (tr ++ (OpMoveAssign <$> reverse xs)))) →
  ((∃ z w0, z ∈ xs ∧ raises (OpMoveAssign z) w0 = true) → ∀ s', E s') →
  outcome (move_backward_n (Ptr (Some a) i) n (Ptr (Some a) j))
    (mkState vs h w tr) Q E.
Proof.
  revert i j n y post h w tr.
  induction xs as [|x xs IH] using rev_ind; intros i j n y post h w tr Hi Hj Hn Ha HQ HE.
  - subst n. apply outcome_ret. eapply state_eq; [apply (HQ w)| |by rewrite app_nil_r].
    simpl in *. by rewrite insert_id.
  - rewrite length_app in Hi, Hn. simpl in Hi, Hn.
    replace n with (S (length xs)) by lia.
    rewrite fmap_app in Ha. simpl in Ha. rewrite <- app_assoc in Ha. simpl in Ha.
    rewrite app_assoc in Ha.
    assert (length (pre ++ (Some <$> xs)) = length pre + length xs) as Hpx
      by (by rewrite length_app, length_fmap).
    cbn [move_backward_n]. unfold ptr_sub. cbn [base off].
    rewrite !decide_True by lia.
    eapply outcome_bind_eq; [done|]. eapply outcome_bind_eq; [done|].
    apply outcome_bind.
    eapply outcome_move_assign; [done| | | |].
    + apply lookup_middle. lia.
    + apply lookup_middle_next. lia.
    + intros _.
      rewrite insert_middle_next, insert_middle by lia.
      rewrite <- app_assoc.
      eapply (IH _ _ _ (moved_from x) (Some x :: post)); [lia|lia|done| | |].
      * by rewrite lookup_insert_eq.
      * intros w'. eapply state_eq; [apply (HQ w')| |].
        -- rewrite insert_insert_eq. rewrite <- vacated_head.
           rewrite fmap_app. by rewrite <- !app_assoc.
        -- rewrite reverse_snoc, fmap_cons. by rewrite <- app_assoc.
      * intros [z [w0 [Hz Hr]]]. apply HE. exists z, w0. set_solver.
    + intros Hr. apply HE. exists x, w. set_solver.
Qed.

(** ** Objects and raw memory *)


Lemma get_vec_eq this v vs h w tr :
  vs !! this = Some v →
  get_vec this (mkState vs h w tr) = Normal v (mkState vs h w tr).
Proof. intros Hv. unfold get_vec. simpl. by rewrite Hv. Qed.

Lemma Capacity_eq this v vs h w tr :
  vs !! this = Some v →
  Capacity this (mkState vs h w tr) = Normal (capacity_ (data_ v)) (mkState vs h w tr).
Proof. intros Hv. unfold Capacity, mbind, M_bind. by rewrite (get_vec_eq this v). Qed.

Lemma begin_eq this v vs h w tr :
  vs !! this = Some v →
  begin this (mkState vs h w tr) = Normal (Ptr (buffer_ (data_ v)) 0) (mkState vs h w tr).
Proof. intros Hv. unfold begin, mbind, M_bind. by rewrite (get_vec_eq this v). Qed.

Lemma end_eq this v vs h w tr :
  vs !! this = Some v →
  end_ this (mkState vs h w tr)
  = Normal (Ptr (buffer_ (data_ v)) (0 + size_ v)) (mkState vs h w tr).
Proof. intros Hv. unfold end_, mbind, M_bind. by rewrite (get_vec_eq this v). Qed.

Lemma set_data_eq this v d vs h w tr :
  vs !! this = Some v →
  set_data this d (mkState vs h w tr)
  = Normal tt (mkState (<[this := mkVector d (size_ v)]> vs) h w tr).
Proof. intros Hv. unfold set_data, mbind, M_bind. by rewrite (get_vec_eq this v). Qed.

Lemma set_size_eq this v n vs h w tr :
  vs !! this = Some v →
  set_size this n (mkState vs h w tr)
  = Normal tt (mkState (<[this := mkVector (data_ v) n]> vs) h w tr).
Proof. intros Hv. unfold set_size, mbind, M_bind. by rewrite (get_vec_eq this v). Qed.

Lemma incr_size_eq this v vs h w tr :
  vs !! this = Some v →
  incr_size this (mkState vs h w tr)
  = Normal tt (mkState (<[this := mkVector (data_ v) (size_ v + 1)]> vs) h w tr).
Proof. intros Hv. unfold incr_size, mbind, M_bind. by rewrite (get_vec_eq this v). Qed.

Lemma outcome_RawMemory_ctor n vs h w tr (Q : RawMemory → state T W → Prop) E :
  n ≠ 0 →
  (∀ b, h !! b = None →
        Q (mkRawMemory (Some b) n)
          (mkState vs (<[b := replicate n None]> h) (advance (OpNew n) w)
             (tr ++ [OpNew n]))) →
  (raises (OpNew n) w = true → E (mkState vs h (advance (OpNew n) w) (tr ++ [OpNew n]))) →
  outcome (RawMemory_ctor n) (mkState vs h w tr) Q E.
Proof.
  intros Hn HQ HE. unfold RawMemory_ctor, Allocate. rewrite decide_True by done.
  do 2 apply outcome_bind. apply outcome_fault; [|done].
  intros _. unfold outcome, alloc_block, set_heap. simpl.
  apply HQ. apply not_elem_of_dom, is_fresh.
Qed.

Lemma RawMemory_ctor_zero s :
  RawMemory_ctor 0 s = Normal (mkRawMemory None 0) s.
Proof. done. Qed.

Lemma Deallocate_eq a blk vs h w tr :
  h !! a = Some blk →
  Deallocate (Some a) (mkState vs h w tr) = Normal tt (mkState vs (delete a h) w tr).
Proof. intros Ha. unfold Deallocate. simpl. by rewrite Ha. Qed.

Lemma RawMemory_dtor_eq buf cap vs h w tr :
  (∀ a, buf = Some a → is_Some (h !! a)) →
  RawMemory_dtor (mkRawMemory buf cap) (mkState vs h w tr)
  = Normal tt (mkState vs (release buf h) w tr).
Proof.
  intros Hbuf. unfold RawMemory_dtor. destruct buf as [a|]; [|done].
  destruct (Hbuf a eq_refl) as [blk Ha]. by apply (Deallocate_eq a blk).
Qed.

Lemma slots_length l cap : length l ≤ cap → length (slots l cap) = cap.
Proof. intros. unfold slots. rewrite length_app, length_fmap, length_replicate. lia. Qed.

Lemma replicate_split {A} (n m : nat) (x : A) :
  m ≤ n → replicate n x = replicate m x ++ replicate (n - m) x.
Proof. intros. rewrite <- replicate_add. f_equal. lia. Qed.

Lemma outcome_Reserve this l cap buf n vs h w tr (Q : unit → state T W → Prop) E :
  holds (mkState vs h w tr) this l cap buf →
  (n ≤ cap → Q tt (mkState vs h w tr)) →
  (cap < n → ∀ b w', h !! b = None →
     Q tt (mkState (<[this := mkVector (mkRawMemory (Some b) n) (length l)]> vs)
             (<[b := slots l n]> (release buf h)) w'
             (tr ++ OpNew n :: (relocate_op <$> l) ++
                (OpDestroy <$> (relocated_from <$> l))))) →
  (cap < n → (∃ w0, raises (OpNew n) w0 = true) → ∀ w' tr', E (mkState vs h w' tr')) →
  (cap < n → relocate_by_move = false →
   (∃ x w0, x ∈ l ∧ raises (OpCopyCtor x) w0 = true) → ∀ w' tr', E (mkState vs h w' tr')) →
  (cap < n → relocate_by_move = true →
   (∃ x w0, x ∈ l ∧ raises (OpMoveCtor x) w0 = true) →
   ∀ l' w' tr', length l' = length l →
     E (mkState vs (with_block buf (slots l' cap) h) w' tr')) →
  outcome (Reserve this n) (mkState vs h w tr) Q E.
Proof.
  intros (Hv & Hle & Hbuf) HQ0 HQ HEa HEc HEm. simpl in Hv, Hbuf.
  unfold Reserve.
  eapply outcome_bind_eq; [by apply Capacity_eq|]. simpl.
  case_decide as Hn; [by apply outcome_ret, HQ0|].
  apply Nat.nle_gt in Hn.
  apply outcome_bind, outcome_RawMemory_ctor; [lia| |].
  2:{ intros Hr. apply HEa; [done|by exists w]. }
  intros b Hb.
  eapply outcome_bind_eq; [by apply get_vec_eq|]. simpl.
  apply outcome_bind, outcome_on_throw.
  destruct buf as [a|].
  - assert (a ≠ b) as Hab by congruence.
    unfold GetAddress. cbn [buffer_].
    eapply (outcome_MoveItemsInNewMemory a b 0 0 (length l) [] l
              (replicate (cap - length l) None) [] (replicate (n - length l) None));
      [done|done|done|done| | | | |].
    + by rewrite lookup_insert_ne.
    + rewrite lookup_insert_eq. simpl. by rewrite <- replicate_split by lia.
    + intros w'. simpl.
      eapply outcome_bind_eq; [by apply set_data_eq|]. simpl.
      eapply outcome_eq.
      { apply RawMemory_dtor_eq. intros ? [= <-].
        rewrite lookup_insert_ne, lookup_insert_eq by done. eauto. }
      eapply state_eq; [by apply (HQ Hn b w')| |by rewrite <- app_assoc].
      simpl. unfold slots. heap_eq.
    + intros Hm Hr w' tr'.
      eapply outcome_eq.
      { apply RawMemory_dtor_eq. intros ? [= <-]. rewrite lookup_insert_eq. eauto. }
      eapply state_eq; [by apply (HEc Hn Hm Hr w' tr')| |done].
      simpl. heap_eq.
    + intros Hm Hr xs1 xs2 w' tr' Hl.
      eapply outcome_eq.
      { apply RawMemory_dtor_eq. intros ? [= <-].
        rewrite lookup_insert_ne, lookup_insert_eq by done. eauto. }
      eapply state_eq;
        [apply (HEm Hn Hm Hr ((moved_from <$> xs1) ++ xs2) w' tr')| |done].
      * subst l. rewrite !length_app, length_fmap. done.
      * simpl. unfold slots. subst l.
        rewrite !length_app, length_fmap. heap_eq.
  - assert (l = []) as -> by (apply nil_length_inv; lia).
    eapply outcome_eq; [apply MoveItemsInNewMemory_zero|].
    eapply outcome_bind_eq; [by apply set_data_eq|]. simpl.
    eapply outcome_eq; [by apply RawMemory_dtor_eq|].
    eapply state_eq; [by apply (HQ Hn b (advance (OpNew n) w))| |done].
    simpl. unfold slots. simpl. by rewrite Nat.sub_0_r.
Qed.

Lemma size_sub_eq (a b : nat) s : b ≤ a → size_sub a b s = Normal (a - b) s.
Proof. intros. unfold size_sub. by rewrite decide_True. Qed.

Lemma insert_replicate {A} (n i : nat) (x y : A) :
  i < n → <[i := y]> (replicate n x) = replicate i x ++ y :: replicate (n - S i) x.
Proof.
  intros Hi. rewrite (replicate_split n i) by lia.
  replace (n - i) with (S (n - S i)) by lia. rewrite replicate_S.
  apply insert_middle. by rewrite length_replicate.
Qed.

Lemma split_at {A} (k : list A) i :
  i ≤ length k →
  ∃ k1 k2 : list A, k = k1 ++ k2 ∧ length k1 = i ∧ take i k = k1 ∧ drop i k = k2.
Proof.
  intros Hi. exists (take i k), (drop i k).
  split_and!; [by rewrite take_drop|by rewrite length_take_le|done|done].
Qed.

Lemma outcome_InsertWithReallocate this l cap buf i args vs h w tr
    (Q : unit → state T W → Prop) E :
  holds (mkState vs h w tr) this l cap buf → i ≤ length l →
  let c := if decide (length l = 0) then 1 else length l * 2 in
  (∀ b w', h !! b = None →
     Q tt (mkState (<[this := mkVector (mkRawMemory (Some b) c) (length l)]> vs)
             (<[b := slots (take i l ++ value_of args :: drop i l) c]> (release buf h)) w'
             (tr ++ OpNew c :: ctor_op args ::
                (relocate_op <$> take i l) ++
                (OpDestroy <$> (relocated_from <$> take i l)) ++
                (relocate_op <$> drop i l) ++
                (OpDestroy <$> (relocated_from <$> drop i l))))) →
  ((∃ w0, raises (OpNew c) w0 = true) → ∀ w' tr', E (mkState vs h w' tr')) →
  ((∃ w0, raises (ctor_op args) w0 = true) → ∀ w' tr', E (mkState vs h w' tr')) →
  (relocate_by_move = false →
   (∃ x w0, x ∈ take i l ∧ raises (OpCopyCtor x) w0 = true) →
   ∀ w' tr', E (mkState vs h w' tr')) →
  (relocate_by_move = false →
   (∃ x w0, x ∈ drop i l ∧ raises (OpCopyCtor x) w0 = true) →
   ∀ w' tr',
     E (mkState vs (with_block buf (replicate i None ++ drop i (slots l cap)) h) w' tr')) →
  (relocate_by_move = true →
   (∃ x w0, x ∈ l ∧ raises (OpMoveCtor x) w0 = true) →
   ∀ blk w' tr', length blk = cap → E (mkState vs (with_block buf blk h) w' tr')) →
  outcome (InsertWithReallocate this i args) (mkState vs h w tr) Q E.
Proof.
  intros (Hv & Hle & Hbuf) Hi c HQ HEa HEx HEp HEs HEm. simpl in Hv, Hbuf.
  assert (c ≠ 0 ∧ length l < c) as [Hc0 Hlc] by (subst c; case_decide; lia).
  destruct (split_at l i Hi) as (pl & sl & Hl & Hpl & Htake & Hdrop).
  rewrite Htake, Hdrop in *. clear Htake Hdrop.
  assert (length l = i + length sl) as Hlen by (subst l; rewrite length_app; lia).
  unfold InsertWithReallocate.
  eapply outcome_bind_eq; [by apply get_vec_eq|]. cbn [size_ data_]. fold c.
  apply outcome_bind, outcome_RawMemory_ctor; [done| |].
  2:{ intros Hr. apply HEa. by exists w. }
  intros b Hb. set (x := value_of args) in *.
  apply outcome_bind, outcome_on_throw, outcome_bind.
  unfold GetAddress, ptr_add. cbn [buffer_ base off]. rewrite !Nat.add_0_l.
  eapply outcome_construct_from;
    [by rewrite lookup_insert_eq|rewrite length_replicate; lia| |].
  2:{ intros Hr. eapply outcome_eq.
      { apply RawMemory_dtor_eq. intros ? [= <-]. rewrite lookup_insert_eq. eauto. }
      eapply state_eq; [apply HEx; by exists (advance (OpNew c) w)| |done].
      simpl. heap_eq. }
  intros _. rewrite insert_insert_eq, insert_replicate by lia.
  rewrite (replicate_split (c - S i) (length sl)) by lia.
  assert (slots (pl ++ x :: sl) c
          = ((Some <$> pl) ++ [Some x]) ++ (Some <$> sl)
              ++ replicate (c - S i - length sl) None) as Hnew.
  { unfold slots. rewrite fmap_app, fmap_cons, <- !app_assoc. simpl.
    do 4 f_equal. rewrite length_app. simpl. lia. }
  destruct buf as [a|].
  - assert (a ≠ b) as Hab by congruence.
    assert (slots l cap = (Some <$> pl) ++ (Some <$> sl)
                          ++ replicate (cap - length l) None) as Hold.
    { unfold slots. subst l. by rewrite fmap_app, <- app_assoc. }
    rewrite Hold in *.
    apply outcome_bind.
    eapply (outcome_MoveItemsInNewMemory a b 0 0 i [] pl
              ((Some <$> sl) ++ replicate (cap - length l) None)
              [] (Some x :: replicate (length sl) None
                    ++ replicate (c - S i - length sl) None));
      [done|done|done|done|by rewrite lookup_insert_ne|by rewrite lookup_insert_eq| | |].
    2:{ intros Hm Hr w' tr'. eapply outcome_eq.
        { apply RawMemory_dtor_eq. intros ? [= <-]. rewrite lookup_insert_eq. eauto. }
        eapply state_eq; [by apply (HEp Hm Hr w' tr')| |done]. simpl. heap_eq. }
    2:{ intros Hm (y & w0 & Hy & Hr) xs1 xs2 w' tr' Hx. eapply outcome_eq.
        { apply RawMemory_dtor_eq. intros ? [= <-].
          rewrite lookup_insert_ne, lookup_insert_eq by done. eauto. }
        eapply state_eq; [eapply (HEm Hm) with (w' := w') (tr' := tr')| |done].
        - exists y, w0. split; [|done]. subst l. apply elem_of_app. by left.
        - shelve.
        - simpl. heap_eq. }
    intros w'. cbn [app].
    eapply outcome_bind_eq; [by apply size_sub_eq|].
    replace (length l - i) with (length sl) by lia.
    eapply (outcome_MoveItemsInNewMemory a b i (i + 1) (length sl) (replicate i None) sl
              (replicate (cap - length l) None)
              ((Some <$> pl) ++ [Some x]) (replicate (c - S i - length sl) None));
      [done|by rewrite length_replicate
      |rewrite length_app, length_fmap; simpl; lia|done
      |rewrite lookup_insert_ne, lookup_insert_eq by done; by rewrite <- ?app_assoc
      |rewrite lookup_insert_eq; by rewrite <- ?app_assoc| | |].
    2:{ intros Hm Hr w'' tr'. eapply outcome_eq.
        { apply RawMemory_dtor_eq. intros ? [= <-]. rewrite lookup_insert_eq. eauto. }
        eapply state_eq; [by apply (HEs Hm Hr w'' tr')| |done]. simpl.
        rewrite drop_app_length' by (by rewrite length_fmap). heap_eq. }
    2:{ intros Hm (y & w0 & Hy & Hr) xs1 xs2 w'' tr' Hx. eapply outcome_eq.
        { apply RawMemory_dtor_eq. intros ? [= <-].
          rewrite lookup_insert_ne, lookup_insert_eq by done. eauto. }
        eapply state_eq; [eapply (HEm Hm) with (w' := w'') (tr' := tr')| |done].
        - exists y, w0. split; [|done]. subst l. apply elem_of_app. by right.
        - shelve.
        - simpl. heap_eq. }
    intros w''. simpl.
    eapply outcome_bind_eq; [by apply set_data_eq|]. simpl.
    eapply outcome_eq.
    { apply RawMemory_dtor_eq. intros ? [= <-].
      rewrite lookup_insert_ne, lookup_insert_eq by done. eauto. }
    eapply state_eq; [by apply (HQ b w'')| |].
    + simpl. rewrite Hnew. heap_eq.
    + by rewrite <- !app_assoc.
  - assert (l = []) as -> by (apply nil_length_inv; lia).
    destruct pl, sl; try done. simpl in *. subst i.
    eapply outcome_bind_eq; [apply MoveItemsInNewMemory_zero|].
    eapply outcome_bind_eq; [by apply size_sub_eq|].
    eapply outcome_eq; [apply MoveItemsInNewMemory_zero|].
    eapply outcome_bind_eq; [by apply set_data_eq|]. simpl.
    eapply outcome_eq; [by apply RawMemory_dtor_eq|].
    eapply state_eq; [by apply (HQ b (advance (ctor_op args) (advance (OpNew c) w)))| |].
    + simpl. by rewrite Hnew.
    + simpl. by rewrite <- app_assoc.
  Unshelve.
  all: subst; repeat rewrite ?length_app, ?length_fmap, ?length_replicate in *; lia.
Qed.

Lemma ptr_sub_eq buf k n s : k ≤ n → ptr_sub (Ptr buf n) k s = Normal (Ptr buf (n - k)) s.
Proof. intros. unfold ptr_sub. simpl. by rewrite decide_True. Qed.

Lemma ptr_diff_eq buf m n s : n ≤ m → ptr_diff (Ptr buf m) (Ptr buf n) s = Normal (m - n) s.
Proof. intros. unfold ptr_diff. simpl. by rewrite decide_True. Qed.

Lemma log_eq o vs h w tr : log o (mkState vs h w tr) = Normal tt (mkState vs h w (tr ++ [o])).
Proof. done. Qed.

Lemma outcome_InsertInPlace this l cap a i args vs h w tr
    (Q : unit → state T W → Prop) E :
  holds (mkState vs h w tr) this l cap (Some a) → length l < cap → i ≤ length l →
  (∀ w' tr',
     Q tt (mkState vs (<[a := slots (take i l ++ value_of args :: drop i l) cap]> h) w' tr')) →
  ((∃ o w0, raises o w0 = true) → ∀ s', E s') →
  outcome (InsertInPlace this i args) (mkState vs h w tr) Q E.
Proof.
  intros (Hv & Hle & Hbuf) Hlt Hi HQ HE. simpl in Hv, Hbuf.
  unfold InsertInPlace.
  eapply outcome_bind_eq; [by apply get_vec_eq|]. cbn [size_ data_].
  unfold GetAddress, ptr_add. cbn [buffer_ base off]. rewrite !Nat.add_0_l.
  set (x := value_of args) in *.
  case_decide as Hend.
  - subst i. rewrite take_ge, drop_ge in HQ by done.
    eapply outcome_construct_from; [done|by rewrite slots_length| |].
    2:{ intros Hr. apply HE. eauto. }
    intros _. eapply state_eq; [apply HQ| |done].
    f_equal. unfold slots.
    replace (cap - length l) with (S (cap - length (l ++ [x])))
      by (rewrite length_app; simpl; lia).
    rewrite replicate_S, insert_middle by (by rewrite length_fmap).
    by rewrite fmap_app, <- app_assoc.
  - destruct (split_at l i Hi) as (pl & sl & Hl & Hpl & Htake & Hdrop).
    rewrite Htake, Hdrop in *. clear Htake Hdrop.
    destruct sl as [|lastv mid _] using rev_ind.
    { rewrite app_nil_r in Hl. subst. done. }
    assert (length l = i + length mid + 1) as Hlen
      by (subst l; rewrite !length_app; simpl; lia).
    assert (slots l cap = ((Some <$> pl) ++ (Some <$> mid)) ++
              Some lastv :: None :: replicate (cap - S (length l)) None) as Hold.
    { unfold slots. rewrite Hl at 1. rewrite !fmap_app, <- !app_assoc. simpl.
      rewrite <- replicate_S. by replace (S (cap - S (length l))) with (cap - length l) by lia. }
    assert (length ((Some <$> pl) ++ (Some <$> mid)) = i + length mid) as Hpm
      by (rewrite length_app, !length_fmap; lia).
    rewrite Hold in Hbuf.
    apply outcome_bind, outcome_fault.
    2:{ intros Hr. apply HE. eauto. }
    intros _. apply outcome_bind, outcome_on_throw.
    eapply outcome_bind_eq; [by apply begin_eq|]. cbn [buffer_ data_ base off].
    rewrite !Nat.add_0_l.
    eapply outcome_bind_eq; [apply ptr_sub_eq; lia|].
    apply outcome_bind.
    eapply outcome_move_construct_same; [done| | | |].
    { apply lookup_middle. lia. }
    { rewrite length_app, Hpm. simpl. rewrite length_replicate. lia. }
    2:{ intros Hr. eapply outcome_eq; [apply log_eq|]. apply HE. eauto. }
    intros _. rewrite insert_middle_next, insert_middle by lia.
    eapply outcome_bind_eq; [by apply end_eq|]. cbn [buffer_ data_ size_].
    rewrite !Nat.add_0_l.
    eapply outcome_bind_eq; [apply ptr_sub_eq; lia|].
    apply outcome_bind. unfold std_move_backward.
    eapply outcome_bind_eq; [apply ptr_diff_eq; lia|].
    rewrite <- app_assoc.
    eapply (outcome_move_backward_n a _ _ _ (Some <$> pl) mid (moved_from lastv)
              (Some lastv :: replicate (cap - S (length l)) None));
      [rewrite length_fmap; lia|lia|lia|by rewrite lookup_insert_eq| |].
    2:{ intros (z & w0 & _ & Hr) s'. eapply outcome_eq; [reflexivity|]. apply HE. eauto. }
    intros w'.
    eapply outcome_move_assign_temp;
      [by rewrite lookup_insert_eq|apply lookup_middle; by rewrite length_fmap| |].
    2:{ intros Hr. eapply outcome_eq; [apply log_eq|]. apply HE. eauto. }
    intros _. eapply outcome_eq; [apply log_eq|].
    eapply state_eq; [apply HQ| |done].
    rewrite !insert_insert_eq. f_equal.
    rewrite insert_middle by (by rewrite length_fmap).
    unfold slots.
    replace (length (pl ++ x :: mid ++ [lastv])) with (S (length l))
      by (rewrite length_app; simpl; rewrite length_app; simpl; lia).
    rewrite fmap_app, fmap_cons, fmap_app, <- !app_assoc. simpl.
    by rewrite <- !app_assoc.
Qed.

Lemma outcome_Emplace this l cap buf i args vs h w tr
    (Q : ptr → state T W → Prop) E :
  holds (mkState vs h w tr) this l cap buf → i ≤ length l →
  let c := if decide (length l = 0) then 1 else length l * 2 in
  let l' := take i l ++ value_of args :: drop i l in
  (length l = cap → ∀ b w', h !! b = None →
     Q (Ptr (Some b) i)
       (mkState (<[this := mkVector (mkRawMemory (Some b) c) (length l + 1)]> vs)
          (<[b := slots l' c]> (release buf h)) w'
          (tr ++ OpNew c :: ctor_op args ::
             (relocate_op <$> take i l) ++
             (OpDestroy <$> (relocated_from <$> take i l)) ++
             (relocate_op <$> drop i l) ++
             (OpDestroy <$> (relocated_from <$> drop i l))))) →
  (length l < cap → ∀ a w' tr', buf = Some a →
     Q (Ptr (Some a) i)
       (mkState (<[this := mkVector (mkRawMemory (Some a) cap) (length l + 1)]> vs)
          (<[a := slots l' cap]> h) w' tr')) →
  (length l = cap → (∃ w0, raises (OpNew c) w0 = true) →
   ∀ w' tr', E (mkState vs h w' tr')) →
  (length l = cap → (∃ w0, raises (ctor_op args) w0 = true) →
   ∀ w' tr', E (mkState vs h w' tr')) →
  (length l = cap → relocate_by_move = false →
   (∃ x w0, x ∈ take i l ∧ raises (OpCopyCtor x) w0 = true) →
   ∀ w' tr', E (mkState vs h w' tr')) →
  (length l = cap → relocate_by_move = false →
   (∃ x w0, x ∈ drop i l ∧ raises (OpCopyCtor x) w0 = true) →
   ∀ w' tr',
     E (mkState vs (with_block buf (replicate i None ++ drop i (slots l cap)) h) w' tr')) →
  (length l = cap → relocate_by_move = true →
   (∃ x w0, x ∈ l ∧ raises (OpMoveCtor x) w0 = true) →
   ∀ blk w' tr', length blk = cap → E (mkState vs (with_block buf blk h) w' tr')) →
  (length l < cap → (∃ o w0, raises o w0 = true) → ∀ s', E s') →
  outcome (Emplace this (Ptr buf i) args) (mkState vs h w tr) Q E.
Proof.
  intros Hh Hi c l' HQr HQp HEa HEx HEp HEs HEm HEi.
  pose proof Hh as (Hv & Hle & Hbuf). simpl in Hv, Hbuf.
  unfold Emplace.
  eapply outcome_bind_eq; [by apply begin_eq|]. cbn [data_ buffer_].
  eapply outcome_bind_eq; [apply ptr_diff_eq; lia|]. rewrite Nat.sub_0_r.
  eapply outcome_bind_eq; [by apply get_vec_eq|].
  eapply outcome_bind_eq; [by apply Capacity_eq|]. cbn [data_ capacity_ size_].
  apply outcome_bind.
  case_decide as Hfull.
  - assert (length l = cap) as Hcap by lia.
    eapply outcome_InsertWithReallocate; try done; auto.
    intros b w' Hb.
    eapply outcome_bind_eq; [apply incr_size_eq, lookup_insert_eq|].
    eapply outcome_bind_eq; [apply begin_eq, lookup_insert_eq|].
    apply outcome_ret. unfold ptr_add. cbn [data_ buffer_ size_ base off].
    rewrite insert_insert_eq. by apply HQr.
  - assert (length l < cap) as Hlt by lia.
    destruct buf as [a|]; [|lia].
    eapply outcome_InsertInPlace; try done; [|by auto].
    intros w' tr'.
    eapply outcome_bind_eq; [by apply incr_size_eq|].
    eapply outcome_bind_eq; [apply begin_eq, lookup_insert_eq|].
    apply outcome_ret. unfold ptr_add. cbn [data_ buffer_ size_ base off].
    by apply HQp.
Qed.

Lemma outcome_Erase this l cap buf i vs h w tr (Q : ptr → state T W → Prop) E :
  holds (mkState vs h w tr) this l cap buf → i < length l →
  (∀ a x w', buf = Some a → l !! i = Some x →
     Q (Ptr (Some a) i)
       (mkState (<[this := mkVector (mkRawMemory (Some a) cap) (length l - 1)]> vs)
          (<[a := slots (take i l ++ drop (S i) l) cap]> h) w'
          (tr ++ (OpMoveAssign <$> drop (S i) l) ++
             [OpDestroy (vacated x (last (drop (S i) l)))]))) →
  ((∃ y w0, y ∈ drop (S i) l ∧ raises (OpMoveAssign y) w0 = true) → ∀ s', E s') →
  outcome (Erase this (Ptr buf i)) (mkState vs h w tr) Q E.
Proof.
  intros (Hv & Hle & Hbuf) Hi HQ HE. simpl in Hv, Hbuf.
  destruct buf as [a|]; [|lia].
  destruct (split_at l i) as (pl & sl & Hl & Hpl & Htake & Hdrop); [lia|].
  destruct sl as [|x sl]; [rewrite app_nil_r in Hl; subst; lia|].
  assert (drop (S i) l = sl) as Hdrop'.
  { subst l. rewrite (cons_middle x pl sl), app_assoc.
    apply drop_app_length'. rewrite length_app. simpl. lia. }
  assert (l !! i = Some x) as Hx by (subst l; by apply lookup_middle).
  assert (length l = i + S (length sl)) as Hlen
    by (subst l; rewrite length_app; simpl; lia).
  specialize (HQ a x). rewrite Htake, Hdrop' in *. clear Htake Hdrop Hdrop'.
  assert (slots l cap = (Some <$> pl) ++ Some x :: (Some <$> sl)
                          ++ replicate (cap - length l) None) as Hold.
  { unfold slots. rewrite Hl at 1. by rewrite fmap_app, fmap_cons, <- app_assoc. }
  rewrite Hold in Hbuf.
  unfold Erase.
  eapply outcome_bind_eq; [by apply begin_eq|]. cbn [data_ buffer_].
  eapply outcome_bind_eq; [apply ptr_diff_eq; lia|]. rewrite Nat.sub_0_r.
  eapply outcome_bind_eq; [by apply end_eq|]. cbn [data_ buffer_ size_].
  unfold ptr_add. cbn [base off]. rewrite !Nat.add_0_l.
  apply outcome_bind. unfold std_move.
  eapply outcome_bind_eq; [apply ptr_diff_eq; lia|].
  replace (length l - (i + 1)) with (length sl) by lia.
  eapply (outcome_move_n a i (Some <$> pl) x sl); [by rewrite length_fmap|done| |done].
  intros w'.
  eapply outcome_bind_eq; [by apply get_vec_eq|]. cbn [data_ buffer_ size_].
  unfold GetAddress. cbn [buffer_ base off]. rewrite !Nat.add_0_l.
  eapply outcome_bind_eq; [apply ptr_sub_eq; lia|].
  eapply outcome_bind_eq.
  { eapply (destroy_n_eq a _ 1 ((Some <$> pl) ++ (Some <$> sl))
              [vacated x (last sl)] (replicate (cap - length l) None));
      [rewrite length_app, !length_fmap; lia|done|].
    rewrite lookup_insert_eq. by rewrite <- app_assoc. }
  eapply outcome_bind_eq; [apply size_sub_eq; lia|].
  eapply outcome_bind_eq; [by apply set_size_eq|].
  eapply outcome_bind_eq; [apply begin_eq, lookup_insert_eq|].
  apply outcome_ret. cbn [data_ buffer_ size_ base off]. rewrite Nat.add_0_l.
  eapply state_eq; [by apply (HQ w')| |by rewrite <- app_assoc].
  rewrite insert_insert_eq. f_equal. unfold slots.
  rewrite fmap_app, <- !app_assoc. simpl. do 2 f_equal.
  rewrite <- replicate_S. f_equal. rewrite length_app. lia.
Qed.

Lemma bind_same {A} (m : M T W A) (f : A → M T W A) s :
  outcome m s (λ a s', f a s' = Normal a s') (λ _, True) ∨ m s = Undefined →
  (m ≫= f) s = m s.
Proof.
  unfold outcome, mbind, M_bind. intros [Hm|Hm]; [|by rewrite Hm].
  by destruct (m s).
Qed.

(** [EmplaceBack] is [Emplace] at [end()]: same effect, and the reference it
    returns designates the slot the iterator of [Emplace] points to. *)
Lemma EmplaceBack_Emplace this l cap buf args s :
  holds s this l cap buf →
  EmplaceBack this args s = Emplace this (Ptr buf (length l)) args s.
Proof.
  destruct s as [vs h w tr]. intros Hh.
  pose proof Hh as (Hv & Hle & Hbuf). simpl in Hv, Hbuf.
  unfold EmplaceBack. unfold mbind at 1 2, M_bind at 1 2.
  rewrite (begin_eq this _ vs h w tr Hv), (get_vec_eq this _ vs h w tr Hv).
  unfold ptr_add. cbn [data_ buffer_ size_ base off]. rewrite Nat.add_0_l.
  apply bind_same. left.
  eapply outcome_Emplace; try done.
  - intros Hcap b w' Hb. unfold mbind, M_bind.
    rewrite (get_vec_eq this _ _ _ _ _ (lookup_insert_eq _ _ _)). cbn [size_ data_].
    rewrite size_sub_eq by lia. unfold RawMemory_index. cbn [capacity_].
    rewrite decide_True by (case_decide; lia).
    unfold mret, M_ret, GetAddress, ptr_add. cbn [buffer_ base off].
    do 3 f_equal. lia.
  - intros Hcap a w' tr' ->. unfold mbind, M_bind.
    rewrite (get_vec_eq this _ _ _ _ _ (lookup_insert_eq _ _ _)). cbn [size_ data_].
    rewrite size_sub_eq by lia. unfold RawMemory_index. cbn [capacity_].
    rewrite decide_True by lia.
    unfold mret, M_ret, GetAddress, ptr_add. cbn [buffer_ base off].
    do 3 f_equal. lia.
Qed.

Lemma outcome_Vector_copy other l cap buf vs h w tr (Q : Vector → state T W → Prop) E :
  holds (mkState vs h w tr) other l cap buf →
  (length l = 0 → Q (mkVector (mkRawMemory None 0) 0) (mkState vs h w tr)) →
  (length l ≠ 0 → ∀ b w', h !! b = None →
     Q (mkVector (mkRawMemory (Some b) (length l)) (length l))
       (mkState vs (<[b := slots l (length l)]> h) w'
          (tr ++ OpNew (length l) :: (OpCopyCtor <$> l)))) →
  ((∃ w0, raises (OpNew (length l)) w0 = true) → ∀ w' tr', E (mkState vs h w' tr')) →
  ((∃ x w0, x ∈ l ∧ raises (OpCopyCtor x) w0 = true) → ∀ w' tr', E (mkState vs h w' tr')) →
  outcome (Vector_copy other) (mkState vs h w tr) Q E.
Proof.
  intros (Hv & Hle & Hbuf) HQ0 HQ HEa HEc. simpl in Hv, Hbuf.
  unfold Vector_copy.
  eapply outcome_bind_eq; [by apply get_vec_eq|]. cbn [size_ data_].
  destruct (decide (length l = 0)) as [Hz|Hnz].
  - rewrite Hz. eapply outcome_bind_eq; [apply RawMemory_ctor_zero|].
    eapply outcome_bind_eq; [reflexivity|]. by apply outcome_ret, HQ0.
  - apply outcome_bind, outcome_RawMemory_ctor; [done| |].
    2:{ intros Hr. apply HEa. by exists w. }
    intros b Hb. apply outcome_bind, outcome_on_throw.
    destruct buf as [a|]; [|lia].
    assert (a ≠ b) as Hab by congruence.
    unfold GetAddress. cbn [buffer_].
    eapply (outcome_uninitialized_copy_n a b 0 0 (length l) [] l
              (replicate (cap - length l) None) [] []);
      [done|done|done|done|by rewrite lookup_insert_ne
      |rewrite lookup_insert_eq; simpl; by rewrite app_nil_r| |].
    + intros w'. apply outcome_ret.
      eapply state_eq; [by apply (HQ Hnz b w')| |by rewrite <- app_assoc].
      simpl. unfold slots. rewrite Nat.sub_diag. simpl. by rewrite insert_insert_eq.
    + intros Hr w' tr'. eapply outcome_eq.
      { apply RawMemory_dtor_eq. intros ? [= <-]. rewrite lookup_insert_eq. eauto. }
      eapply state_eq; [by apply (HEc Hr w' tr')| |done]. simpl. heap_eq.
Qed.

Lemma put_vec_eq this v vs h w tr :
  put_vec this v (mkState vs h w tr) = Normal tt (mkState (<[this := v]> vs) h w tr).
Proof. done. Qed.

Lemma Vector_dtor_eq l cap buf vs h w tr :
  length l ≤ cap →
  match buf with None => cap = 0 | Some a => h !! a = Some (slots l cap) end →
  Vector_dtor (mkVector (mkRawMemory buf cap) (length l)) (mkState vs h w tr)
  = Normal tt (mkState vs (release buf h) w (tr ++ (OpDestroy <$> l))).
Proof.
  intros Hle Hbuf. unfold Vector_dtor, mbind, M_bind. cbn [data_ size_].
  unfold GetAddress. cbn [buffer_].
  destruct buf as [a|].
  - rewrite (destroy_n_eq a 0 (length l) [] l (replicate (cap - length l) None))
      by done.
    rewrite (RawMemory_dtor_eq (Some a) cap)
      by (intros ? [= <-]; rewrite lookup_insert_eq; eauto).
    simpl. by rewrite delete_insert_eq.
  - assert (l = []) as -> by (apply nil_length_inv; lia).
    simpl. by rewrite app_nil_r.
Qed.

(** Copy assignment, source longer than the capacity of the destination. *)
Lemma outcome_assign_copy_realloc this rhs lt capt buft lr capr bufr vs h w tr
    (Q : unit → state T W → Prop) E :
  this ≠ rhs →
  holds (mkState vs h w tr) this lt capt buft →
  holds (mkState vs h w tr) rhs lr capr bufr →
  capt < length lr →
  (∀ b w', h !! b = None →
     Q tt (mkState
             (<[this := mkVector (mkRawMemory (Some b) (length lr)) (length lr)]> vs)
             (<[b := slots lr (length lr)]> (release buft h)) w'
             (tr ++ OpNew (length lr) :: (OpCopyCtor <$> lr) ++ (OpDestroy <$> lt)))) →
  ((∃ w0, raises (OpNew (length lr)) w0 = true) → ∀ w' tr', E (mkState vs h w' tr')) →
  ((∃ x w0, x ∈ lr ∧ raises (OpCopyCtor x) w0 = true) →
   ∀ w' tr', E (mkState vs h w' tr')) →
  outcome (assign_copy this rhs) (mkState vs h w tr) Q E.
Proof.
  intros Hne Ht Hr Hlt HQ HEa HEc.
  pose proof Ht as (Hvt & Hlet & Hbt). pose proof Hr as (Hvr & Hler & Hbr).
  simpl in Hvt, Hvr, Hbt, Hbr.
  unfold assign_copy. rewrite decide_True by done.
  eapply outcome_bind_eq; [by apply get_vec_eq|].
  eapply outcome_bind_eq; [by apply get_vec_eq|].
  cbn [size_ data_ RawMemory_Capacity capacity_]. rewrite decide_True by done.
  apply outcome_bind.
  eapply outcome_Vector_copy; [done|lia| |done|done].
  intros _ b w' Hb.
  eapply outcome_bind_eq; [apply put_vec_eq|].
  eapply outcome_eq.
  { apply Vector_dtor_eq; [done|]. destruct buft as [a|]; [|done].
    rewrite lookup_insert_ne; [done|congruence]. }
  eapply state_eq; [by apply (HQ b w')| |by rewrite <- app_assoc].
  destruct buft as [a|]; [|done]. simpl.
  assert (a ≠ b) by congruence. heap_eq.
Qed.

Lemma outcome_Resize this l cap buf n vs h w tr (Q : unit → state T W → Prop) E :
  holds (mkState vs h w tr) this l cap buf →
  (n ≤ length l →
     Q tt (mkState (<[this := mkVector (mkRawMemory buf cap) n]> vs)
             (with_block buf (slots (take n l) cap) h) w
             (tr ++ (OpDestroy <$> drop n l)))) →
  (length l < n → n ≤ cap → ∀ w',
     Q tt (mkState (<[this := mkVector (mkRawMemory buf cap) n]> vs)
             (with_block buf (slots (l ++ replicate (n - length l) value_init) cap) h) w'
             (tr ++ replicate (n - length l) OpValueInit))) →
  (cap < n → ∀ b w', h !! b = None →
     Q tt (mkState (<[this := mkVector (mkRawMemory (Some b) n) n]> vs)
             (<[b := slots (l ++ replicate (n - length l) value_init) n]> (release buf h)) w'
             (tr ++ OpNew n :: (relocate_op <$> l) ++
                (OpDestroy <$> (relocated_from <$> l)) ++
                replicate (n - length l) OpValueInit))) →
  ((∃ o w0, raises o w0 = true) → ∀ s', E s') →
  outcome (Resize this n) (mkState vs h w tr) Q E.
Proof.
  intros Hh HQs HQg HQr HE.
  pose proof Hh as (Hv & Hle & Hbuf). simpl in Hv, Hbuf.
  unfold Resize.
  eapply outcome_bind_eq; [by apply get_vec_eq|]. cbn [size_ data_].
  unfold GetAddress, ptr_add. cbn [buffer_ base off]. rewrite Nat.add_0_l.
  destruct (decide (n < length l)) as [Hlt|Hge].
  - (* shrink *)
    rewrite (decide_False (P := length l < n)) by lia.
    destruct buf as [a|]; [|lia].
    destruct (split_at l n) as (pl & sl & Hl & Hpl & Htake & Hdrop); [lia|].
    rewrite Htake, Hdrop in *.
    eapply outcome_bind_eq.
    { eapply (destroy_n_eq a n (length l - n) (Some <$> pl) sl
                (replicate (cap - length l) None));
        [by rewrite length_fmap|subst l; rewrite length_app; lia|].
      rewrite Hbuf. unfold slots. subst l. by rewrite fmap_app, <- app_assoc. }
    eapply outcome_bind_eq; [reflexivity|].
    eapply outcome_eq; [by apply set_size_eq|].
    eapply state_eq; [apply HQs; lia| |done]. simpl. f_equal.
    unfold slots. f_equal. rewrite <- replicate_add. f_equal.
    subst l. rewrite length_app in *. lia.
  - eapply outcome_bind_eq; [reflexivity|].
    destruct (decide (length l < n)) as [Hgt|Heq].
    + (* grow *)
      apply outcome_bind.
      eapply outcome_bind_eq; [by apply Capacity_eq|]. cbn [data_ capacity_].
      destruct (decide (cap < n)) as [Hre|Hfit].
      * apply outcome_bind.
        eapply outcome_Reserve; [done|lia| | | |].
        2:{ intros _ [w0 Hr] ??. apply HE. eauto. }
        2:{ intros _ _ (x & w0 & _ & Hr) ??. apply HE. eauto. }
        2:{ intros _ _ (x & w0 & _ & Hr) ????. apply HE. eauto. }
        intros _ b w' Hb.
        eapply outcome_bind_eq; [apply get_vec_eq, lookup_insert_eq|].
        cbn [size_ data_ buffer_]. unfold GetAddress, ptr_add. cbn [buffer_ base off].
        rewrite Nat.add_0_l.
        eapply (outcome_uninitialized_value_construct_n b _ _ (Some <$> l) []);
          [by rewrite length_fmap
          |rewrite lookup_insert_eq; unfold slots; by rewrite app_nil_r| |].
        2:{ intros [w0 Hr] ??. apply HE. eauto. }
        intros w''. eapply outcome_eq; [apply set_size_eq, lookup_insert_eq|].
        cbn [data_]. rewrite insert_insert_eq.
        eapply state_eq; [by apply (HQr Hre b w'')| |].
        -- rewrite !insert_insert_eq. f_equal. unfold slots.
           rewrite fmap_app, length_app, length_replicate, <- app_assoc.
           replace (n - (length l + (n - length l))) with 0 by lia. done.
        -- rewrite <- !app_assoc. simpl. by rewrite <- app_assoc.
      * eapply outcome_bind_eq; [reflexivity|].
        eapply outcome_bind_eq; [by apply get_vec_eq|].
        cbn [size_ data_ buffer_]. unfold GetAddress, ptr_add. cbn [buffer_ base off].
        rewrite Nat.add_0_l.
        destruct buf as [a|]; [|lia].
        eapply (outcome_uninitialized_value_construct_n a _ _ (Some <$> l)
                  (replicate (cap - n) None));
          [by rewrite length_fmap| | |].
        { rewrite Hbuf. unfold slots. rewrite <- replicate_add. do 3 f_equal. lia. }
        2:{ intros [w0 Hr] ??. apply HE. eauto. }
        intros w'. eapply outcome_eq; [by apply set_size_eq|].
        eapply state_eq; [apply (HQg Hgt ltac:(lia) w')| |done].
        simpl. f_equal. unfold slots.
        rewrite fmap_app, length_app, length_replicate, <- app_assoc.
        do 3 f_equal. lia.
    + (* same size *)
      assert (n = length l) as -> by lia.
      eapply outcome_bind_eq; [reflexivity|].
      eapply outcome_eq; [by apply set_size_eq|].
      eapply state_eq; [apply HQs; lia| |].
      * rewrite take_ge by done. destruct buf as [a|]; [|done]. simpl.
        by rewrite insert_id.
      * rewrite drop_ge by done. simpl. by rewrite app_nil_r.
Qed.

Lemma outcome_copy_assign a b i j sblk dblk x y vs h w tr (Q : unit → state T W → Prop) E :
  h !! a = Some sblk → sblk !! i = Some (Some x) →
  h !! b = Some dblk → dblk !! j = Some (Some y) →
  (raises (OpCopyAssign x) w = false →
   Q tt (mkState vs (<[b := <[j := Some x]> dblk]> h) (advance (OpCopyAssign x) w)
           (tr ++ [OpCopyAssign x]))) →
  (raises (OpCopyAssign x) w = true →
   E (mkState vs h (advance (OpCopyAssign x) w) (tr ++ [OpCopyAssign x]))) →
  outcome (copy_assign (Ptr (Some b) j) (Ptr (Some a) i)) (mkState vs h w tr) Q E.
Proof.
  intros Ha Hi Hb Hj HQ HE. unfold copy_assign.
  eapply outcome_bind_eq; [by eapply deref_eq|].
  eapply outcome_bind_eq; [by eapply deref_eq|].
  apply outcome_bind, outcome_fault; [|done].
  intros Hr. eapply outcome_eq; [by eapply assign_at_eq|]. auto.
Qed.

Lemma outcome_copy_n a b i j spre xs spost dpre ys dpost vs h w tr
    (Q : unit → state T W → Prop) E :
  a ≠ b → i = length spre → j = length dpre → length ys = length xs →
  h !! a = Some (spre ++ (Some <$> xs) ++ spost) →
  h !! b = Some (dpre ++ (Some <$> ys) ++ dpost) →
  (∀ w', Q tt (mkState vs (<[b := dpre ++ (Some <$> xs) ++ dpost]> h) w'
                 (tr ++ (OpCopyAssign <$> xs)))) →
  ((∃ x w0, x ∈ xs ∧ raises (OpCopyAssign x) w0 = true) →
   ∀ zs w' tr', length zs = length xs →
     E (mkState vs (<[b := dpre ++ (Some <$> zs) ++ dpost]> h) w' tr')) →
  outcome (copy_n (Ptr (Some a) i) (length xs) (Ptr (Some b) j)) (mkState vs h w tr) Q E.
Proof.
  intros Hab. revert i j spre dpre ys h w tr.
  induction xs as [|x xs IH]; intros i j spre dpre ys h w tr Hi Hj Hlen Ha Hb HQ HE.
  - destruct ys; [|done]. apply outcome_ret.
    eapply state_eq; [apply (HQ w)| |by rewrite app_nil_r]. by rewrite insert_id.
  - destruct ys as [|y ys]; [done|]. simpl in Hlen.
    rewrite fmap_cons in Ha, Hb. rewrite <- app_comm_cons in Ha, Hb.
    rewrite length_cons. cbn [copy_n].
    apply outcome_bind.
    eapply outcome_copy_assign; [done|by apply lookup_middle|done|by apply lookup_middle| |].
    + intros _. rewrite insert_middle by done. unfold ptr_add. cbn [base off].
      eapply (IH _ _ (spre ++ [Some x]) (dpre ++ [Some x]) ys).
      * rewrite length_app. simpl. lia.
      * rewrite length_app. simpl. lia.
      * lia.
      * rewrite lookup_insert_ne by done. by rewrite <- app_assoc.
      * rewrite lookup_insert_eq. by rewrite <- app_assoc.
      * intros w'. eapply state_eq; [apply (HQ w')| |by rewrite <- app_assoc].
        rewrite insert_insert_eq, fmap_cons. by rewrite <- !app_assoc.
      * intros (z & w0 & Hz & Hr) zs w' tr' Hzs.
        eapply state_eq;
          [apply (HE (ltac:(exists z, w0; split; [by right|done])) (x :: zs) w' tr')
          | |done].
        -- simpl. lia.
        -- rewrite insert_insert_eq, fmap_cons. by rewrite <- !app_assoc.
    + intros Hr.
      eapply state_eq;
        [apply (HE (ltac:(exists x, w; split; [by left|done])) (y :: ys) _ _)| |done].
      * simpl. lia.
      * rewrite fmap_cons. by rewrite insert_id.
Qed.

Lemma copy_n_zero p q s : copy_n p 0 q s = Normal tt s.
Proof. done. Qed.

Lemma outcome_PopBack this l cap buf vs h w tr (Q : unit → state T W → Prop) E :
  holds (mkState vs h w tr) this l cap buf → l ≠ [] →
  (∀ a x xs, buf = Some a → l = xs ++ [x] →
     Q tt (mkState (<[this := mkVector (mkRawMemory buf cap) (length l - 1)]> vs)
             (<[a := slots xs cap]> h) w (tr ++ [OpDestroy x]))) →
  outcome (PopBack this) (mkState vs h w tr) Q E.
Proof.
  intros (Hv & Hle & Hbuf) Hne HQ. simpl in Hv, Hbuf.
  destruct l as [|x xs _] using rev_ind; [done|].
  rewrite length_app in *. simpl in *.
  destruct buf as [a|]; [|lia].
  unfold PopBack.
  eapply outcome_bind_eq; [by apply get_vec_eq|]. cbn [size_ data_].
  eapply outcome_bind_eq; [apply size_sub_eq; lia|].
  eapply outcome_bind_eq; [by apply set_size_eq|]. cbn [data_].
  unfold GetAddress, ptr_add. cbn [buffer_ base off]. rewrite Nat.add_0_l.
  eapply outcome_eq.
  { eapply (destroy_at_eq a _ _ x); [done|].
    unfold slots. rewrite fmap_app, <- app_assoc. apply lookup_middle.
    rewrite length_fmap. lia. }
  eapply state_eq; [by apply (HQ a x xs)| |done].
  f_equal. unfold slots. rewrite fmap_app, <- app_assoc. simpl.
  rewrite insert_middle by (rewrite length_fmap; lia).
  rewrite length_app. simpl.
  replace (cap - length xs) with (S (cap - (length xs + 1))) by lia. done.
Qed.

(** Copy assignment, source no longer than the capacity of the destination:
    the slots of the destination are reused. *)
Lemma outcome_assign_copy_in_place this rhs lt capt buft lr capr bufr vs h w tr
    (Q : unit → state T W → Prop) E :
  this ≠ rhs →
  holds (mkState vs h w tr) this lt capt buft →
  holds (mkState vs h w tr) rhs lr capr bufr →
  length lr ≤ capt →
  (∀ a, buft = Some a → bufr ≠ Some a) →
  (∀ w' tr',
     Q tt (mkState (<[this := mkVector (mkRawMemory buft capt) (length lr)]> vs)
             (with_block buft (slots lr capt) h) w' tr')) →
  ((∃ o w0, raises o w0 = true) → ∀ s', E s') →
  outcome (assign_copy this rhs) (mkState vs h w tr) Q E.
Proof.
  intros Hne Ht Hr Hfit Hdis HQ HE.
  pose proof Ht as (Hvt & Hlet & Hbt). pose proof Hr as (Hvr & Hler & Hbr).
  simpl in Hvt, Hvr, Hbt, Hbr.
  unfold assign_copy. rewrite decide_True by done.
  eapply outcome_bind_eq; [by apply get_vec_eq|].
  eapply outcome_bind_eq; [by apply get_vec_eq|].
  cbn [size_ data_ RawMemory_Capacity capacity_]. rewrite decide_False by lia.
  cbv zeta. unfold GetAddress, ptr_add. cbn [buffer_ base off]. rewrite !Nat.add_0_l.
  destruct (decide (length lr ≤ length lt)) as [Hshort|Hlong].
  - (* the source is not longer: assign, then destroy the excess *)
    rewrite Nat.min_l by done. rewrite Nat.sub_diag.
    destruct (split_at lt (length lr) Hshort) as (pt & st & Hl & Hpt & Htake & Hdrop).
    assert (length lt - length lr = length st) as Hst
      by (subst lt; rewrite length_app; lia).
    apply outcome_bind.
    assert (∀ w1 tr1 h1,
      (match buft with
       | None => h1 = h
       | Some a => h1 = <[a := (Some <$> lr) ++ (Some <$> st)
                              ++ replicate (capt - length lt) None]> h
       end) →
      outcome
        (uninitialized_copy_n (Ptr bufr (length lr)) 0 (Ptr buft (length lr));;
         (if decide (length lr < length lt)
          then destroy_n (Ptr buft (length lr)) (length lt - length lr)
          else mret tt);;
         set_size this (length lr)) (mkState vs h1 w1 tr1) Q E) as Hrest.
    { intros w1 tr1 h1 Hh1.
      eapply outcome_bind_eq; [apply uninitialized_loop_zero|].
      destruct buft as [a|].
      - subst h1. rewrite Hst.
        eapply outcome_bind_eq.
        { instantiate (1 := mkState vs
            (<[a := (Some <$> lr) ++ replicate (length st) None
                      ++ replicate (capt - length lt) None]> h) w1
            (tr1 ++ (OpDestroy <$> st))).
          instantiate (1 := tt).
          case_decide.
          - rewrite (destroy_n_eq a (length lr) (length st) (Some <$> lr) st
                       (replicate (capt - length lt) None))
              by (rewrite ?length_fmap, ?lookup_insert_eq; done).
            by rewrite insert_insert_eq.
          - assert (st = []) as -> by (apply nil_length_inv; lia).
            simpl. by rewrite app_nil_r. }
        eapply outcome_eq; [by apply set_size_eq|].
        eapply state_eq; [apply HQ| |done]. simpl. f_equal.
        unfold slots. rewrite <- replicate_add. do 2 f_equal. lia.
      - subst h1. assert (lt = []) as -> by (apply nil_length_inv; lia).
        assert (lr = []) as -> by (apply nil_length_inv; simpl in *; lia).
        eapply outcome_bind_eq; [reflexivity|].
        eapply outcome_eq; [by apply set_size_eq|]. apply HQ. }
    destruct bufr as [ar|].
    + destruct buft as [at_|].
      * assert (ar ≠ at_) as Hab by (intros ->; by eapply Hdis).
        eapply (outcome_copy_n ar at_ 0 0 [] lr (replicate (capr - length lr) None)
                  [] pt ((Some <$> st) ++ replicate (capt - length lt) None));
          [done|done|done|done|done| | |].
        { rewrite Hbt. unfold slots. subst lt. by rewrite fmap_app, <- app_assoc. }
        { intros w'. by apply Hrest. }
        { intros (x & w0 & _ & Hx) ????. apply HE. eauto. }
      * assert (lr = []) as -> by (apply nil_length_inv; lia).
        eapply outcome_eq; [apply copy_n_zero|]. by apply Hrest.
    + assert (lr = []) as -> by (apply nil_length_inv; lia).
      eapply outcome_eq; [apply copy_n_zero|]. apply Hrest.
      destruct buft as [a|]; [|done].
      simpl in *. destruct pt; [|done]. simpl in Hl. subst st.
      by rewrite insert_id.
  - (* the source is longer: assign the common prefix, construct the rest *)
    apply Nat.nle_gt in Hlong. rewrite Nat.min_r by lia.
    destruct buft as [at_|]; [|lia]. destruct bufr as [ar|]; [|lia].
    assert (ar ≠ at_) as Hab by (intros ->; by eapply Hdis).
    destruct (split_at lr (length lt)) as (pr & sr & Hl & Hpr & Htake & Hdrop); [lia|].
    assert (length lr - length lt = length sr) as Hsr
      by (subst lr; rewrite length_app; lia).
    assert (slots lr capr = (Some <$> pr) ++ (Some <$> sr)
                              ++ replicate (capr - length lr) None) as Hsrc.
    { unfold slots. subst lr. by rewrite fmap_app, <- app_assoc. }
    rewrite Hsrc in Hbr.
    apply outcome_bind. rewrite <- Hpr.
    eapply (outcome_copy_n ar at_ 0 0 [] pr
              ((Some <$> sr) ++ replicate (capr - length lr) None)
              [] lt (replicate (capt - length lt) None));
      [done|done|done|done|done|done| |].
    2:{ intros (x & w0 & _ & Hx) ????. apply HE. eauto. }
    intros w'. rewrite Hpr, Hsr.
    apply outcome_bind.
    eapply (outcome_uninitialized_copy_n ar at_ _ _ (length sr) (Some <$> pr) sr
              (replicate (capr - length lr) None)
              (Some <$> pr) (replicate (capt - length lr) None));
      [done|by rewrite length_fmap|by rewrite length_fmap|done
      |by rewrite lookup_insert_ne| | |].
    { rewrite lookup_insert_eq. simpl. rewrite <- replicate_add.
      do 3 f_equal. lia. }
    2:{ intros (x & w0 & _ & Hx) ??. apply HE. eauto. }
    intros w''. rewrite decide_False by lia.
    eapply outcome_bind_eq; [reflexivity|].
    eapply outcome_eq; [by apply set_size_eq|].
    eapply state_eq; [apply HQ| |done]. simpl. rewrite insert_insert_eq. f_equal.
    unfold slots. subst lr. by rewrite fmap_app, <- app_assoc.
Qed.

End rules.

(** * Properties of the member functions *)

Section properties.
Context {T W : Type} `{!Element T W}.
Implicit Types (s : state T W) (vs : gmap loc Vector) (h : gmap addr (list (option T))).
Implicit Types (w : W) (tr : list (op T)) (xs ys l : list T) (x y : T).

(** ** Reading outcomes *)

Lemma outcome_normal {A} (m : M T W A) s a s' (Q : A → state T W → Prop) E :
  outcome m s Q E → m s = Normal a s' → Q a s'.
Proof. unfold outcome. intros H Hm. by rewrite Hm in H. Qed.

Lemma outcome_throws {A} (m : M T W A) s s' (Q : A → state T W → Prop) E :
  outcome m s Q E → m s = Throws s' → E s'.
Proof. unfold outcome. intros H Hm. by rewrite Hm in H. Qed.

Lemma outcome_defined {A} (m : M T W A) s (Q : A → state T W → Prop) E :
  outcome m s Q E → m s ≠ Undefined.
Proof. unfold outcome. by destruct (m s). Qed.

Lemma raises_not_quiet (o : op T) w : raises o w = true → ¬ no_faults.
Proof. intros Hr Hn. by rewrite Hn in Hr. Qed.

Lemma slots_lookup l cap i x : l !! i = Some x → slots l cap !! i = Some (Some x).
Proof.
  intros Hi. unfold slots. apply lookup_app_l_Some. by rewrite list_lookup_fmap, Hi.
Qed.

Lemma slots_lookup_raw l cap i : length l ≤ i → i < cap → slots l cap !! i = Some None.
Proof.
  intros Hi Hc. unfold slots. rewrite lookup_app_r by (by rewrite length_fmap).
  apply lookup_replicate_2. rewrite length_fmap. lia.
Qed.

Lemma inserted_length l i x : length (take i l ++ x :: drop i l) = length l + 1.
Proof.
  rewrite length_app, length_cons, length_take, length_drop. lia.
Qed.

Lemma inserted_lookup l i x : i ≤ length l → (take i l ++ x :: drop i l) !! i = Some x.
Proof. intros. apply lookup_middle. by rewrite length_take_le. Qed.

Lemma erased_length l i : i < length l → length (take i l ++ drop (S i) l) = length l - 1.
Proof. intros. rewrite length_app, length_take, length_drop. lia. Qed.

Lemma erased_lookup l i : i < length l → (take i l ++ drop (S i) l) !! i = l !! S i.
Proof.
  intros. rewrite lookup_app_r by (rewrite length_take; lia).
  rewrite length_take_le, Nat.sub_diag, lookup_drop by lia. f_equal. lia.
Qed.

Lemma growth_max n : (if decide (n = 0) then 1 else n * 2) = 1 `max` (2 * n).
Proof. case_decide; lia. Qed.

(** The insertion step of [Emplace] and what follows it. *)
Lemma Emplace_steps this l cap buf i args s :
  holds s this l cap buf → i ≤ length l →
  Emplace this (Ptr buf i) args s
  = ((if decide (length l = cap ∨ i = cap)
      then InsertWithReallocate this i args
      else InsertInPlace this i args);;
     incr_size this;;
     b' ← begin this; mret (b' +ₚ i)) s.
Proof.
  destruct s as [vs h w tr]. intros (Hv & _ & _) Hi. simpl in Hv.
  unfold Emplace. unfold mbind at 1 2 3 4, M_bind at 1 2 3 4.
  rewrite (begin_eq this _ _ _ _ _ Hv). cbn [data_ buffer_].
  rewrite ptr_diff_eq by lia. rewrite Nat.sub_0_r.
  rewrite (get_vec_eq this _ _ _ _ _ Hv), (Capacity_eq this _ _ _ _ _ Hv).
  done.
Qed.

(** After the insertion step alone the elements are in place and the length
    is still the old one. *)
Lemma insertion_step this l cap buf i args s :
  holds s this l cap buf → i ≤ length l →
  outcome (if decide (length l = cap ∨ i = cap)
           then InsertWithReallocate this i args
           else InsertInPlace this i args) s
    (λ _ s_mid, ∃ cap' a,
       vecs s_mid !! this = Some (mkVector (mkRawMemory (Some a) cap') (length l)) ∧
       length l < cap' ∧
       heap s_mid !! a = Some (slots (take i l ++ value_of args :: drop i l) cap'))
    (λ _, True).
Proof.
  destruct s as [vs h w tr]. intros Hh Hi.
  pose proof Hh as (Hv & Hle & Hbuf). simpl in Hv, Hbuf.
  case_decide as Hfull.
  - eapply outcome_InsertWithReallocate; try done.
    intros b w' Hb. eexists _, b. simpl.
    rewrite !lookup_insert_eq. split_and!; [done| |done]. case_decide; lia.
  - destruct buf as [a|]; [|lia].
    eapply outcome_InsertInPlace; try done; [lia|].
    intros w' tr'. exists cap, a. simpl.
    rewrite lookup_insert_eq. split_and!; [done|lia|done].
Qed.

Lemma Emplace_quiet this l cap buf i args s :
  holds s this l cap buf → i ≤ length l →
  outcome (Emplace this (Ptr buf i) args) s (λ _ _, True) (λ _, ¬ no_faults).
Proof.
  destruct s as [vs h w tr]. intros Hh Hi.
  eapply (outcome_Emplace this l cap buf i args); try done.
  - intros _ [w0 Hr] ??. by eapply raises_not_quiet.
  - intros _ [w0 Hr] ??. by eapply raises_not_quiet.
  - intros _ _ (x & w0 & _ & Hr) ??. by eapply raises_not_quiet.
  - intros _ _ (x & w0 & _ & Hr) ??. by eapply raises_not_quiet.
  - intros _ _ (x & w0 & _ & Hr) ????. by eapply raises_not_quiet.
  - intros _ (o & w0 & Hr) ?. by eapply raises_not_quiet.
Qed.

Lemma returns_intro {A} (m : M T W A) s (Q : A → state T W → Prop) :
  outcome m s (λ _ _, True) (λ _, ¬ no_faults) →
  (∀ a s', m s = Normal a s' → Q a s') →
  returns m s Q.
Proof.
  intros Hm HQ. apply outcome_returns.
  unfold outcome in *. destruct (m s); auto.
Qed.

(** C2. [Emplace] (and [Insert], which forwards to it) at a valid position
    [i] of a vector holding [l] returns normally unless an operation raises;
    afterwards the vector holds the prefix [take i l], then the new value,
    then the suffix [drop i l], and its length is [length l + 1].  The
    insertion step leaves the length at [length l] with every element
    already in its final slot; [++size_] is the only change after it. *)
Theorem Emplace_inserts this l cap buf i args s :
  holds s this l cap buf → i ≤ length l →
  let inserted (s' : state T W) :=
    ∃ cap' buf' s_mid,
      holds s' this (take i l ++ value_of args :: drop i l) cap' buf' ∧
      size_ <$> vecs s' !! this = Some (length l + 1) ∧
      (if decide (length l = cap ∨ i = cap)
       then InsertWithReallocate this i args
       else InsertInPlace this i args) s = Normal tt s_mid ∧
      size_ <$> vecs s_mid !! this = Some (length l) ∧
      heap s_mid = heap s' ∧
      incr_size this s_mid = Normal tt s' in
  returns (Emplace this (Ptr buf i) args) s (λ _ s', inserted s') ∧
  returns (Insert this (Ptr buf i) args) s (λ _ s', inserted s').
Proof.
  intros Hh Hi inserted.
  assert (returns (Emplace this (Ptr buf i) args) s (λ _ s', inserted s')); [|done].
  apply returns_intro; [by apply (Emplace_quiet this l cap)|].
  intros it s'. rewrite (Emplace_steps this l cap buf) by done.
  pose proof (insertion_step this l cap buf i args s Hh Hi) as Hstep.
  unfold mbind at 1, M_bind at 1. unfold outcome in Hstep.
  destruct ((if decide (length l = cap ∨ i = cap)
             then InsertWithReallocate this i args
             else InsertInPlace this i args) s) as [[] s_mid| |]; try done.
  destruct Hstep as (cap' & a & Hv & Hlt & Ha).
  destruct s_mid as [vm hm wm trm]. simpl in Hv, Ha.
  unfold mbind, M_bind.
  rewrite (incr_size_eq this _ _ _ _ _ Hv).
  rewrite (begin_eq this _ _ _ _ _ (lookup_insert_eq _ _ _)).
  intros [= <- <-].
  exists cap', (Some a), (mkState vm hm wm trm). simpl.
  rewrite Hv, lookup_insert_eq. simpl.
  split_and!; try done.
  - unfold holds. simpl. rewrite lookup_insert_eq, inserted_length.
    split_and!; [done|lia|done].
  - by rewrite (incr_size_eq this _ _ _ _ _ Hv).
Qed.

(** C3. [Erase] at a valid position [i] of a non-empty vector holding [l]
    returns normally unless a move assignment raises; afterwards the vector
    holds [take i l ++ drop (S i) l], its length is [length l - 1], and its
    buffer and capacity are the ones it had: no block is allocated or
    released. *)
Theorem Erase_removes this l cap buf i s :
  holds s this l cap buf → i < length l →
  returns (Erase this (Ptr buf i)) s (λ _ s',
    holds s' this (take i l ++ drop (S i) l) cap buf ∧
    vecs s' !! this = Some (mkVector (mkRawMemory buf cap) (length l - 1)) ∧
    dom (heap s') = dom (heap s) ∧
    trace s' = trace s ++ (OpMoveAssign <$> drop (S i) l) ++
                 [OpDestroy (vacated (default value_init (l !! i)) (last (drop (S i) l)))]).
Proof.
  destruct s as [vs h w tr]. intros Hh Hi. apply outcome_returns.
  pose proof Hh as (Hv & Hle & Hbuf). simpl in Hv, Hbuf.
  eapply outcome_Erase; try done.
  - intros a x w' -> Hx. simpl in Hbuf. rewrite Hx. simpl.
    rewrite lookup_insert_eq. split_and!; try done.
    + unfold holds. simpl. rewrite !lookup_insert_eq, erased_length by done.
      split_and!; [done|lia|done].
    + rewrite dom_insert_L. apply subseteq_union_1_L, singleton_subseteq_l.
      by eapply elem_of_dom_2.
  - intros (y & w0 & _ & Hr) ?. by eapply raises_not_quiet.
Qed.

Lemma not_new_fmap (f : T → op T) xs n : (∀ x, f x ≠ OpNew n) → OpNew n ∉ (f <$> xs).
Proof. intros Hf [x [Hx _]]%list_elem_of_fmap. by eapply Hf. Qed.

(** C4. When the storage is full, [Emplace] at any valid position, and so
    [EmplaceBack] and [PushBack], allocate one new block, of
    [max 1 (2 * length l)] slots, and this becomes the capacity. *)
Theorem growth_doubles this l cap buf i args s :
  holds s this l cap buf → length l = cap → i ≤ length l →
  let grown (s' : state T W) :=
    let c := 1 `max` (2 * length l) in
    ∃ b blk tr',
      vecs s' !! this = Some (mkVector (mkRawMemory (Some b) c) (length l + 1)) ∧
      heap s !! b = None ∧ heap s' !! b = Some blk ∧ length blk = c ∧
      trace s' = trace s ++ OpNew c :: tr' ∧
      (∀ n, OpNew n ∉ tr') in
  returns (Emplace this (Ptr buf i) args) s (λ _ s', grown s') ∧
  returns (EmplaceBack this args) s (λ _ s', grown s') ∧
  returns (PushBack this args) s (λ _ s', grown s').
Proof.
  destruct s as [vs h w tr]. intros Hh Hfull Hi grown.
  assert (∀ j, j ≤ length l →
    outcome (Emplace this (Ptr buf j) args) (mkState vs h w tr)
      (λ _ s', grown s') (λ _, ¬ no_faults)) as HE.
  { intros j Hj. eapply (outcome_Emplace this l cap buf j args); try done.
    - intros _ b w' Hb. rewrite growth_max. exists b. eexists _, _. simpl.
      rewrite !lookup_insert_eq. split_and!; try done.
      + rewrite slots_length; [done|]. rewrite inserted_length. lia.
      + intros n. rewrite not_elem_of_cons, !not_elem_of_app.
        split_and!; [by destruct args|..]; apply not_new_fmap; intros x;
          unfold relocate_op; by destruct relocate_by_move.
    - lia.
    - intros _ [w0 Hr] ??. by eapply raises_not_quiet.
    - intros _ [w0 Hr] ??. by eapply raises_not_quiet.
    - intros _ _ (x & w0 & _ & Hr) ??. by eapply raises_not_quiet.
    - intros _ _ (x & w0 & _ & Hr) ??. by eapply raises_not_quiet.
    - intros _ _ (x & w0 & _ & Hr) ????. by eapply raises_not_quiet.
    - lia. }
  split_and!; apply outcome_returns.
  - by apply HE.
  - unfold outcome. rewrite (EmplaceBack_Emplace this l cap buf) by done. by apply HE.
  - unfold PushBack. apply outcome_bind.
    unfold outcome at 1. rewrite (EmplaceBack_Emplace this l cap buf) by done.
    eapply outcome_mono; [by apply (HE (length l))| |done]. done.
Qed.


(** C9. The iterator returned by [Emplace] and [Insert] is [begin() + i] in
    the vector as it is after the call and designates the new element.  The
    iterator returned by [Erase] is [begin() + i]; it designates the element
    that followed the erased one when there is one, and is [end()] when the
    erased element was the last.  The reference returned by [EmplaceBack]
    designates the new element, at index [size() - 1]. *)
Theorem returned_positions this l cap buf i args s :
  holds s this l cap buf →
  let at_index (j : nat) (it : ptr) (s' : state T W) :=
    ∃ b, begin this s' = Normal b s' ∧ it = b +ₚ j in
  (i ≤ length l →
   returns (Emplace this (Ptr buf i) args) s (λ it s',
     at_index i it s' ∧ deref it s' = Normal (value_of args) s') ∧
   returns (Insert this (Ptr buf i) args) s (λ it s',
     at_index i it s' ∧ deref it s' = Normal (value_of args) s')) ∧
  (i < length l →
   returns (Erase this (Ptr buf i)) s (λ it s',
     at_index i it s' ∧
     (∀ y, l !! S i = Some y → deref it s' = Normal y s') ∧
     (S i = length l → end_ this s' = Normal it s'))) ∧
  returns (EmplaceBack this args) s (λ r s',
    at_index (length l) r s' ∧
    size_ <$> vecs s' !! this = Some (length l + 1) ∧
    deref r s' = Normal (value_of args) s').
Proof.
  destruct s as [vs h w tr]. intros Hh at_index.
  pose proof Hh as (Hv & Hle & Hbuf). simpl in Hv, Hbuf.
  assert (∀ j, j ≤ length l →
    outcome (Emplace this (Ptr buf j) args) (mkState vs h w tr)
      (λ it s', at_index j it s' ∧
                size_ <$> vecs s' !! this = Some (length l + 1) ∧
                deref it s' = Normal (value_of args) s')
      (λ _, ¬ no_faults)) as HE.
  { intros j Hj. eapply (outcome_Emplace this l cap buf j args); try done.
    - intros _ b w' Hb. split_and!.
      + eexists. split; [apply begin_eq, lookup_insert_eq|done].
      + simpl. by rewrite lookup_insert_eq.
      + eapply deref_eq; [apply lookup_insert_eq|]. by apply slots_lookup, inserted_lookup.
    - intros _ a w' tr' ->. split_and!.
      + eexists. split; [apply begin_eq, lookup_insert_eq|done].
      + simpl. by rewrite lookup_insert_eq.
      + eapply deref_eq; [apply lookup_insert_eq|]. by apply slots_lookup, inserted_lookup.
    - intros _ [w0 Hr] ??. by eapply raises_not_quiet.
    - intros _ [w0 Hr] ??. by eapply raises_not_quiet.
    - intros _ _ (x & w0 & _ & Hr) ??. by eapply raises_not_quiet.
    - intros _ _ (x & w0 & _ & Hr) ??. by eapply raises_not_quiet.
    - intros _ _ (x & w0 & _ & Hr) ????. by eapply raises_not_quiet.
    - intros _ (o & w0 & Hr) ?. by eapply raises_not_quiet. }
  split_and!.
  - intros Hi.
    assert (returns (Emplace this (Ptr buf i) args) (mkState vs h w tr) (λ it s',
              at_index i it s' ∧ deref it s' = Normal (value_of args) s')) as Hret.
    { apply outcome_returns. eapply outcome_mono; [by apply HE| |done].
      by intros ?? (? & _ & ?). }
    by split.
  - intros Hi. apply outcome_returns.
    eapply outcome_Erase; try done.
    + intros a x w' -> Hx. split_and!.
      * eexists. split; [apply begin_eq, lookup_insert_eq|done].
      * intros y Hy. eapply deref_eq; [apply lookup_insert_eq|].
        apply slots_lookup. by rewrite erased_lookup.
      * intros Hlast. rewrite (end_eq this _ _ _ _ _ (lookup_insert_eq _ _ _)).
        simpl. do 3 f_equal. lia.
    + intros (y & w0 & _ & Hr) ?. by eapply raises_not_quiet.
  - apply outcome_returns. unfold outcome.
    rewrite (EmplaceBack_Emplace this l cap buf) by done. by apply HE.
Qed.

(** C10. Assigning a vector to itself, by copy or by move, does nothing:
    the guard [this != &rhs] skips the body. *)
Theorem self_assignment (this : loc) s :
  assign_copy this this s = Normal tt s ∧ assign_move this this s = Normal tt s.
Proof. unfold assign_copy, assign_move. by rewrite !decide_False by naive_solver. Qed.

(** C7. Copy assignment from a source longer than the capacity of the
    destination: the copy is built in a new block first; when that raises,
    the objects and the heap are as before the call; otherwise the
    destination takes the new block, holds the elements of the source with
    capacity equal to their number, and its old elements are destroyed and
    its old block released only after all copies have been made.  The
    source is unchanged. *)
Theorem copy_assignment_reallocating this rhs lt capt buft lr capr bufr s :
  this ≠ rhs →
  holds s this lt capt buft →
  holds s rhs lr capr bufr →
  capt < length lr →
  assign_copy this rhs s ≠ Undefined ∧
  (∀ s', assign_copy this rhs s = Throws s' → vecs s' = vecs s ∧ heap s' = heap s) ∧
  (∀ s', assign_copy this rhs s = Normal tt s' →
     ∃ b, heap s !! b = None ∧
          holds s' this lr (length lr) (Some b) ∧
          holds s' rhs lr capr bufr ∧
          heap s' = <[b := slots lr (length lr)]> (release buft (heap s)) ∧
          trace s' = trace s ++ OpNew (length lr) :: (OpCopyCtor <$> lr)
                       ++ (OpDestroy <$> lt)) ∧
  (no_faults → ∃ s', assign_copy this rhs s = Normal tt s').
Proof.
  destruct s as [vs h w tr]. intros Hne Ht Hr Hlt.
  pose proof Ht as (Hvt & Hlet & Hbt). pose proof Hr as (Hvr & Hler & Hbr).
  simpl in Hvt, Hvr, Hbt, Hbr.
  assert (outcome (assign_copy this rhs) (mkState vs h w tr)
            (λ _ s', ∃ b, h !! b = None ∧
               holds s' this lr (length lr) (Some b) ∧
               holds s' rhs lr capr bufr ∧
               heap s' = <[b := slots lr (length lr)]> (release buft h) ∧
               trace s' = tr ++ OpNew (length lr) :: (OpCopyCtor <$> lr)
                            ++ (OpDestroy <$> lt))
            (λ s', ¬ no_faults ∧ vecs s' = vs ∧ heap s' = h)) as Hout.
  { eapply outcome_assign_copy_realloc; try done.
    - intros b w' Hb. exists b. split_and!; try done.
      + unfold holds. simpl. by rewrite !lookup_insert_eq.
      + unfold holds. simpl. rewrite lookup_insert_ne by done.
        split_and!; [done|done|].
        destruct bufr as [ar|]; [|done].
        rewrite lookup_insert_ne by congruence.
        destruct buft as [at_|]; [|done]. simpl.
        rewrite lookup_delete_ne; [done|]. intros ->.
        assert (length (slots lt capt) = length (slots lr capr)) as Hl by congruence.
        rewrite !slots_length in Hl by done. lia.
    - intros [w0 Hr'] ??. split_and!; [by eapply raises_not_quiet|done|done].
    - intros (x & w0 & _ & Hr') ??. split_and!; [by eapply raises_not_quiet|done|done]. }
  split_and!.
  - by eapply outcome_defined.
  - intros s' Hs'. by destruct (outcome_throws _ _ _ _ _ Hout Hs') as (_ & ? & ?).
  - intros s' Hs'. apply (outcome_normal _ _ _ _ _ _ Hout Hs').
  - intros Hq. unfold outcome in Hout.
    destruct (assign_copy this rhs (mkState vs h w tr)) as [[] s'|s'|]; [eauto| |done].
    by destruct Hout as [? _].
Qed.

Lemma elem_of_drop_list x i l : x ∈ drop i l → x ∈ l.
Proof. intros Hx. rewrite <- (take_drop i l). apply elem_of_app. by right. Qed.

Lemma relocate_by_move_nothrow :
  is_nothrow_move_constructible = true ∨ is_copy_constructible = true →
  relocate_by_move = true → ∀ x w0, raises (OpMoveCtor x) w0 = false.
Proof.
  unfold relocate_by_move. intros [Hn|Hc] Hm; apply nothrow_move; [done|].
  rewrite Hc in Hm. simpl in Hm. by rewrite orb_false_r in Hm.
Qed.

Lemma Reserve_failure this l cap buf n s s' :
  holds s this l cap buf →
  is_nothrow_move_constructible = true ∨ is_copy_constructible = true →
  Reserve this n s = Throws s' → vecs s' = vecs s ∧ heap s' = heap s.
Proof.
  destruct s as [vs h w tr]. intros Hh Hpol Ht.
  eapply (outcome_throws (Reserve this n) _ s' (λ _ _, True)
            (λ s', vecs s' = vs ∧ heap s' = h)); [|exact Ht].
  eapply outcome_Reserve; try done.
  intros _ Hm (x & w0 & _ & Hr).
  by rewrite (relocate_by_move_nothrow Hpol Hm) in Hr.
Qed.

Lemma Emplace_failure this l cap buf i args s s' :
  holds s this l cap buf → length l = cap → i ≤ length l →
  (∀ x w0, x ∈ l → raises (relocate_op x) w0 = false) ∨
  (is_copy_constructible = true ∧ (i = 0 ∨ i = length l)) →
  Emplace this (Ptr buf i) args s = Throws s' → vecs s' = vecs s ∧ heap s' = heap s.
Proof.
  destruct s as [vs h w tr]. intros Hh Hfull Hi Hsafe Ht.
  pose proof Hh as (Hv & Hle & Hbuf). simpl in Hv, Hbuf.
  eapply (outcome_throws (Emplace this (Ptr buf i) args) _ s' (λ _ _, True)
            (λ s', vecs s' = vs ∧ heap s' = h)); [|exact Ht].
  eapply (outcome_Emplace this l cap buf i args); try done.
  - intros _ Hm (x & w0 & Hx & Hr) w' tr'. simpl. split; [done|].
    destruct Hsafe as [Hq|[_ [->| ->]]].
    + apply elem_of_drop_list in Hx. unfold relocate_op in Hq.
      rewrite Hm in Hq. by rewrite Hq in Hr.
    + simpl. rewrite drop_0. destruct buf as [a|]; [|done]. simpl. by rewrite insert_id.
    + rewrite drop_ge in Hx by done. by apply elem_of_nil in Hx.
  - intros _ Hm (x & w0 & Hx & Hr) blk w' tr' _. exfalso.
    destruct Hsafe as [Hq|[Hc _]].
    + unfold relocate_op in Hq. rewrite Hm in Hq. by rewrite Hq in Hr.
    + by rewrite (relocate_by_move_nothrow (or_intror Hc) Hm) in Hr.
  - lia.
Qed.

(** X28.  Where the code gives the strong guarantee.  For an element type that
    is nothrow-move-constructible or copy-constructible, [Reserve] that
    exits by an exception leaves the objects and the heap as they were
    before the call: same size, capacity and elements, old block untouched,
    new block released.  The same holds for [Emplace], [Insert],
    [EmplaceBack] and [PushBack] on a full vector when relocating the
    existing elements cannot raise (only the allocation or the constructor
    of the new element can), and when the element type is copy-constructible
    and the position is the first one or [end()], where one of the two
    relocations of [InsertWithReallocate] is empty. *)
Theorem strong_guarantee this l cap buf s :
  holds s this l cap buf →
  let unchanged (s' : state T W) := vecs s' = vecs s ∧ heap s' = heap s in
  (is_nothrow_move_constructible = true ∨ is_copy_constructible = true →
   ∀ n s', (cap < n → fits n) → Reserve this n s = Throws s' → unchanged s') ∧
  (length l = cap →
   ∀ i args s', i ≤ length l →
     (∀ x w0, x ∈ l → raises (relocate_op x) w0 = false) ∨
     (is_copy_constructible = true ∧ (i = 0 ∨ i = length l)) →
     (Emplace this (Ptr buf i) args s = Throws s' → unchanged s') ∧
     (Insert this (Ptr buf i) args s = Throws s' → unchanged s')) ∧
  (length l = cap →
   ∀ args s',
     (∀ x w0, x ∈ l → raises (relocate_op x) w0 = false) ∨ is_copy_constructible = true →
     (EmplaceBack this args s = Throws s' → unchanged s') ∧
     (PushBack this args s = Throws s' → unchanged s')).
Proof.
  intros Hh unchanged. split_and!.
  - intros Hpol n s' _. by apply (Reserve_failure this l cap buf).
  - intros Hfull i args s' Hi Hsafe.
    split; by apply (Emplace_failure this l cap buf).
  - intros Hfull args s' Hsafe.
    assert (EmplaceBack this args s = Throws s' → unchanged s') as HEB.
    { rewrite (EmplaceBack_Emplace this l cap buf) by done.
      apply (Emplace_failure this l cap buf); [done|done|done|].
      destruct Hsafe as [?|?]; [by left|right; auto]. }
    split; [done|]. unfold PushBack, mbind, M_bind.
    destruct (EmplaceBack this args s); [done| |done]. by intros [= <-]; auto.
Qed.

(** X29.  The relocation policy.  Every relocation transfers each existing
    element, in index order, by its move constructor when the element type
    is nothrow-move-constructible or is not copy-constructible, and by its
    copy constructor otherwise.  [Reserve] destroys the originals after all
    of them have been transferred, and when a copy raises the objects and
    the heap are as before the call.  A reallocating [Emplace] at index [i]
    transfers and destroys the originals below [i] first, and only then
    transfers and destroys the originals from [i] on. *)
Theorem relocation_policy this l cap buf s :
  holds s this l cap buf →
  let by_move := is_nothrow_move_constructible || negb is_copy_constructible in
  let transfer (x : T) := if by_move then OpMoveCtor x else OpCopyCtor x in
  let left_behind (x : T) := if by_move then moved_from x else x in
  (∀ n s', cap < n → fits n → Reserve this n s = Normal tt s' →
     trace s' = trace s ++ OpNew n :: (transfer <$> l)
                  ++ (OpDestroy <$> (left_behind <$> l))) ∧
  (∀ i args it s', length l = cap → i ≤ length l →
     Emplace this (Ptr buf i) args s = Normal it s' →
     trace s' = trace s ++ OpNew (1 `max` (2 * length l)) :: ctor_op args ::
                  (transfer <$> take i l) ++
                  (OpDestroy <$> (left_behind <$> take i l)) ++
                  (transfer <$> drop i l) ++
                  (OpDestroy <$> (left_behind <$> drop i l))) ∧
  (by_move = false →
   ∀ n s', (cap < n → fits n) → Reserve this n s = Throws s' →
     vecs s' = vecs s ∧ heap s' = heap s).
Proof.
  destruct s as [vs h w tr]. intros Hh by_move transfer left_behind.
  change transfer with relocate_op. change left_behind with relocated_from.
  split_and!.
  - intros n s' Hn _ Hs'.
    eapply (outcome_normal (Reserve this n) _ tt s'
              (λ _ s', trace s' = tr ++ OpNew n :: (relocate_op <$> l)
                                    ++ (OpDestroy <$> (relocated_from <$> l)))
              (λ _, True)); [|exact Hs'].
    eapply outcome_Reserve; try done. lia.
  - intros i args it s' Hfull Hi Hs'.
    eapply (outcome_normal (Emplace this (Ptr buf i) args) _ it s'
              (λ _ s', trace s' = tr ++ OpNew (1 `max` (2 * length l))
                                    :: ctor_op args ::
                           (relocate_op <$> take i l) ++
                           (OpDestroy <$> (relocated_from <$> take i l)) ++
                           (relocate_op <$> drop i l) ++
                           (OpDestroy <$> (relocated_from <$> drop i l)))
              (λ _, True)); [|exact Hs'].
    eapply (outcome_Emplace this l cap buf i args); try done; [|lia].
    intros _ b w' Hb. by rewrite growth_max.
  - intros Hcopy n s' _. apply (Reserve_failure this l cap buf); [done|].
    right. unfold by_move in Hcopy.
    destruct is_nothrow_move_constructible, is_copy_constructible; done.
Qed.

(** ** The representation invariant on normal return *)

Lemma outcome_any {A} (m : M T W A) s (Q : A → state T W → Prop) :
  outcome m s Q (λ _, True) → ∀ a s', m s = Normal a s' → Q a s'.
Proof. intros Hm a s' Hs'. by eapply outcome_normal. Qed.

(** X20.  Every member function that returns normally leaves the vector in a
    state described by a list of elements: [0 <= size <= capacity], the
    slots below [size] live, the slots above raw.  A capacity or a size
    asked for beyond the current capacity has to fit. *)
Theorem invariant_kept_on_return this l cap buf s :
  holds s this l cap buf →
  (∀ n s', (cap < n → fits n) → Reserve this n s = Normal tt s' →
     ∃ cap' buf', holds s' this l cap' buf') ∧
  (∀ n s', (cap < n → fits n) → Resize this n s = Normal tt s' →
     ∃ cap' buf',
       holds s' this (take n l ++ replicate (n - length l) value_init) cap' buf') ∧
  (∀ args s', PushBack this args s = Normal tt s' →
     ∃ cap' buf', holds s' this (l ++ [value_of args]) cap' buf') ∧
  (∀ s', PopBack this s = Normal tt s' → holds s' this (take (length l - 1) l) cap buf) ∧
  (∀ i args it s', i ≤ length l → Emplace this (Ptr buf i) args s = Normal it s' →
     ∃ cap' buf', holds s' this (take i l ++ value_of args :: drop i l) cap' buf') ∧
  (∀ i it s', i < length l → Erase this (Ptr buf i) s = Normal it s' →
     holds s' this (take i l ++ drop (S i) l) cap buf) ∧
  (∀ rhs lr capr bufr s',
     this ≠ rhs → holds s rhs lr capr bufr → (∀ a, buf = Some a → bufr ≠ Some a) →
     assign_copy this rhs s = Normal tt s' →
     ∃ cap' buf', holds s' this lr cap' buf' ∧ holds s' rhs lr capr bufr).
Proof.
  destruct s as [vs h w tr]. intros Hh.
  pose proof Hh as (Hv & Hle & Hbuf). simpl in Hv, Hbuf.
  assert (∀ i args it s', i ≤ length l →
    Emplace this (Ptr buf i) args (mkState vs h w tr) = Normal it s' →
    ∃ cap' buf', holds s' this (take i l ++ value_of args :: drop i l) cap' buf')
    as HEmplace.
  { intros i args it s' Hi.
    apply (outcome_any _ _ (λ _ s', ∃ cap' buf',
             holds s' this (take i l ++ value_of args :: drop i l) cap' buf')).
    eapply (outcome_Emplace this l cap buf i args); try done.
    - intros _ b w' Hb. eexists _, (Some b). unfold holds. simpl.
      rewrite !lookup_insert_eq, inserted_length. split_and!; [done| |done].
      case_decide; lia.
    - intros Hlt a w' tr' ->. exists cap, (Some a). unfold holds. simpl.
      rewrite !lookup_insert_eq, inserted_length. split_and!; [done|lia|done]. }
  split_and!.
  - intros n s' Hfits.
    apply (outcome_any _ _ (λ _ s', ∃ cap' buf', holds s' this l cap' buf')).
    eapply outcome_Reserve; try done.
    + intros _. by exists cap, buf.
    + intros Hn b w' Hb. exists n, (Some b). unfold holds. simpl.
      rewrite !lookup_insert_eq. split_and!; [done|lia|done].
  - intros n s' Hfits.
    apply (outcome_any _ _ (λ _ s', ∃ cap' buf',
             holds s' this (take n l ++ replicate (n - length l) value_init) cap' buf')).
    eapply outcome_Resize; try done.
    + intros Hn. exists cap, buf. unfold holds. simpl.
      replace (n - length l) with 0 by lia. simpl. rewrite app_nil_r.
      rewrite lookup_insert_eq, length_take, Nat.min_l by done.
      split_and!; [done|lia|]. destruct buf; [|done]. simpl.
      by rewrite lookup_insert_eq.
    + intros Hn Hc w'. exists cap, buf. unfold holds. simpl.
      rewrite take_ge by lia.
      rewrite lookup_insert_eq, length_app, length_replicate.
      split_and!; [f_equal; f_equal; lia|lia|]. destruct buf; [|lia]. simpl.
      by rewrite lookup_insert_eq.
    + intros Hn b w' Hb. exists n, (Some b). unfold holds. simpl.
      rewrite take_ge by lia.
      rewrite !lookup_insert_eq, length_app, length_replicate.
      split_and!; [f_equal; f_equal; lia|lia|done].
  - intros args s'. unfold PushBack, mbind, M_bind.
    rewrite (EmplaceBack_Emplace this l cap buf) by done.
    destruct (Emplace this (Ptr buf (length l)) args (mkState vs h w tr))
      as [it s''| |] eqn:HE; [|done|done].
    intros [= <-]. apply HEmplace in HE; [|done].
    by rewrite take_ge, drop_ge in HE.
  - intros s'. destruct (decide (l = [])) as [->|Hne].
    + unfold PopBack, mbind, M_bind. by rewrite (get_vec_eq this _ _ _ _ _ Hv).
    + apply (outcome_any _ _ (λ _ s', holds s' this (take (length l - 1) l) cap buf)).
      eapply outcome_PopBack; try done.
      intros a x xs -> ->. unfold holds. simpl.
      rewrite !lookup_insert_eq, length_app, take_app_length'; simpl; [|lia].
      replace (length xs + 1 - 1) with (length xs) by lia.
      rewrite length_app in Hle. simpl in Hle. split_and!; [done|lia|done].
  - done.
  - intros i it s' Hi.
    apply (outcome_any _ _ (λ _ s', holds s' this (take i l ++ drop (S i) l) cap buf)).
    eapply outcome_Erase; try done.
    intros a x w' -> Hx. unfold holds. simpl.
    rewrite !lookup_insert_eq, erased_length by done.
    split_and!; [done|lia|done].
  - intros rhs lr capr bufr s' Hne Hr Hdis.
    pose proof Hr as (Hvr & Hler & Hbr). simpl in Hvr, Hbr.
    destruct (decide (cap < length lr)) as [Hre|Hfit].
    + apply (outcome_any _ _ (λ _ s', ∃ cap' buf',
               holds s' this lr cap' buf' ∧ holds s' rhs lr capr bufr)).
      eapply (outcome_assign_copy_realloc this rhs l cap buf lr capr bufr);
        try done.
      intros b w' Hb. exists (length lr), (Some b). split.
      * unfold holds. simpl. rewrite !lookup_insert_eq. by split_and!.
      * unfold holds. simpl. rewrite lookup_insert_ne by done.
        split_and!; [done|done|]. destruct bufr as [ar|]; [|done].
        rewrite lookup_insert_ne by (intros ->; congruence).
        destruct buf as [a|]; [|done]. simpl.
        rewrite lookup_delete_ne; [done|]. intros ->. by eapply Hdis.
    + apply (outcome_any _ _ (λ _ s', ∃ cap' buf',
               holds s' this lr cap' buf' ∧ holds s' rhs lr capr bufr)).
      eapply (outcome_assign_copy_in_place this rhs l cap buf lr capr bufr);
        try done; [lia|].
      intros w' tr'. exists cap, buf. split.
      * unfold holds. simpl. rewrite lookup_insert_eq. split_and!; [done|lia|].
        destruct buf as [a|]; [|done]. simpl. by rewrite lookup_insert_eq.
      * unfold holds. simpl. rewrite lookup_insert_ne by done.
        split_and!; [done|done|]. destruct bufr as [ar|]; [|done].
        destruct buf as [a|]; [|done]. simpl.
        rewrite lookup_insert_ne; [done|]. intros ->. by eapply Hdis.
Qed.

End properties.

(** * Further properties: constructors, observers, compositions *)

Section coverage.
Context {T W : Type} `{!Element T W}.
Implicit Types (s : state T W) (vs : gmap loc Vector) (h : gmap addr (list (option T))).
Implicit Types (w : W) (tr : list (op T)) (xs ys l : list T) (x y : T).

(** ** The size of a request *)

(** When [n] fits, the byte count that [Allocate] passes to [operator new]
    is the size of [n] objects; when it does not, the count has wrapped and
    is smaller. *)
Lemma request_bytes_fits n :
  fits n → request_bytes n = (N.of_nat n * N.of_nat size_of)%N.
Proof. intros Hn. unfold request_bytes. by apply N.mod_small. Qed.

Lemma request_bytes_wraps n :
  ¬ fits n → (request_bytes n < N.of_nat n * N.of_nat size_of)%N.
Proof.
  unfold fits, request_bytes. intros Hn.
  pose proof (N.mod_lt (N.of_nat n * N.of_nat size_of) (2 ^ 64)) as Hlt. lia.
Qed.

(** ** Reading the outcomes of a computation *)

Lemma outcome_split {A} (m : M T W A) s (Q : A → state T W → Prop) E :
  outcome m s Q (λ s', ¬ no_faults ∧ E s') →
  returns m s Q ∧ (∀ s', m s = Throws s' → E s').
Proof.
  intros Hm. split.
  - apply outcome_returns. eapply outcome_mono; [exact Hm|done|]. by intros ? [].
  - intros s' Hs'. unfold outcome in Hm. rewrite Hs' in Hm. by destruct Hm.
Qed.

Lemma outcome_declare this (ctor : M T W Vector) s (Q : unit → state T W → Prop) E :
  outcome ctor s
    (λ v s', Q tt (mkState (<[this := v]> (vecs s')) (heap s') (world s') (trace s'))) E →
  outcome (declare this ctor) s Q E.
Proof. intros Hc. unfold declare. apply outcome_bind. exact Hc. Qed.

(** ** Constructors and destructor *)

Lemma outcome_Vector_sized n vs h w tr (Q : Vector → state T W → Prop) E :
  (n = 0 → Q (mkVector (mkRawMemory None 0) 0) (mkState vs h w tr)) →
  (n ≠ 0 → ∀ b w', h !! b = None →
     Q (mkVector (mkRawMemory (Some b) n) n)
       (mkState vs (<[b := slots (replicate n value_init) n]> h) w'
          (tr ++ OpNew n :: replicate n OpValueInit))) →
  ((∃ o w0, raises o w0 = true) → ∀ w' tr', E (mkState vs h w' tr')) →
  outcome (Vector_sized n) (mkState vs h w tr) Q E.
Proof.
  intros HQ0 HQ HE. unfold Vector_sized.
  destruct (decide (n = 0)) as [->|Hnz].
  - eapply outcome_bind_eq; [apply RawMemory_ctor_zero|].
    eapply outcome_bind_eq; [reflexivity|]. by apply outcome_ret, HQ0.
  - apply outcome_bind, outcome_RawMemory_ctor; [done| |].
    2:{ intros Hr. apply HE. by exists (OpNew n), w. }
    intros b Hb. apply outcome_bind, outcome_on_throw.
    unfold GetAddress. cbn [buffer_].
    eapply (outcome_uninitialized_value_construct_n b 0 n [] []);
      [done|rewrite lookup_insert_eq; simpl; by rewrite app_nil_r| |].
    + intros w'. apply outcome_ret.
      eapply state_eq; [by apply (HQ Hnz b w')| |by rewrite <- app_assoc].
      simpl. unfold slots. rewrite length_replicate, Nat.sub_diag. simpl.
      by rewrite insert_insert_eq.
    + intros (w0 & Hr) w' tr'. eapply outcome_eq.
      { apply RawMemory_dtor_eq. intros ? [= <-]. rewrite lookup_insert_eq. eauto. }
      eapply state_eq; [apply (HE (ex_intro _ OpValueInit (ex_intro _ w0 Hr)) w' tr')| |done].
      simpl. heap_eq.
Qed.

(** X2.  [Vector(size_t size)], for a size that fits, builds [size]
    value-initialised elements in a fresh block of exactly [size] slots, and
    allocates nothing when [size] is 0.  When the allocation or one of the
    constructions raises, the elements built so far are destroyed and the
    block is released: no object is declared and the free store is as
    before. *)
Theorem sized_constructor this n s :
  fits n →
  let built (s' : state T W) :=
    ∃ buf,
      holds s' this (replicate n value_init) n buf ∧
      (∀ a, buf = Some a → heap s !! a = None) ∧
      heap s' = with_block buf (slots (replicate n value_init) n) (heap s) ∧
      (n = 0 → buf = None ∧ trace s' = trace s) ∧
      (n ≠ 0 → trace s' = trace s ++ OpNew n :: replicate n OpValueInit) in
  returns (declare this (Vector_sized n)) s (λ _ s', built s') ∧
  (∀ s', declare this (Vector_sized n) s = Throws s' →
     vecs s' = vecs s ∧ heap s' = heap s).
Proof.
  intros _ built. destruct s as [vs h w tr]. apply outcome_split.
  apply outcome_declare, outcome_Vector_sized.
  - intros ->. exists None. unfold holds. simpl. rewrite lookup_insert_eq.
    split_and!; try done.
  - intros Hnz b w' Hb. exists (Some b). unfold holds. simpl.
    rewrite !lookup_insert_eq, length_replicate. split_and!; try done.
    by intros ? [= <-].
  - intros (o & w0 & Hr) w' tr'. split; [by eapply raises_not_quiet|done].
Qed.

(** X3.  [Vector(const Vector& other)] builds an independent copy of the
    elements of [other] in a fresh block whose capacity is the size of
    [other], not its capacity; [other] is unchanged.  When the allocation or
    a copy raises, no object is declared and the free store is as before. *)
Theorem copy_constructor this other l cap buf s :
  holds s other l cap buf → this ≠ other →
  let built (s' : state T W) :=
    ∃ buf',
      holds s' this l (length l) buf' ∧
      holds s' other l cap buf ∧
      (∀ a, buf' = Some a → heap s !! a = None) ∧
      (l = [] → buf' = None ∧ heap s' = heap s ∧ trace s' = trace s) ∧
      (l ≠ [] → trace s' = trace s ++ OpNew (length l) :: (OpCopyCtor <$> l)) in
  returns (declare this (Vector_copy other)) s (λ _ s', built s') ∧
  (∀ s', declare this (Vector_copy other) s = Throws s' →
     vecs s' = vecs s ∧ heap s' = heap s).
Proof.
  intros Hh Hne built. destruct s as [vs h w tr]. apply outcome_split.
  pose proof Hh as (Hv & Hle & Hbuf). simpl in Hv, Hbuf.
  apply outcome_declare. eapply outcome_Vector_copy; [exact Hh| | | |].
  - intros Hz. apply nil_length_inv in Hz as Hl. exists None. unfold holds. simpl.
    rewrite lookup_insert_eq, lookup_insert_ne, Hz by done. subst l.
    split_and!; try done.
  - intros Hnz b w' Hb. exists (Some b). unfold holds. simpl.
    rewrite !lookup_insert_eq, lookup_insert_ne by done.
    split_and!; try done.
    + destruct buf as [a|]; [|done]. rewrite lookup_insert_ne; [done|congruence].
    + by intros ? [= <-].
    + by intros ->.
  - intros (w0 & Hr) w' tr'. split; [by eapply raises_not_quiet|done].
  - intros (x & w0 & _ & Hr) w' tr'. split; [by eapply raises_not_quiet|done].
Qed.

(** X4.  [Vector(Vector&& other)] hands the block of [other] over: the new
    object holds the elements of [other] in the same block, [other] is left
    empty with no block, and no element is constructed, assigned or
    destroyed and nothing is allocated.  Destroying the moved-from object
    afterwards destroys no element and releases nothing. *)
Theorem move_constructor this other l cap buf s :
  holds s other l cap buf → this ≠ other →
  ∃ s' s'',
    declare this (Vector_move other) s = Normal tt s' ∧
    holds s' this l cap buf ∧
    holds s' other [] 0 None ∧
    heap s' = heap s ∧ world s' = world s ∧ trace s' = trace s ∧
    end_of_life other s' = Normal tt s'' ∧
    holds s'' this l cap buf ∧
    heap s'' = heap s ∧ trace s'' = trace s.
Proof.
  destruct s as [vs h w tr]. intros (Hv & Hle & Hbuf) Hne. simpl in Hv, Hbuf.
  eexists _, _. split.
  { unfold declare, Vector_move, mbind, M_bind.
    rewrite (get_vec_eq other _ _ _ _ _ Hv). reflexivity. }
  assert (∀ vs', vs' !! this = Some (mkVector (mkRawMemory buf cap) (length l)) →
    holds (mkState vs' h w tr) this l cap buf) as Hthis.
  { intros vs' Hv'. by unfold holds. }
  split; [apply Hthis; by rewrite lookup_insert_eq|].
  split.
  { unfold holds. simpl. by rewrite lookup_insert_ne, lookup_insert_eq. }
  split_and!; [done|done|done| | | |].
  - unfold end_of_life, Vector_dtor, mbind, M_bind, get_vec, set_vecs. simpl.
    rewrite lookup_insert_ne, lookup_insert_eq by done. reflexivity.
  - apply Hthis. simpl.
    by rewrite lookup_delete_ne, lookup_insert_eq.
  - done.
  - done.
Qed.

Lemma Swap_eq this other va vb vs h w tr :
  vs !! this = Some va → vs !! other = Some vb →
  Swap this other (mkState vs h w tr)
  = Normal tt (mkState (<[other := va]> (<[this := vb]> vs)) h w tr).
Proof.
  intros Ha Hb. unfold Swap, mbind, M_bind.
  by rewrite (get_vec_eq this _ _ _ _ _ Ha), (get_vec_eq other _ _ _ _ _ Hb).
Qed.

(** X5.  [Swap] exchanges the blocks and sizes of two vectors and touches no
    element; swapping twice restores both objects.  Move assignment from
    another object is that exchange: the elements the destination held are
    not destroyed but handed to [rhs]. *)
Theorem Swap_exchanges this other lt capt buft lo capo bufo s :
  holds s this lt capt buft → holds s other lo capo bufo → this ≠ other →
  ∃ s',
    Swap this other s = Normal tt s' ∧
    assign_move this other s = Normal tt s' ∧
    holds s' this lo capo bufo ∧
    holds s' other lt capt buft ∧
    heap s' = heap s ∧ world s' = world s ∧ trace s' = trace s ∧
    Swap this other s' = Normal tt s.
Proof.
  destruct s as [vs h w tr].
  intros (Hvt & Hlet & Hbt) (Hvo & Hleo & Hbo) Hne. simpl in Hvt, Hbt, Hvo, Hbo.
  eexists. split; [by apply Swap_eq|]. split.
  { unfold assign_move. rewrite decide_True by done. by apply Swap_eq. }
  unfold holds. cbn [vecs heap world trace].
  rewrite lookup_insert_eq, lookup_insert_ne, lookup_insert_eq by done.
  split_and!; try done.
  erewrite Swap_eq;
    [|by rewrite lookup_insert_ne, lookup_insert_eq|by rewrite lookup_insert_eq].
  f_equal. f_equal. apply map_eq. intros k.
  destruct (decide (k = other)) as [->|]; [by rewrite lookup_insert_eq|].
  rewrite lookup_insert_ne by done.
  destruct (decide (k = this)) as [->|]; [by rewrite lookup_insert_eq|].
  by rewrite !lookup_insert_ne.
Qed.

(** X6.  The destructor destroys every element once, first to last, releases
    the block, and cannot raise. *)
Theorem destructor_releases this l cap buf s :
  holds s this l cap buf →
  ∃ s',
    end_of_life this s = Normal tt s' ∧
    vecs s' = delete this (vecs s) ∧
    heap s' = release buf (heap s) ∧
    world s' = world s ∧
    trace s' = trace s ++ (OpDestroy <$> l).
Proof.
  destruct s as [vs h w tr]. intros (Hv & Hle & Hbuf). simpl in Hv, Hbuf.
  eexists. split.
  { unfold end_of_life, mbind, M_bind.
    rewrite (get_vec_eq this _ _ _ _ _ Hv), (Vector_dtor_eq l cap buf) by done.
    reflexivity. }
  done.
Qed.

(** X7.  A local copy of a vector that goes out of scope leaves no block behind:
    whether the copy succeeds or raises, the free store and the objects are
    as before, and every element that was copied has been destroyed. *)
Theorem scoped_copy_leaves_nothing this other l cap buf s :
  holds s other l cap buf → vecs s !! this = None →
  returns (declare this (Vector_copy other);; end_of_life this) s (λ _ s',
    vecs s' = vecs s ∧ heap s' = heap s ∧
    ∃ allocation,
      trace s' = trace s ++ allocation ++ (OpCopyCtor <$> l) ++ (OpDestroy <$> l) ∧
      allocation = if decide (l = []) then [] else [OpNew (length l)]) ∧
  (∀ s', (declare this (Vector_copy other);; end_of_life this) s = Throws s' →
     vecs s' = vecs s ∧ heap s' = heap s).
Proof.
  intros Hh Hnone. destruct s as [vs h w tr]. simpl in Hnone. apply outcome_split.
  pose proof Hh as (Hv & Hle & Hbuf). simpl in Hv, Hbuf.
  assert (this ≠ other) as Hne by (intros ->; congruence).
  apply outcome_bind, outcome_declare.
  eapply outcome_Vector_copy; [exact Hh| | | |].
  - intros Hz. apply nil_length_inv in Hz as Hl. subst l. simpl.
    unfold outcome, end_of_life, mbind, M_bind.
    rewrite (get_vec_eq this _ _ _ _ _ (lookup_insert_eq _ _ _)).
    rewrite (Vector_dtor_eq [] 0 None) by done. simpl.
    split_and!; [by rewrite delete_insert_id| done |].
    by exists [].
  - intros Hnz b w' Hb. simpl.
    unfold outcome, end_of_life, mbind, M_bind.
    rewrite (get_vec_eq this _ _ _ _ _ (lookup_insert_eq _ _ _)).
    rewrite (Vector_dtor_eq l (length l) (Some b)) by (by rewrite ?lookup_insert_eq).
    simpl. split_and!; [by rewrite delete_insert_id| heap_eq |].
    exists [OpNew (length l)]. rewrite decide_False by (by intros ->).
    split; [|done]. by rewrite <- !app_assoc.
  - intros (w0 & Hr) w' tr'. split; [by eapply raises_not_quiet|done].
  - intros (x & w0 & _ & Hr) w' tr'. split; [by eapply raises_not_quiet|done].
Qed.

(** ** Observers *)

Lemma holds_observers this l cap buf s :
  holds s this l cap buf →
  Size this s = Normal (length l) s ∧ Capacity this s = Normal cap s.
Proof.
  destruct s as [vs h w tr]. intros (Hv & _ & _). simpl in Hv.
  unfold Size, Capacity, mbind, M_bind. by rewrite (get_vec_eq this _ _ _ _ _ Hv).
Qed.

(** ** Reserve *)

(** X8.  [Reserve n] never shrinks: with [n] at most the capacity it changes
    nothing at all; otherwise the elements are relocated, in order, to a
    fresh block of exactly [n] slots and the old block is released.  Either
    way the elements and the size are kept and the capacity becomes the
    larger of the old capacity and [n].  A capacity beyond the current one
    has to fit. *)
Theorem Reserve_grows this l cap buf n s :
  holds s this l cap buf →
  (cap < n → fits n) →
  returns (Reserve this n) s (λ _ s',
    ∃ buf',
      holds s' this l (cap `max` n) buf' ∧
      Size this s' = Normal (length l) s' ∧
      Capacity this s' = Normal (cap `max` n) s' ∧
      (n ≤ cap → s' = s) ∧
      (cap < n →
         (∀ a, buf' = Some a → heap s !! a = None) ∧
         heap s' = with_block buf' (slots l n) (release buf (heap s)) ∧
         trace s' = trace s ++ OpNew n :: (relocate_op <$> l) ++
                      (OpDestroy <$> (relocated_from <$> l)))).
Proof.
  intros Hh _. apply outcome_returns. destruct s as [vs h w tr].
  pose proof Hh as (Hv & Hle & Hbuf). simpl in Hv, Hbuf.
  eapply outcome_Reserve; try done.
  - intros Hn. exists buf. rewrite Nat.max_l by done.
    split; [done|]. destruct (holds_observers _ _ _ _ _ Hh) as [-> ->].
    split_and!; try done. lia.
  - intros Hn b w' Hb. exists (Some b). rewrite Nat.max_r by lia.
    assert (holds (mkState (<[this := mkVector (mkRawMemory (Some b) n) (length l)]> vs)
                     (<[b := slots l n]> (release buf h)) w'
                     (tr ++ OpNew n :: (relocate_op <$> l) ++
                        (OpDestroy <$> (relocated_from <$> l))))
              this l n (Some b)) as Hh'.
    { unfold holds. simpl. rewrite !lookup_insert_eq. split_and!; [done|lia|done]. }
    split; [done|]. destruct (holds_observers _ _ _ _ _ Hh') as [-> ->].
    split_and!; try done; [lia|]. intros _. split_and!; [|done|done].
    by intros ? [= <-].
  - intros _ (w0 & Hr) w' tr'. by eapply raises_not_quiet.
  - intros _ _ (x & w0 & _ & Hr) w' tr'. by eapply raises_not_quiet.
  - intros _ _ (x & w0 & _ & Hr) l' w' tr' _. by eapply raises_not_quiet.
Qed.

(** ** Appending *)

Lemma outcome_PushBack_in_place this l cap a args vs h w tr
    (Q : unit → state T W → Prop) E :
  holds (mkState vs h w tr) this l cap (Some a) → length l < cap →
  (raises (ctor_op args) w = false →
   Q tt (mkState (<[this := mkVector (mkRawMemory (Some a) cap) (length l + 1)]> vs)
           (<[a := slots (l ++ [value_of args]) cap]> h)
           (advance (ctor_op args) w) (tr ++ [ctor_op args]))) →
  (raises (ctor_op args) w = true →
   E (mkState vs h (advance (ctor_op args) w) (tr ++ [ctor_op args]))) →
  outcome (PushBack this args) (mkState vs h w tr) Q E.
Proof.
  intros Hh Hlt HQ HE. pose proof Hh as (Hv & Hle & Hbuf). simpl in Hv, Hbuf.
  unfold PushBack. apply outcome_bind.
  unfold outcome at 1. rewrite (EmplaceBack_Emplace this l cap (Some a)) by done.
  change (outcome (Emplace this (Ptr (Some a) (length l)) args) (mkState vs h w tr)
            (λ _ s', outcome (mret tt) s' Q E) E).
  unfold Emplace.
  eapply outcome_bind_eq; [by apply begin_eq|]. cbn [data_ buffer_].
  eapply outcome_bind_eq; [apply ptr_diff_eq; lia|]. rewrite Nat.sub_0_r.
  eapply outcome_bind_eq; [by apply get_vec_eq|].
  eapply outcome_bind_eq; [by apply Capacity_eq|]. cbn [data_ capacity_ size_].
  apply outcome_bind. rewrite decide_False by lia.
  unfold InsertInPlace.
  eapply outcome_bind_eq; [by apply get_vec_eq|]. cbn [size_ data_].
  rewrite decide_True by done.
  unfold GetAddress, ptr_add. cbn [buffer_ base off]. rewrite Nat.add_0_l.
  eapply outcome_construct_from; [done|by rewrite slots_length| |].
  2:{ intros Hr. by apply HE. }
  intros Hr.
  eapply outcome_bind_eq; [by apply incr_size_eq|].
  eapply outcome_bind_eq; [apply begin_eq, lookup_insert_eq|].
  apply outcome_ret, outcome_ret. cbn [data_ size_].
  eapply state_eq; [by apply HQ| |done].
  f_equal. unfold slots.
  replace (cap - length l) with (S (cap - length (l ++ [value_of args])))
    by (rewrite length_app; simpl; lia).
  rewrite replicate_S, insert_middle by (by rewrite length_fmap).
  by rewrite fmap_app, <- app_assoc.
Qed.

Lemma outcome_pushes_in_place this values : ∀ l cap buf vs h w tr
    (Q : unit → state T W → Prop) E,
  holds (mkState vs h w tr) this l cap buf → length l + length values ≤ cap →
  (∀ vs' h' w',
     holds (mkState vs' h' w' (tr ++ (ctor_op <$> values))) this
       (l ++ (value_of <$> values)) cap buf →
     Q tt (mkState vs' h' w' (tr ++ (ctor_op <$> values)))) →
  (∀ done failed rest vs' h' w0 w',
     values = done ++ failed :: rest →
     raises (ctor_op failed) w0 = true →
     holds (mkState vs' h' w' (tr ++ (ctor_op <$> done) ++ [ctor_op failed])) this
       (l ++ (value_of <$> done)) cap buf →
     E (mkState vs' h' w' (tr ++ (ctor_op <$> done) ++ [ctor_op failed]))) →
  outcome (push_all this values) (mkState vs h w tr) Q E.
Proof.
  induction values as [|value values IH]; intros l cap buf vs h w tr Q E Hh Hfit HQ HE.
  - apply outcome_ret. simpl in HQ. specialize (HQ vs h w).
    rewrite !app_nil_r in HQ. by apply HQ.
  - cbn [push_all]. simpl in Hfit.
    pose proof Hh as (Hv & Hle & Hbuf). simpl in Hv, Hbuf.
    destruct buf as [a|]; [|lia].
    apply outcome_bind.
    eapply (outcome_PushBack_in_place this l cap a value); [done|lia| |].
    + intros Hr.
      eapply (IH (l ++ [value_of value]) cap (Some a)).
      * unfold holds. simpl. rewrite !lookup_insert_eq, length_app. simpl.
        split_and!; [done|lia|done].
      * rewrite length_app. simpl. lia.
      * intros vs' h' w'. rewrite <- !app_assoc. simpl. apply HQ.
      * intros done failed rest vs' h' w0 w' -> Hr'.
        rewrite <- !app_assoc. simpl.
        apply (HE (value :: done) failed rest vs' h' w0 w'); done.
    + intros Hr.
      by eapply (HE [] value values vs h w); [done|exact Hr|]; simpl;
        rewrite ?app_nil_r.
Qed.

(** X9.  Appends that fit in the capacity never reallocate: the block stays
    where it is, so pointers to the elements stay valid, the capacity is
    unchanged, and the only element operations are the constructions of the
    appended values.  When one of these raises, the appends before it have
    taken effect and the failed one has left no trace in the vector. *)
Theorem pushes_within_capacity this values l cap buf s :
  holds s this l cap buf → length l + length values ≤ cap →
  returns (push_all this values) s (λ _ s',
    holds s' this (l ++ (value_of <$> values)) cap buf ∧
    trace s' = trace s ++ (ctor_op <$> values)) ∧
  (∀ s', push_all this values s = Throws s' →
     ∃ done failed rest,
       values = done ++ failed :: rest ∧
       holds s' this (l ++ (value_of <$> done)) cap buf ∧
       trace s' = trace s ++ (ctor_op <$> done) ++ [ctor_op failed]).
Proof.
  intros Hh Hfit. destruct s as [vs h w tr]. apply outcome_split.
  eapply outcome_pushes_in_place; [done|done| |].
  - intros vs' h' w' Hh'. done.
  - intros done failed rest vs' h' w0 w' -> Hr Hh'.
    split; [by eapply raises_not_quiet|]. by exists done, failed, rest.
Qed.

(** An append: into the block when there is room, otherwise into a fresh
    block of doubled capacity (1 for an empty vector) to which the elements
    are relocated. *)
Lemma outcome_PushBack this l cap buf args s (Q : unit → state T W → Prop) :
  holds s this l cap buf →
  (∀ s' buf',
     holds s' this (l ++ [value_of args])
       (if decide (length l = cap) then 1 `max` (2 * cap) else cap) buf' →
     trace s' = trace s ++
       (if decide (length l = cap)
        then OpNew (1 `max` (2 * cap)) :: ctor_op args ::
               (relocate_op <$> l) ++ (OpDestroy <$> (relocated_from <$> l))
        else [ctor_op args]) →
     release buf' (heap s') = release buf (heap s) →
     delete this (vecs s') = delete this (vecs s) →
     Q tt s') →
  outcome (PushBack this args) s Q (λ _, ¬ no_faults).
Proof.
  intros Hh HQ. destruct s as [vs h w tr].
  pose proof Hh as (Hv & Hle & Hbuf). simpl in Hv, Hbuf.
  destruct (decide (length l = cap)) as [Hfull|Hroom].
  - unfold PushBack. apply outcome_bind.
    unfold outcome at 1. rewrite (EmplaceBack_Emplace this l cap buf) by done.
    change (outcome (Emplace this (Ptr buf (length l)) args) (mkState vs h w tr)
              (λ _ s', outcome (mret tt) s' Q (λ _, ¬ no_faults)) (λ _, ¬ no_faults)).
    eapply (outcome_Emplace this l cap buf (length l) args); try done; try lia.
    + intros _ b w' Hb. apply outcome_ret. apply (HQ _ (Some b)).
      * rewrite take_ge, drop_ge by done. subst cap.
        rewrite <- (growth_max (length l)).
        unfold holds. simpl. rewrite !lookup_insert_eq, length_app. simpl.
        split_and!; [done|destruct (decide (length l = 0)); lia|done].
      * subst cap. rewrite <- (growth_max (length l)).
        cbn [trace]. rewrite take_ge, drop_ge by done. simpl.
        by rewrite !app_nil_r.
      * simpl. apply delete_insert_id.
        destruct buf as [a|]; [|done]. simpl. apply lookup_delete_None. by right.
      * simpl. apply delete_insert_eq.
    + intros _ (w0 & Hr) w' tr'. by eapply raises_not_quiet.
    + intros _ (w0 & Hr) w' tr'. by eapply raises_not_quiet.
    + intros _ _ (x & w0 & _ & Hr) w' tr'. by eapply raises_not_quiet.
    + intros _ _ (x & w0 & _ & Hr) w' tr'. by eapply raises_not_quiet.
    + intros _ _ (x & w0 & _ & Hr) blk w' tr' _. by eapply raises_not_quiet.
  - destruct buf as [a|]; [|lia].
    eapply (outcome_PushBack_in_place this l cap a args); [done|lia| |].
    + intros Hr. apply (HQ _ (Some a)); [|done| |].
      * unfold holds. simpl. rewrite !lookup_insert_eq, length_app. simpl.
        split_and!; [done|lia|done].
      * simpl. apply delete_insert_eq.
      * simpl. apply delete_insert_eq.
    + intros Hr. by eapply raises_not_quiet.
Qed.

Lemma outcome_push_all this values : ∀ l cap buf s (Q : unit → state T W → Prop),
  holds s this l cap buf →
  (∀ s' cap' buf',
     holds s' this (l ++ (value_of <$> values)) cap' buf' → cap ≤ cap' → Q tt s') →
  outcome (push_all this values) s Q (λ _, ¬ no_faults).
Proof.
  induction values as [|value values IH]; intros l cap buf s Q Hh HQ.
  - apply outcome_ret. apply (HQ s cap buf); [|done]. simpl. by rewrite app_nil_r.
  - cbn [push_all]. apply outcome_bind.
    eapply outcome_PushBack; [done|]. intros s1 buf1 Hh1 _ _ _.
    eapply IH; [done|]. intros s' cap' buf' Hh' Hcap.
    apply (HQ s' cap' buf').
    + by rewrite fmap_cons, cons_middle, app_assoc.
    + case_decide; lia.
Qed.

(** X10.  A run of appends adds the values at the end, in the order of the
    calls, whatever reallocations happen on the way: the size grows by the
    number of calls and the capacity never shrinks. *)
Theorem push_all_appends this values l cap buf s :
  holds s this l cap buf →
  returns (push_all this values) s (λ _ s',
    ∃ cap' buf',
      holds s' this (l ++ (value_of <$> values)) cap' buf' ∧
      cap ≤ cap' ∧
      Size this s' = Normal (length l + length values) s').
Proof.
  intros Hh. apply outcome_returns.
  eapply outcome_push_all; [done|]. intros s' cap' buf' Hh' Hcap.
  exists cap', buf'. split_and!; [done|done|].
  destruct (holds_observers _ _ _ _ _ Hh') as [-> _].
  by rewrite length_app, length_fmap.
Qed.

(** ** Counting in a trace *)

Lemma count_ops_app (p : op T → bool) tr1 tr2 :
  count_ops p (tr1 ++ tr2) = count_ops p tr1 + count_ops p tr2.
Proof. unfold count_ops. by rewrite List.filter_app, length_app. Qed.

Lemma count_ops_none (p : op T → bool) (f : T → op T) xs :
  (∀ x, p (f x) = false) → count_ops p (f <$> xs) = 0.
Proof.
  intros Hf. unfold count_ops. induction xs as [|x xs IH]; [done|].
  cbn. by rewrite Hf.
Qed.

Lemma count_ops_all (p : op T → bool) (f : T → op T) xs :
  (∀ x, p (f x) = true) → count_ops p (f <$> xs) = length xs.
Proof.
  intros Hf. unfold count_ops. induction xs as [|x xs IH]; [done|].
  cbn. rewrite Hf. simpl. by f_equal.
Qed.

Lemma relocate_op_quiet x :
  is_allocation (relocate_op x) = false ∧ is_destruction (relocate_op x) = false.
Proof. unfold relocate_op. by destruct relocate_by_move. Qed.

Lemma ctor_op_quiet (args : ctor_args T) :
  is_allocation (ctor_op args) = false ∧ is_destruction (ctor_op args) = false.
Proof. by destruct args. Qed.

Lemma relocate_op_constructs x : is_construction (relocate_op x) = true.
Proof. unfold relocate_op. by destruct relocate_by_move. Qed.

Lemma ctor_op_constructs (args : ctor_args T) : is_construction (ctor_op args) = true.
Proof. by destruct args. Qed.

(** ** Growth by doubling *)

Lemma doubling_step n c :
  doubling n c → n ≤ c →
  doubling (n + 1) (if decide (n = c) then 1 `max` (2 * c) else c).
Proof.
  intros [[-> ->]|[Hn ->]] Hle.
  - right. split; [lia|]. rewrite decide_True by done. done.
  - right. split; [lia|]. set (k := Nat.log2_up n) in *.
    case_decide as Hfull.
    + assert (Nat.log2_up (n + 1) = S k) as ->.
      { apply Nat.log2_up_unique; [lia|]. simpl. rewrite Nat.add_0_r. lia. }
      rewrite Nat.pow_succ_r'. pose proof (Nat.pow_nonzero 2 k). lia.
    + destruct (decide (n = 1)) as [->|Hn1]; [by subst k|].
      assert (Nat.log2_up (n + 1) = k) as ->; [|done].
      assert (1 < n) as Hn2 by lia.
      destruct (Nat.log2_up_spec n Hn2) as [Hlo _]. fold k in Hlo.
      assert (0 < k) by (subst k; apply Nat.log2_up_pos; lia).
      apply Nat.log2_up_unique; [done|]. lia.
Qed.

Lemma allocations_step c :
  allocations_for (1 `max` (2 * c)) = allocations_for c + 1.
Proof.
  unfold allocations_for. destruct (decide (c = 0)) as [->|Hc]; [done|].
  rewrite decide_False by lia. rewrite Nat.max_r by lia.
  rewrite Nat.log2_double by lia. lia.
Qed.

Lemma outcome_push_all_counted this values :
  ∀ l cap buf s (Q : unit → state T W → Prop),
  holds s this l cap buf → doubling (length l) cap →
  (∀ s' cap' buf' added,
     holds s' this (l ++ (value_of <$> values)) cap' buf' →
     doubling (length l + length values) cap' →
     trace s' = trace s ++ added →
     count_ops is_allocation added + allocations_for cap = allocations_for cap' →
     count_ops is_destruction added + (cap - 1) = cap' - 1 →
     Q tt s') →
  outcome (push_all this values) s Q (λ _, ¬ no_faults).
Proof.
  induction values as [|value values IH]; intros l cap buf s Q Hh Hd HQ.
  - apply outcome_ret. apply (HQ s cap buf []); simpl; rewrite ?app_nil_r, ?Nat.add_0_r;
      done.
  - cbn [push_all]. apply outcome_bind.
    pose proof Hh as (_ & Hle & _).
    eapply outcome_PushBack; [done|]. intros s1 buf1 Hh1 Htr1 _ _.
    eapply IH; [done| |].
    { rewrite length_app. simpl. by apply doubling_step. }
    intros s' cap' buf' added Hh' Hd' Htr' Ha Hx.
    eapply (HQ s' cap' buf').
    + by rewrite fmap_cons, cons_middle, app_assoc.
    + rewrite length_app in Hd'. simpl in Hd' |- *.
      by replace (length l + S (length values)) with (length l + 1 + length values) by lia.
    + rewrite Htr', Htr1, <- app_assoc. done.
    + rewrite count_ops_app, <- Ha. clear Ha Hx.
      case_decide as Hfull.
      * rewrite allocations_step. unfold count_ops at 1. cbn [List.filter is_allocation].
        rewrite (proj1 (ctor_op_quiet value)). cbn [length].
        fold (count_ops is_allocation
                ((relocate_op <$> l) ++ (OpDestroy <$> (relocated_from <$> l)))).
        rewrite count_ops_app, !count_ops_none; [lia|done|].
        intros x. apply relocate_op_quiet.
      * unfold count_ops at 1. cbn [List.filter]. rewrite (proj1 (ctor_op_quiet value)).
        simpl. lia.
    + rewrite count_ops_app, <- Hx. clear Ha Hx.
      case_decide as Hfull.
      * unfold count_ops at 1. cbn [List.filter is_destruction].
        rewrite (proj2 (ctor_op_quiet value)).
        fold (count_ops is_destruction
                ((relocate_op <$> l) ++ (OpDestroy <$> (relocated_from <$> l)))).
        rewrite count_ops_app, count_ops_none, count_ops_all, length_fmap; [lia|done|].
        intros x. apply relocate_op_quiet.
      * unfold count_ops at 1. cbn [List.filter]. rewrite (proj2 (ctor_op_quiet value)).
        simpl. lia.
Qed.

(** X11.  Appending [n] values to an empty vector that owns no block ends with
    capacity [2 ^ ⌈log2 n⌉], the least power of two that holds them, reached
    by [⌈log2 n⌉ + 1] allocations.  The relocations destroy
    [2 ^ ⌈log2 n⌉ - 1] objects in all, fewer than [2 n]: the cost of
    reallocation per append is constant on average. *)
Theorem pushes_amortised this values s :
  holds s this [] 0 None → values ≠ [] →
  returns (push_all this values) s (λ _ s',
    ∃ buf' added,
      let k := Nat.log2_up (length values) in
      holds s' this (value_of <$> values) (2 ^ k) buf' ∧
      trace s' = trace s ++ added ∧
      count_ops is_allocation added = k + 1 ∧
      count_ops is_destruction added = 2 ^ k - 1 ∧
      2 ^ k < 2 * length values).
Proof.
  intros Hh Hne. apply outcome_returns.
  eapply (outcome_push_all_counted this values [] 0 None); [done|by left|].
  intros s' cap' buf' added Hh' Hd' Htr Ha Hx. simpl in *.
  assert (0 < length values) as Hpos by (destruct values; [done|simpl; lia]).
  destruct Hd' as [[? _]|[_ ->]]; [lia|].
  exists buf', added. cbv zeta. set (k := Nat.log2_up (length values)) in *.
  split_and!; [done|done| |lia|].
  - change (allocations_for 0) with 0 in Ha. unfold allocations_for in Ha.
    assert (2 ^ k ≠ 0) by (apply Nat.pow_nonzero; lia).
    rewrite decide_False, Nat.log2_pow2 in Ha by lia. lia.
  - destruct (decide (length values = 1)) as [Hone|Hmore].
    + subst k. rewrite Hone. simpl. lia.
    + destruct (Nat.log2_up_spec (length values)) as [Hlo _]; [lia|]. fold k in Hlo.
      assert (0 < k) by (subst k; apply Nat.log2_up_pos; lia).
      destruct k as [|k']; [lia|]. simpl in Hlo. rewrite Nat.pow_succ_r'. lia.
Qed.

(** ** Removing at the end *)

Lemma outcome_exists {A} (m : M T W A) s (Q : A → state T W → Prop) :
  outcome m s Q (λ _, False) → ∃ a s', m s = Normal a s' ∧ Q a s'.
Proof. unfold outcome. destruct (m s) as [a s'| |]; [eauto|done|done]. Qed.

(** X12.  [PopBack] destroys the last element and nothing else: the other
    elements, the block and the capacity stay, and it cannot raise. *)
Theorem PopBack_removes_last this xs x cap buf s :
  holds s this (xs ++ [x]) cap buf →
  ∃ s',
    PopBack this s = Normal tt s' ∧
    holds s' this xs cap buf ∧
    heap s' = with_block buf (slots xs cap) (heap s) ∧
    world s' = world s ∧
    trace s' = trace s ++ [OpDestroy x].
Proof.
  intros Hh. destruct s as [vs h w tr].
  pose proof Hh as (Hv & Hle & Hbuf). simpl in Hv, Hbuf.
  rewrite length_app in Hle. simpl in Hle.
  assert (outcome (PopBack this) (mkState vs h w tr) (λ _ s',
    holds s' this xs cap buf ∧
    heap s' = with_block buf (slots xs cap) h ∧
    world s' = w ∧ trace s' = tr ++ [OpDestroy x]) (λ _, False)) as Ho.
  { eapply outcome_PopBack; [done|by destruct xs|].
    intros a x' xs' -> [<- <-]%app_inj_tail. unfold holds. simpl.
    rewrite !lookup_insert_eq, length_app. simpl.
    replace (length xs + 1 - 1) with (length xs) by lia.
    split_and!; [done|lia|done|done|done|done]. }
  destruct (outcome_exists _ _ _ Ho) as ([] & s' & Hs' & HQ). by exists s'.
Qed.

(** X13.  An append followed by [PopBack] gives back the elements the vector
    held; the capacity may have grown. *)
Theorem PushBack_then_PopBack this l cap buf args s :
  holds s this l cap buf →
  returns (PushBack this args;; PopBack this) s (λ _ s',
    ∃ cap' buf', holds s' this l cap' buf' ∧ cap ≤ cap').
Proof.
  intros Hh. apply outcome_returns. apply outcome_bind.
  pose proof Hh as (_ & Hle & _).
  eapply outcome_PushBack; [done|]. intros s1 buf1 Hh1 _ _ _.
  destruct s1 as [vs1 h1 w1 tr1].
  eapply outcome_PopBack; [done|by destruct l|].
  intros a x xs -> [<- _]%app_inj_tail.
  exists (if decide (length l = cap) then 1 `max` (2 * cap) else cap), (Some a).
  split; [|case_decide; lia].
  pose proof Hh1 as (_ & Hle1 & _). rewrite length_app in Hle1. simpl in Hle1.
  unfold holds. simpl. rewrite !lookup_insert_eq, length_app. simpl.
  replace (length l + 1 - 1) with (length l) by lia.
  split_and!; [done|lia|done].
Qed.

(** ** Inserting and erasing at the same position *)

Lemma take_drop_inserted l i x :
  i ≤ length l →
  take i (take i l ++ x :: drop i l) ++ drop (S i) (take i l ++ x :: drop i l) = l.
Proof.
  intros Hi.
  assert (length (take i l) = i) as Hlen by (rewrite length_take; lia).
  rewrite take_app_length' by done.
  rewrite (cons_middle x), app_assoc, drop_app_length'
    by (rewrite length_app; simpl; lia).
  apply take_drop.
Qed.

(** X14.  Erasing at the position an insertion returned undoes the insertion:
    the vector holds the elements it held before, and the position returned
    is again the position passed in, relative to the current block. *)
Theorem Emplace_then_Erase this l cap buf i args s :
  holds s this l cap buf → i ≤ length l →
  returns (it ← Emplace this (Ptr buf i) args; Erase this it) s (λ it s',
    ∃ cap' buf', holds s' this l cap' buf' ∧ cap ≤ cap' ∧ it = Ptr buf' i).
Proof.
  intros Hh Hi. apply outcome_returns. apply outcome_bind.
  destruct s as [vs h w tr]. pose proof Hh as (Hv & Hle & Hbuf). simpl in Hv, Hbuf.
  assert (∀ c a vs' h' w' tr',
    length l + 1 ≤ c → cap ≤ c →
    vs' !! this = Some (mkVector (mkRawMemory (Some a) c) (length l + 1)) →
    h' !! a = Some (slots (take i l ++ value_of args :: drop i l) c) →
    outcome (Erase this (Ptr (Some a) i)) (mkState vs' h' w' tr')
      (λ it s', ∃ cap' buf', holds s' this l cap' buf' ∧ cap ≤ cap' ∧ it = Ptr buf' i)
      (λ _, ¬ no_faults)) as HErase.
  { intros c a vs' h' w' tr' Hc Hcap Hv' Ha.
    eapply (outcome_Erase this (take i l ++ value_of args :: drop i l) c (Some a) i).
    - unfold holds. simpl. rewrite inserted_length. split_and!; [done|lia|done].
    - rewrite inserted_length. lia.
    - intros a' x w'' [= <-] _. exists c, (Some a). rewrite take_drop_inserted by done.
      unfold holds. simpl. rewrite !lookup_insert_eq, inserted_length.
      replace (length l + 1 - 1) with (length l) by lia.
      split_and!; [done|lia|done|done|done].
    - intros (y & w0 & _ & Hr) s'. by eapply raises_not_quiet. }
  eapply (outcome_Emplace this l cap buf i args); try done.
  - intros Hfull b w' Hb. eapply HErase; cycle 2.
    + apply lookup_insert_eq.
    + apply lookup_insert_eq.
    + destruct (decide (length l = 0)); lia.
    + destruct (decide (length l = 0)); lia.
  - intros Hlt a w' tr' ->. eapply HErase; cycle 2.
    + apply lookup_insert_eq.
    + apply lookup_insert_eq.
    + lia.
    + lia.
  - intros _ (w0 & Hr) w' tr'. by eapply raises_not_quiet.
  - intros _ (w0 & Hr) w' tr'. by eapply raises_not_quiet.
  - intros _ _ (x & w0 & _ & Hr) w' tr'. by eapply raises_not_quiet.
  - intros _ _ (x & w0 & _ & Hr) w' tr'. by eapply raises_not_quiet.
  - intros _ _ (x & w0 & _ & Hr) blk w' tr' _. by eapply raises_not_quiet.
  - intros _ (o & w0 & Hr) s'. by eapply raises_not_quiet.
Qed.

(** ** Reading the vector *)

(** X15.  What the observers return: the size and the capacity; [begin()] and
    [end()], which are [Size()] apart; and [operator[]], which yields the
    element at an index below the size and fails its assertion at any other
    index, also at one below the capacity.  None of them changes the
    state. *)
Theorem observers_agree this l cap buf s :
  holds s this l cap buf →
  Size this s = Normal (length l) s ∧
  Capacity this s = Normal cap s ∧
  begin this s = Normal (Ptr buf 0) s ∧
  end_ this s = Normal (Ptr buf (length l)) s ∧
  (b ← begin this; e ← end_ this; ptr_diff e b) s = Normal (length l) s ∧
  (∀ i x, l !! i = Some x →
     at_ this i s = Normal (Ptr buf i) s ∧
     (p ← at_ this i; deref p) s = Normal x s) ∧
  (∀ i, l !! i = None → at_ this i s = Undefined).
Proof.
  intros Hh. destruct (holds_observers _ _ _ _ _ Hh) as [HS HC].
  destruct s as [vs h w tr]. pose proof Hh as (Hv & Hle & Hbuf). simpl in Hv, Hbuf.
  assert (end_ this (mkState vs h w tr) = Normal (Ptr buf (length l)) (mkState vs h w tr))
    as He by (by rewrite (end_eq this _ _ _ _ _ Hv)).
  split_and!; [done|done|by rewrite (begin_eq this _ _ _ _ _ Hv)|done| | |].
  - unfold mbind, M_bind. rewrite (begin_eq this _ _ _ _ _ Hv), He. cbn [data_ buffer_].
    rewrite ptr_diff_eq by lia. by rewrite Nat.sub_0_r.
  - intros i x Hx. apply lookup_lt_Some in Hx as Hi.
    assert (at_ this i (mkState vs h w tr) = Normal (Ptr buf i) (mkState vs h w tr)) as Hat.
    { unfold at_, mbind, M_bind. rewrite (get_vec_eq this _ _ _ _ _ Hv).
      cbn [size_ data_]. by rewrite decide_True. }
    split; [done|]. unfold mbind, M_bind. rewrite Hat.
    destruct buf as [a|]; [|lia].
    eapply deref_eq; [done|]. by apply slots_lookup.
  - intros i Hx. apply lookup_ge_None in Hx.
    unfold at_, mbind, M_bind. rewrite (get_vec_eq this _ _ _ _ _ Hv).
    cbn [size_ data_]. rewrite decide_False by lia. done.
Qed.

(** ** Calls outside the preconditions *)

(** X16.  [PopBack] on an empty vector, [Erase] at [end()] or beyond, and
    [operator[]] at the size or beyond have no defined behaviour. *)
Theorem out_of_range_is_undefined this l cap buf s :
  holds s this l cap buf →
  (l = [] → PopBack this s = Undefined) ∧
  (∀ i, length l ≤ i → Erase this (Ptr buf i) s = Undefined) ∧
  (∀ i, length l ≤ i → at_ this i s = Undefined).
Proof.
  intros Hh. destruct s as [vs h w tr].
  pose proof Hh as (Hv & Hle & Hbuf). simpl in Hv, Hbuf.
  split_and!.
  - intros ->. unfold PopBack, mbind, M_bind. by rewrite (get_vec_eq this _ _ _ _ _ Hv).
  - intros i Hi. unfold Erase, mbind, M_bind.
    rewrite (begin_eq this _ _ _ _ _ Hv). cbn [data_ buffer_].
    rewrite ptr_diff_eq by lia. rewrite (end_eq this _ _ _ _ _ Hv). cbn [data_ buffer_ size_].
    unfold std_move, ptr_diff, mbind, M_bind. cbn [base off ptr_add].
    rewrite decide_False; [done|]. lia.
  - intros i Hi. unfold at_, mbind, M_bind. rewrite (get_vec_eq this _ _ _ _ _ Hv).
    cbn [size_ data_]. rewrite decide_False by lia. done.
Qed.

(** ** Copy assignment into the block at hand *)

Lemma outcome_assign_copy_fits this rhs lt capt buft lr capr bufr vs h w tr
    (Q : unit → state T W → Prop) (E : state T W → Prop) :
  this ≠ rhs →
  holds (mkState vs h w tr) this lt capt buft →
  holds (mkState vs h w tr) rhs lr capr bufr →
  length lr ≤ capt →
  (∀ a, buft = Some a → bufr ≠ Some a) →
  (∀ w',
     Q tt (mkState (<[this := mkVector (mkRawMemory buft capt) (length lr)]> vs)
             (with_block buft (slots lr capt) h) w'
             (tr ++ (OpCopyAssign <$> take (length lt) lr) ++
                (OpCopyCtor <$> drop (length lt) lr) ++
                (OpDestroy <$> drop (length lr) lt)))) →
  ((∃ o w0, raises o w0 = true) →
   ∀ lt' w' tr', length lt' = length lt →
     E (mkState vs (with_block buft (slots lt' capt) h) w' tr')) →
  outcome (assign_copy this rhs) (mkState vs h w tr) Q E.
Proof.
  intros Hne Ht Hr Hfit Hdis HQ HE.
  pose proof Ht as (Hvt & Hlet & Hbt). pose proof Hr as (Hvr & Hler & Hbr).
  simpl in Hvt, Hvr, Hbt, Hbr.
  unfold assign_copy. rewrite decide_True by done.
  eapply outcome_bind_eq; [by apply get_vec_eq|].
  eapply outcome_bind_eq; [by apply get_vec_eq|].
  cbn [size_ data_ RawMemory_Capacity capacity_]. rewrite decide_False by lia.
  cbv zeta. unfold GetAddress, ptr_add. cbn [buffer_ base off]. rewrite !Nat.add_0_l.
  destruct (decide (length lr ≤ length lt)) as [Hshort|Hlong].
  - (* the source is not longer: assign, then destroy the excess *)
    rewrite Nat.min_l by done. rewrite Nat.sub_diag.
    destruct (split_at lt (length lr) Hshort) as (pt & st & Hl & Hpt & Htake & Hdrop).
    assert (length lt - length lr = length st) as Hst
      by (subst lt; rewrite length_app; lia).
    rewrite Hdrop in HQ. rewrite take_ge, drop_ge in HQ by done. simpl in HQ.
    apply outcome_bind.
    assert (∀ w1 h1,
      (match buft with
       | None => h1 = h
       | Some a => h1 = <[a := (Some <$> lr) ++ (Some <$> st)
                              ++ replicate (capt - length lt) None]> h
       end) →
      outcome
        (uninitialized_copy_n (Ptr bufr (length lr)) 0 (Ptr buft (length lr));;
         (if decide (length lr < length lt)
          then destroy_n (Ptr buft (length lr)) (length lt - length lr)
          else mret tt);;
         set_size this (length lr))
        (mkState vs h1 w1 (tr ++ (OpCopyAssign <$> lr))) Q E) as Hrest.
    { intros w1 h1 Hh1.
      eapply outcome_bind_eq; [apply uninitialized_loop_zero|].
      destruct buft as [a|].
      - subst h1. rewrite Hst.
        eapply outcome_bind_eq.
        { instantiate (1 := mkState vs
            (<[a := (Some <$> lr) ++ replicate (length st) None
                      ++ replicate (capt - length lt) None]> h) w1
            ((tr ++ (OpCopyAssign <$> lr)) ++ (OpDestroy <$> st))).
          instantiate (1 := tt).
          case_decide.
          - rewrite (destroy_n_eq a (length lr) (length st) (Some <$> lr) st
                       (replicate (capt - length lt) None))
              by (rewrite ?length_fmap, ?lookup_insert_eq; done).
            by rewrite insert_insert_eq.
          - assert (st = []) as -> by (apply nil_length_inv; lia).
            simpl. by rewrite app_nil_r. }
        eapply outcome_eq; [by apply set_size_eq|].
        eapply state_eq; [apply (HQ w1)| |by rewrite <- app_assoc]. simpl. f_equal.
        unfold slots. rewrite <- replicate_add. do 2 f_equal. lia.
      - subst h1. assert (lt = []) as -> by (apply nil_length_inv; lia).
        assert (lr = []) as -> by (apply nil_length_inv; simpl in *; lia).
        assert (st = []) as -> by (apply nil_length_inv; simpl in *; lia).
        eapply outcome_bind_eq; [reflexivity|].
        eapply outcome_eq; [by apply set_size_eq|].
        eapply state_eq; [apply (HQ w1)|done|done]. }
    destruct bufr as [ar|].
    + destruct buft as [at_|].
      * assert (ar ≠ at_) as Hab by (intros ->; by eapply Hdis).
        eapply (outcome_copy_n ar at_ 0 0 [] lr (replicate (capr - length lr) None)
                  [] pt ((Some <$> st) ++ replicate (capt - length lt) None));
          [done|done|done|done|done| | |].
        { rewrite Hbt. unfold slots. subst lt. by rewrite fmap_app, <- app_assoc. }
        { intros w'. by apply Hrest. }
        { intros (x & w0 & _ & Hx) zs w' tr' Hzs.
          eapply state_eq; [apply (HE (ex_intro _ _ (ex_intro _ w0 Hx)) (zs ++ st) w' tr')| |done].
          - subst lt. rewrite !length_app. lia.
          - simpl. f_equal. unfold slots. rewrite fmap_app, <- app_assoc.
            do 3 f_equal. subst lt. rewrite !length_app. lia. }
      * assert (lr = []) as -> by (apply nil_length_inv; lia).
        eapply outcome_eq; [apply copy_n_zero|].
        specialize (Hrest w h eq_refl). simpl in Hrest. by rewrite app_nil_r in Hrest.
    + assert (lr = []) as -> by (apply nil_length_inv; lia).
      eapply outcome_eq; [apply copy_n_zero|].
      assert (outcome
        (uninitialized_copy_n (Ptr None (length (@nil T))) 0 (Ptr buft (length (@nil T)));;
         (if decide (length (@nil T) < length lt)
          then destroy_n (Ptr buft (length (@nil T))) (length lt - length (@nil T))
          else mret tt);;
         set_size this (length (@nil T)))
        (mkState vs h w (tr ++ (OpCopyAssign <$> []))) Q E) as Hrest'.
      { apply Hrest. destruct buft as [a|]; [|done].
        simpl in *. destruct pt; [|done]. simpl in Hl. subst st.
        by rewrite insert_id. }
      simpl in Hrest'. by rewrite app_nil_r in Hrest'.
  - (* the source is longer: assign the common prefix, construct the rest *)
    apply Nat.nle_gt in Hlong. rewrite Nat.min_r by lia.
    destruct buft as [at_|]; [|lia]. destruct bufr as [ar|]; [|lia].
    assert (ar ≠ at_) as Hab by (intros ->; by eapply Hdis).
    destruct (split_at lr (length lt)) as (pr & sr & Hl & Hpr & Htake & Hdrop); [lia|].
    assert (length lr - length lt = length sr) as Hsr
      by (subst lr; rewrite length_app; lia).
    rewrite Htake, Hdrop in HQ. rewrite (drop_ge lt) in HQ by lia. simpl in HQ.
    assert (slots lr capr = (Some <$> pr) ++ (Some <$> sr)
                              ++ replicate (capr - length lr) None) as Hsrc.
    { unfold slots. rewrite Hl at 1. by rewrite fmap_app, <- app_assoc. }
    rewrite Hsrc in Hbr.
    apply outcome_bind. rewrite <- Hpr.
    eapply (outcome_copy_n ar at_ 0 0 [] pr
              ((Some <$> sr) ++ replicate (capr - length lr) None)
              [] lt (replicate (capt - length lt) None));
      [done|done|done|done|done|done| |].
    2:{ intros (x & w0 & _ & Hx) zs w' tr' Hzs.
        eapply state_eq; [apply (HE (ex_intro _ _ (ex_intro _ w0 Hx)) zs w' tr')| |done].
        - lia.
        - simpl. f_equal. unfold slots. do 3 f_equal. lia. }
    intros w'. rewrite Hpr, Hsr.
    apply outcome_bind.
    eapply (outcome_uninitialized_copy_n ar at_ _ _ (length sr) (Some <$> pr) sr
              (replicate (capr - length lr) None)
              (Some <$> pr) (replicate (capt - length lr) None));
      [done|by rewrite length_fmap|by rewrite length_fmap|done
      |by rewrite lookup_insert_ne| | |].
    { rewrite lookup_insert_eq. simpl. rewrite <- replicate_add.
      do 3 f_equal. lia. }
    2:{ intros (x & w0 & _ & Hx) w'' tr''.
        eapply state_eq; [apply (HE (ex_intro _ _ (ex_intro _ w0 Hx)) pr w'' tr'')| |done].
        - done.
        - simpl. f_equal. unfold slots. do 3 f_equal. lia. }
    intros w''. rewrite decide_False by lia.
    eapply outcome_bind_eq; [reflexivity|].
    eapply outcome_eq; [by apply set_size_eq|].
    eapply state_eq; [apply (HQ w'')| |by rewrite app_nil_r, <- app_assoc].
    simpl. rewrite insert_insert_eq. f_equal.
    unfold slots. rewrite Hl at 1. by rewrite fmap_app, <- app_assoc.
Qed.

Lemma holds_other this other lo capo bufo buf v blk vs h w w' tr tr' :
  holds (mkState vs h w tr) other lo capo bufo → this ≠ other →
  (∀ a, buf = Some a → bufo ≠ Some a) →
  holds (mkState (<[this := v]> vs) (with_block buf blk h) w' tr') other lo capo bufo.
Proof.
  intros (Hv & Hle & Hbuf) Hne Hdis. simpl in Hv, Hbuf.
  unfold holds. simpl. rewrite lookup_insert_ne by done.
  split_and!; [done|done|]. destruct bufo as [ao|]; [|done].
  destruct buf as [a|]; [|done]. simpl.
  rewrite lookup_insert_ne; [done|]. intros ->. by eapply Hdis.
Qed.

(** X17.  Copy assignment from a vector that fits in the capacity of the
    destination allocates nothing and keeps the block and the capacity: the
    common prefix is copy-assigned element by element, the rest of the
    source is copy-constructed into raw slots, and the elements of the
    destination beyond the size of the source are destroyed. *)
Theorem copy_assignment_in_place this rhs lt capt buft lr capr bufr s :
  this ≠ rhs →
  holds s this lt capt buft → holds s rhs lr capr bufr →
  length lr ≤ capt →
  (∀ a, buft = Some a → bufr ≠ Some a) →
  returns (assign_copy this rhs) s (λ _ s',
    holds s' this lr capt buft ∧
    holds s' rhs lr capr bufr ∧
    heap s' = with_block buft (slots lr capt) (heap s) ∧
    trace s' = trace s ++ (OpCopyAssign <$> take (length lt) lr) ++
                 (OpCopyCtor <$> drop (length lt) lr) ++
                 (OpDestroy <$> drop (length lr) lt)).
Proof.
  intros Hne Ht Hr Hfit Hdis. apply outcome_returns. destruct s as [vs h w tr].
  pose proof Ht as (Hvt & Hlet & Hbt). simpl in Hvt, Hbt.
  eapply (outcome_assign_copy_fits this rhs lt capt buft lr capr bufr); try done.
  - intros w'. split_and!; [|by eapply holds_other|done|done].
    unfold holds. simpl. rewrite lookup_insert_eq. split_and!; [done|done|].
    destruct buft as [a|]; [|done]. simpl. by rewrite lookup_insert_eq.
  - intros (o & w0 & Hr') lt' w' tr' _. by eapply raises_not_quiet.
Qed.

(** X18.  When a copy raises during such an assignment, the destination is left
    a valid vector of its old size and capacity in its old block, and the
    source is unchanged; the elements of the destination are not promised
    to be the old ones. *)
Theorem copy_assignment_in_place_failure this rhs lt capt buft lr capr bufr s s' :
  this ≠ rhs →
  holds s this lt capt buft → holds s rhs lr capr bufr →
  length lr ≤ capt →
  (∀ a, buft = Some a → bufr ≠ Some a) →
  assign_copy this rhs s = Throws s' →
  ∃ lt',
    length lt' = length lt ∧
    holds s' this lt' capt buft ∧
    holds s' rhs lr capr bufr ∧
    vecs s' = vecs s.
Proof.
  intros Hne Ht Hr Hfit Hdis. destruct s as [vs h w tr].
  pose proof Ht as (Hvt & Hlet & Hbt). simpl in Hvt, Hbt.
  pose proof Hr as (Hvr & Hler & Hbr). simpl in Hvr, Hbr.
  apply (outcome_throws (assign_copy this rhs) (mkState vs h w tr) s' (λ _ _, True)
           (λ s', ∃ lt', length lt' = length lt ∧ holds s' this lt' capt buft ∧
                    holds s' rhs lr capr bufr ∧ vecs s' = vs)).
  eapply (outcome_assign_copy_fits this rhs lt capt buft lr capr bufr); try done.
  intros _ lt' w' tr' Hlen. exists lt'. split_and!; [done| | |done].
  - unfold holds. simpl. rewrite Hlen. split_and!; [done|lia|].
    destruct buft as [a|]; [|done]. simpl. by rewrite lookup_insert_eq.
  - unfold holds. simpl. split_and!; [done|done|].
    destruct bufr as [ar|]; [|done]. destruct buft as [a|]; [|done]. simpl.
    rewrite lookup_insert_ne; [done|]. intros ->. by eapply Hdis.
Qed.

(** ** Other vectors *)


(** ** Raw memory on its own *)

(** X1.  A [RawMemory] of capacity 0 owns no block and allocates nothing.  One
    of a capacity [n > 0] that fits owns a fresh block of [n] raw slots, or
    the allocation raises and the free store is unchanged.  When the object
    goes out of scope the free store is as it was before the object was
    made. *)
Theorem RawMemory_scope n s :
  fits n →
  RawMemory_ctor 0 s = Normal RawMemory_default s ∧
  (n ≠ 0 →
   returns (RawMemory_ctor n) s (λ r s',
     ∃ b, r = mkRawMemory (Some b) n ∧ heap s !! b = None ∧
          heap s' = <[b := replicate n None]> (heap s) ∧
          trace s' = trace s ++ [OpNew n])) ∧
  (∀ s', RawMemory_ctor n s = Throws s' → heap s' = heap s ∧ vecs s' = vecs s) ∧
  returns (r ← RawMemory_ctor n; RawMemory_dtor r) s (λ _ s',
    heap s' = heap s ∧ vecs s' = vecs s).
Proof.
  intros _. destruct s as [vs h w tr].
  assert (n ≠ 0 →
    outcome (RawMemory_ctor n) (mkState vs h w tr)
      (λ r s', ∃ b, r = mkRawMemory (Some b) n ∧ h !! b = None ∧
                    heap s' = <[b := replicate n None]> h ∧
                    trace s' = tr ++ [OpNew n])
      (λ s', ¬ no_faults ∧ heap s' = h ∧ vecs s' = vs)) as Hctor.
  { intros Hn. apply outcome_RawMemory_ctor; [done| |].
    - intros b Hb. by exists b.
    - intros Hr. split; [by eapply raises_not_quiet|done]. }
  split_and!.
  - done.
  - intros Hn. by destruct (outcome_split _ _ _ _ (Hctor Hn)) as [? _].
  - intros s'. destruct (decide (n = 0)) as [->|Hn]; [done|].
    destruct (outcome_split _ _ _ _ (Hctor Hn)) as [_ HT]. apply HT.
  - apply outcome_returns. destruct (decide (n = 0)) as [->|Hn].
    + eapply outcome_bind_eq; [apply RawMemory_ctor_zero|]. done.
    + apply outcome_bind, outcome_RawMemory_ctor; [done| |].
      * intros b Hb. eapply outcome_eq.
        { apply RawMemory_dtor_eq. intros ? [= <-]. rewrite lookup_insert_eq. eauto. }
        simpl. split; [heap_eq|done].
      * intros Hr. by eapply raises_not_quiet.
Qed.

(** ** A whole lifetime *)

Lemma end_of_life_eq this l cap buf vs h w tr :
  holds (mkState vs h w tr) this l cap buf →
  end_of_life this (mkState vs h w tr)
  = Normal tt (mkState (delete this vs) (release buf h) w (tr ++ (OpDestroy <$> l))).
Proof.
  intros (Hv & Hle & Hbuf). simpl in Hv, Hbuf.
  unfold end_of_life, mbind, M_bind.
  by rewrite (get_vec_eq this _ _ _ _ _ Hv), (Vector_dtor_eq l cap buf).
Qed.

Lemma outcome_push_all_balanced this values :
  ∀ l cap buf s (Q : unit → state T W → Prop),
  holds s this l cap buf →
  (∀ s' cap' buf' added,
     holds s' this (l ++ (value_of <$> values)) cap' buf' →
     trace s' = trace s ++ added →
     count_ops is_construction added
     = length values + count_ops is_destruction added →
     release buf' (heap s') = release buf (heap s) →
     delete this (vecs s') = delete this (vecs s) →
     Q tt s') →
  outcome (push_all this values) s Q (λ _, ¬ no_faults).
Proof.
  induction values as [|value values IH]; intros l cap buf s Q Hh HQ.
  - apply outcome_ret. apply (HQ s cap buf []); simpl; rewrite ?app_nil_r; done.
  - cbn [push_all]. apply outcome_bind.
    eapply outcome_PushBack; [done|]. intros s1 buf1 Hh1 Htr1 Hheap1 Hvecs1.
    eapply (IH _ _ _ _ _ Hh1).
    intros s' cap' buf' added Hh' Htr' Hc Hheap' Hvecs'.
    eapply (HQ s' cap' buf').
    + by rewrite fmap_cons, cons_middle, app_assoc.
    + rewrite Htr', Htr1, <- app_assoc. done.
    + rewrite !count_ops_app, Hc. clear Hc. simpl.
      case_decide as Hfull.
      * unfold count_ops at 1 3. cbn [List.filter is_destruction is_construction].
        rewrite (proj2 (ctor_op_quiet value)), ctor_op_constructs. cbn [length].
        fold (count_ops is_destruction
                ((relocate_op <$> l) ++ (OpDestroy <$> (relocated_from <$> l)))).
        fold (count_ops is_construction
                ((relocate_op <$> l) ++ (OpDestroy <$> (relocated_from <$> l)))).
        rewrite !count_ops_app.
        rewrite (count_ops_none is_destruction relocate_op)
          by (intros x; apply relocate_op_quiet).
        rewrite (count_ops_all is_construction relocate_op)
          by apply relocate_op_constructs.
        rewrite (count_ops_none is_construction OpDestroy) by done.
        rewrite (count_ops_all is_destruction OpDestroy) by done.
        rewrite length_fmap. lia.
      * unfold count_ops at 1 3. cbn [List.filter].
        rewrite (proj2 (ctor_op_quiet value)), ctor_op_constructs. simpl. lia.
    + by rewrite Hheap'.
    + by rewrite Hvecs'.
Qed.

(** X21.  A vector that is appended to and then destroyed leaves nothing behind:
    its last block is released, every other block of the free store is as
    before, and each element that was constructed on the way, the
    relocated ones included, has been destroyed: the destructions are the
    constructions plus the elements the vector started with. *)
Theorem lifetime_leaves_nothing this values l cap buf s :
  holds s this l cap buf →
  returns (push_all this values;; end_of_life this) s (λ _ s',
    heap s' = release buf (heap s) ∧
    vecs s' = delete this (vecs s) ∧
    ∃ added,
      trace s' = trace s ++ added ∧
      count_ops is_destruction added = count_ops is_construction added + length l).
Proof.
  intros Hh. apply outcome_returns. apply outcome_bind.
  eapply (outcome_push_all_balanced this values _ _ _ _ _ Hh).
  intros [vs' h' w' tr'] cap' buf' added Hh' Htr' Hc Hheap' Hvecs'.
  simpl in Htr', Hheap', Hvecs'.
  eapply outcome_eq; [by eapply end_of_life_eq|]. simpl.
  split_and!; [done|done|].
  exists (added ++ (OpDestroy <$> (l ++ (value_of <$> values)))).
  rewrite Htr', <- app_assoc. split; [done|].
  rewrite !count_ops_app, Hc.
  rewrite (count_ops_none is_construction OpDestroy) by done.
  rewrite (count_ops_all is_destruction OpDestroy) by done.
  rewrite length_app, length_fmap. lia.
Qed.

(** ** Inserting where there is room *)

(** X22.  An insertion into a vector that is not full stays in the block: the
    capacity and the block are kept, no block is added to the free store,
    and the position returned is the position passed in. *)
Theorem Emplace_in_place_keeps_block this l cap buf i args s :
  holds s this l cap buf → i ≤ length l → length l < cap →
  returns (Emplace this (Ptr buf i) args) s (λ it s',
    holds s' this (take i l ++ value_of args :: drop i l) cap buf ∧
    it = Ptr buf i ∧
    heap s' = with_block buf (slots (take i l ++ value_of args :: drop i l) cap) (heap s)).
Proof.
  intros Hh Hi Hroom. apply outcome_returns. destruct s as [vs h w tr].
  eapply (outcome_Emplace this l cap buf i args); try done; try lia.
  - intros _ a w' tr' ->. unfold holds. simpl.
    rewrite !lookup_insert_eq, inserted_length. split_and!; [done|lia|done|done|done].
  - intros _ (o & w0 & Hr) s'. by eapply raises_not_quiet.
Qed.

(** ** Positions past the end *)

Lemma never_returns_bind {A B} (m : M T W A) (f : A → M T W B) s :
  (∀ a s', m s = Normal a s' → never_returns (f a) s') → never_returns (m ≫= f) s.
Proof.
  intros Hf b s''. unfold mbind, M_bind.
  destruct (m s) as [a s'| |] eqn:Hm; [|done|done]. by apply (Hf a s').
Qed.

Lemma never_returns_first {A B} (m : M T W A) (f : A → M T W B) s :
  never_returns m s → never_returns (m ≫= f) s.
Proof. intros Hm. apply never_returns_bind. intros a s' Hs'. by destruct (Hm a s'). Qed.

Lemma never_returns_outcome {A B} (m : M T W A) (f : A → M T W B) s :
  outcome m s (λ a s', never_returns (f a) s') (λ _, True) → never_returns (m ≫= f) s.
Proof.
  intros Hm. apply never_returns_bind. intros a s' Hs'.
  by apply (outcome_normal m s a s' _ _ Hm).
Qed.

Lemma never_returns_eq {A B} (m : M T W A) (f : A → M T W B) s a s' :
  m s = Normal a s' → never_returns (f a) s' → never_returns (m ≫= f) s.
Proof. intros Hm Hf. apply never_returns_bind. intros ?? Hs'. congruence. Qed.

Lemma never_returns_on_throw {A} (m : M T W A) cleanup s :
  never_returns m s → never_returns (on_throw m cleanup) s.
Proof.
  intros Hm a s'. unfold on_throw. destruct (m s) as [a0 s0|s0|] eqn:Hs.
  - by destruct (Hm a0 s0).
  - by destruct (cleanup s0).
  - done.
Qed.

Lemma never_returns_ext {A} (m m' : M T W A) s :
  m s = m' s → never_returns m' s → never_returns m s.
Proof. unfold never_returns. by intros ->. Qed.

Lemma never_returns_ub {A} s : never_returns (@ub T W A) s.
Proof. done. Qed.

Lemma deref_raw buf i s :
  (∀ a blk x, buf = Some a → heap s !! a = Some blk → blk !! i ≠ Some (Some x)) →
  deref (Ptr buf i) s = Undefined.
Proof.
  intros Hraw. unfold deref, read_slot, mbind, M_bind. simpl.
  destruct buf as [a|]; [|done].
  destruct (heap s !! a) as [blk|] eqn:Ha; [|done].
  destruct (blk !! i) as [[x|]|] eqn:Hi; [|done|done].
  by destruct (Hraw a blk x).
Qed.

Lemma uninitialized_loop_split build n1 : ∀ n2 b i first d s,
  uninitialized_loop build (Ptr b i) (n1 + n2) first d s
  = (uninitialized_loop build (Ptr b i) n1 first d;;
     uninitialized_loop build (Ptr b (i + n1)) n2 first (d + n1)) s.
Proof.
  induction n1 as [|n1 IH]; intros n2 b i first d s.
  - unfold mbind, M_bind. simpl. by rewrite !Nat.add_0_r.
  - cbn [Nat.add uninitialized_loop]. unfold mbind, M_bind.
    destruct (on_throw _ _ s) as [[] s1| |]; [|done|done].
    unfold ptr_add. cbn [base off].
    rewrite IH. unfold mbind, M_bind.
    replace (i + 1 + n1) with (i + S n1) by lia.
    by replace (S d + n1) with (d + S n1) by lia.
Qed.

(** Relocating more objects than the vector holds reads a raw slot. *)
Lemma MoveItemsInNewMemory_past_end l cap buf b n dpost vs h w tr :
  length l ≤ cap →
  match buf with None => cap = 0 | Some a => h !! a = Some (slots l cap) end →
  h !! b = Some (replicate (length l) None ++ dpost) →
  (∀ a, buf = Some a → a ≠ b) →
  length l < n →
  never_returns (MoveItemsInNewMemory (Ptr buf 0) (Ptr (Some b) 0) n) (mkState vs h w tr).
Proof.
  intros Hle Hbuf Hb Hab Hn.
  assert (∀ build s',
    (∀ a blk x, buf = Some a → heap s' !! a = Some blk →
                blk !! length l ≠ Some (Some x)) →
    (∀ to from s'', deref from s'' = Undefined → build to from s'' = Undefined) →
    never_returns
      (uninitialized_loop build (Ptr buf (0 + length l)) (n - length l)
         (Ptr (Some b) 0) (0 + length l)) s') as Hpast.
  { intros build s' Hraw Hbuild.
    destruct (n - length l) as [|k] eqn:Hk; [lia|].
    cbn [uninitialized_loop]. apply never_returns_first, never_returns_on_throw.
    intros a0 s0. rewrite Hbuild; [done|]. by apply deref_raw. }
  assert (∀ to from s'', deref from s'' = Undefined →
            copy_construct to from s'' = Undefined) as Hcopy.
  { intros to from s'' Hd. unfold copy_construct, mbind, M_bind. by rewrite Hd. }
  assert (∀ to from s'', deref from s'' = Undefined →
            move_construct to from s'' = Undefined) as Hmove.
  { intros to from s'' Hd. unfold move_construct, mbind, M_bind. by rewrite Hd. }
  unfold MoveItemsInNewMemory. apply never_returns_first.
  replace n with (length l + (n - length l)) by lia.
  destruct buf as [a|].
  - assert (a ≠ b) as Hne by (by apply Hab).
    assert (∀ pre x, (pre ++ replicate (cap - length l) None) !! length l
                     ≠ Some (Some x) ∨ length pre ≠ length l) as Hslot.
    { intros pre x. destruct (decide (length pre = length l)) as [Hp|]; [left|by right].
      rewrite lookup_app_r by lia. rewrite Hp, Nat.sub_diag.
      destruct (cap - length l); done. }
    destruct (is_nothrow_move_constructible || negb is_copy_constructible).
    + unfold uninitialized_move_n.
      eapply never_returns_ext; [apply uninitialized_loop_split|].
      apply never_returns_outcome.
      eapply (outcome_uninit_move_loop a b 0 0 0 [] l (replicate (cap - length l) None)
                [] [] dpost); [done|done|done|done|done|done| |done].
      intros w'. apply Hpast; [|done]. simpl.
      intros a' blk x [= <-]. rewrite lookup_insert_ne, lookup_insert_eq by done.
      intros [= <-].
      destruct (Hslot (Some <$> (moved_from <$> l)) x) as [?|Hl]; [done|].
      by rewrite !length_fmap in Hl.
    + unfold uninitialized_copy_n.
      eapply never_returns_ext; [apply uninitialized_loop_split|].
      apply never_returns_outcome.
      eapply (outcome_uninit_copy_loop a b 0 0 0 [] l (replicate (cap - length l) None)
                [] [] dpost); [done|done|done|done|done|done| |done].
      intros w'. apply Hpast; [|done]. simpl.
      intros a' blk x [= <-]. rewrite lookup_insert_ne by done. rewrite Hbuf.
      intros [= <-].
      destruct (Hslot (Some <$> l) x) as [?|Hl]; [done|].
      by rewrite !length_fmap in Hl.
  - assert (l = []) as -> by (apply nil_length_inv; lia). simpl in *.
    destruct n as [|k]; [lia|].
    destruct (is_nothrow_move_constructible || negb is_copy_constructible).
    + unfold uninitialized_move_n. cbn [uninitialized_loop].
      apply never_returns_first, never_returns_on_throw.
      intros a0 s0. by rewrite Hmove.
    + unfold uninitialized_copy_n. cbn [uninitialized_loop].
      apply never_returns_first, never_returns_on_throw.
      intros a0 s0. by rewrite Hcopy.
Qed.

(** X23.  [Emplace] (and so [Insert]) at a position past [end()] never returns
    normally: the relocation, or the shift of the tail, reads a slot that
    holds no object, unless the allocation or a constructor has raised
    before. *)
Theorem Emplace_past_end_never_returns this l cap buf i args s :
  holds s this l cap buf → length l < i →
  never_returns (Emplace this (Ptr buf i) args) s ∧
  never_returns (Insert this (Ptr buf i) args) s.
Proof.
  intros Hh Hi.
  enough (never_returns (Emplace this (Ptr buf i) args) s) as Hnever by done.
  destruct s as [vs h w tr]. pose proof Hh as (Hv & Hle & Hbuf). simpl in Hv, Hbuf.
  unfold Emplace.
  eapply never_returns_eq; [by apply begin_eq|]. cbn [data_ buffer_].
  eapply never_returns_eq; [apply ptr_diff_eq; lia|]. rewrite Nat.sub_0_r.
  eapply never_returns_eq; [by apply get_vec_eq|].
  eapply never_returns_eq; [by apply Capacity_eq|]. cbn [data_ capacity_ size_].
  apply never_returns_first.
  case_decide as Hfull.
  - (* reallocation *)
    unfold InsertWithReallocate.
    eapply never_returns_eq; [by apply get_vec_eq|]. cbn [size_ data_].
    set (c := if decide (length l = 0) then 1 else length l * 2).
    assert (c ≠ 0) as Hc by (subst c; case_decide; lia).
    apply never_returns_outcome. apply outcome_RawMemory_ctor; [done| |done].
    intros b Hb. apply never_returns_first, never_returns_on_throw.
    unfold GetAddress, ptr_add. cbn [buffer_ base off]. rewrite !Nat.add_0_l.
    destruct (decide (i < c)) as [Hic|Hic].
    + apply never_returns_outcome.
      eapply outcome_construct_from;
        [apply lookup_insert_eq|by rewrite length_replicate| |done].
      intros _. apply never_returns_first.
      eapply (MoveItemsInNewMemory_past_end l cap buf b i
                (<[i - length l := Some (value_of args)]>
                   (replicate (c - length l) None))); [done| | | |done].
      * destruct buf as [a|]; [|done]. rewrite !lookup_insert_ne; [done| |];
          intros ->; congruence.
      * rewrite insert_insert_eq, lookup_insert_eq. f_equal.
        rewrite (replicate_split c (length l)) by lia.
        rewrite insert_app_r_alt by (rewrite length_replicate; lia).
        by rewrite length_replicate.
      * intros a -> ->. congruence.
    + apply never_returns_first.
      intros a0 s0. unfold construct_from, fault, construct_at, read_slot, mbind, M_bind.
      simpl. destruct (raises _ _); [done|]. simpl.
      rewrite lookup_insert_eq, lookup_ge_None_2; [done|rewrite length_replicate; lia].
  - (* insertion in place *)
    assert (length l < cap ∧ i ≠ cap) as [Hroom Hicap] by lia.
    destruct buf as [a|]; [|lia].
    unfold InsertInPlace.
    eapply never_returns_eq; [by apply get_vec_eq|]. cbn [size_ data_].
    rewrite decide_False by lia.
    apply never_returns_outcome. apply outcome_fault; [|done].
    intros _. apply never_returns_first, never_returns_on_throw.
    eapply never_returns_eq; [by apply begin_eq|]. cbn [data_ buffer_].
    unfold GetAddress, ptr_add. cbn [buffer_ base off]. rewrite !Nat.add_0_l.
    destruct (decide (length l = 0)) as [Hz|Hnz].
    { apply never_returns_first. intros a0 s0. unfold ptr_sub. simpl.
      by rewrite decide_False by lia. }
    eapply never_returns_eq; [apply ptr_sub_eq; lia|].
    destruct (lookup_lt_is_Some_2 l (length l - 1)) as [x Hx]; [lia|].
    apply never_returns_outcome.
    eapply (outcome_move_construct_same a (length l - 1) (length l) _ x);
      [done|by apply slots_lookup|by rewrite slots_length| |done].
    intros _.
    eapply never_returns_eq; [by apply end_eq|]. cbn [data_ buffer_ size_].
    eapply never_returns_eq; [apply ptr_sub_eq; lia|].
    apply never_returns_first, never_returns_first.
    intros a0 s0. unfold ptr_diff. simpl. rewrite decide_False; [done|lia].
Qed.

(** ** Reserving before appending *)

(** X24.  After [Reserve n], for a capacity that fits, appends up to a size of
    [n] do not move the elements: [begin()] is the same before and after
    them, so pointers and iterators obtained after the reservation stay
    valid, and the capacity is the one reserved. *)
Theorem Reserve_then_pushes this values l cap buf n s :
  holds s this l cap buf → length l + length values ≤ n →
  (cap < n → fits n) →
  returns (Reserve this n;;
           b ← begin this;
           push_all this values;;
           b' ← begin this;
           mret (b, b')) s (λ bb s',
    bb.1 = bb.2 ∧
    ∃ buf',
      bb.1 = Ptr buf' 0 ∧
      holds s' this (l ++ (value_of <$> values)) (cap `max` n) buf').
Proof.
  intros Hh Hfit _. apply outcome_returns. apply outcome_bind.
  destruct s as [vs h w tr]. pose proof Hh as (Hv & Hle & Hbuf). simpl in Hv, Hbuf.
  assert (∀ c buf0 vs0 h0 w0 tr0,
    holds (mkState vs0 h0 w0 tr0) this l c buf0 → length l + length values ≤ c →
    outcome (b ← begin this; push_all this values;; b' ← begin this; mret (b, b'))
      (mkState vs0 h0 w0 tr0)
      (λ bb s', bb.1 = bb.2 ∧
         ∃ buf', bb.1 = Ptr buf' 0 ∧ holds s' this (l ++ (value_of <$> values)) c buf')
      (λ _, ¬ no_faults)) as Hrest.
  { intros c buf0 vs0 h0 w0 tr0 Hh0 Hc. pose proof Hh0 as (Hv0 & _ & _). simpl in Hv0.
    eapply outcome_bind_eq; [by apply begin_eq|]. cbn [data_ buffer_].
    apply outcome_bind.
    eapply outcome_pushes_in_place; [done|done| |].
    - intros vs' h' w' Hh'. pose proof Hh' as (Hv' & _ & _). simpl in Hv'.
      eapply outcome_bind_eq; [by apply begin_eq|]. cbn [data_ buffer_].
      apply outcome_ret. simpl. split; [done|]. by exists buf0.
    - intros done failed rest vs' h' w1 w' _ Hr _. by eapply raises_not_quiet. }
  eapply outcome_Reserve; try done.
  - intros Hn. rewrite Nat.max_l by done. eapply Hrest; [done|lia].
  - intros Hn b w' Hb. rewrite Nat.max_r by lia. eapply (Hrest n (Some b)); [|done].
    unfold holds. simpl. rewrite !lookup_insert_eq. split_and!; [done|lia|done].
  - intros _ (w0 & Hr) w' tr'. by eapply raises_not_quiet.
  - intros _ _ (x & w0 & _ & Hr) w' tr'. by eapply raises_not_quiet.
  - intros _ _ (x & w0 & _ & Hr) l' w' tr' _. by eapply raises_not_quiet.
Qed.

(** ** Resize that fails *)

Lemma outcome_Resize_failure this l cap buf n vs h w tr :
  holds (mkState vs h w tr) this l cap buf →
  (relocate_by_move = true → ∀ x w0, raises (OpMoveCtor x) w0 = false) →
  outcome (Resize this n) (mkState vs h w tr) (λ _ _, True)
    (λ s', ∃ cap' buf', holds s' this l cap' buf' ∧ (cap' = cap ∨ cap' = n)).
Proof.
  intros Hh Hmove.
  pose proof Hh as (Hv & Hle & Hbuf). simpl in Hv, Hbuf.
  unfold Resize.
  eapply outcome_bind_eq; [by apply get_vec_eq|]. cbn [size_ data_].
  unfold GetAddress, ptr_add. cbn [buffer_ base off]. rewrite Nat.add_0_l.
  destruct (decide (n < length l)) as [Hlt|Hge].
  - (* shrink: nothing raises *)
    rewrite (decide_False (P := length l < n)) by lia.
    destruct buf as [a|]; [|lia].
    destruct (split_at l n) as (pl & sl & Hl & Hpl & Htake & Hdrop); [lia|].
    eapply outcome_bind_eq.
    { eapply (destroy_n_eq a n (length l - n) (Some <$> pl) sl
                (replicate (cap - length l) None));
        [by rewrite length_fmap|subst l; rewrite length_app; lia|].
      rewrite Hbuf. unfold slots. rewrite Hl at 1. by rewrite fmap_app, <- app_assoc. }
    eapply outcome_bind_eq; [reflexivity|].
    eapply outcome_eq; [by apply set_size_eq|]. done.
  - eapply outcome_bind_eq; [reflexivity|].
    destruct (decide (length l < n)) as [Hgt|Heq].
    + (* grow *)
      apply outcome_bind.
      eapply outcome_bind_eq; [by apply Capacity_eq|]. cbn [data_ capacity_].
      destruct (decide (cap < n)) as [Hre|Hfit].
      * apply outcome_bind.
        eapply outcome_Reserve; [done|lia| | | |].
        2:{ intros _ _ w' tr'. exists cap, buf. split; [done|by left]. }
        2:{ intros _ _ _ w' tr'. exists cap, buf. split; [done|by left]. }
        2:{ intros _ Hm (x & w0 & _ & Hr). by rewrite (Hmove Hm) in Hr. }
        intros _ b w' Hb.
        eapply outcome_bind_eq; [apply get_vec_eq, lookup_insert_eq|].
        cbn [size_ data_ buffer_]. unfold GetAddress, ptr_add. cbn [buffer_ base off].
        rewrite Nat.add_0_l.
        eapply (outcome_uninitialized_value_construct_n b _ _ (Some <$> l) []);
          [by rewrite length_fmap
          |rewrite lookup_insert_eq; unfold slots; by rewrite app_nil_r| |].
        2:{ intros _ w'' tr''. exists n, (Some b). split; [|by right].
            unfold holds. simpl. rewrite !lookup_insert_eq. split_and!; [done|lia|done]. }
        intros w''. eapply outcome_eq; [apply set_size_eq, lookup_insert_eq|]. done.
      * eapply outcome_bind_eq; [reflexivity|].
        eapply outcome_bind_eq; [by apply get_vec_eq|].
        cbn [size_ data_ buffer_]. unfold GetAddress, ptr_add. cbn [buffer_ base off].
        rewrite Nat.add_0_l.
        destruct buf as [a|]; [|lia].
        eapply (outcome_uninitialized_value_construct_n a _ _ (Some <$> l)
                  (replicate (cap - n) None));
          [by rewrite length_fmap| | |].
        { rewrite Hbuf. unfold slots. rewrite <- replicate_add. do 3 f_equal. lia. }
        2:{ intros _ w' tr'. exists cap, (Some a). split; [done|by left]. }
        intros w'. eapply outcome_eq; [by apply set_size_eq|]. done.
    + (* same size *)
      eapply outcome_bind_eq; [reflexivity|].
      eapply outcome_eq; [by apply set_size_eq|]. done.
Qed.

(** X25.  When [Resize] exits by an exception, the vector holds the elements it
    held before, in the same order, and its size is unchanged, for an
    element type that is nothrow-move-constructible or copyable; only the
    capacity may have grown to the requested size, when the reallocation
    had succeeded and a value-initialisation raised.  A size beyond the
    capacity has to fit. *)
Theorem Resize_failure_keeps_elements this l cap buf n s s' :
  holds s this l cap buf →
  is_nothrow_move_constructible = true ∨ is_copy_constructible = true →
  (cap < n → fits n) →
  Resize this n s = Throws s' →
  ∃ cap' buf',
    holds s' this l cap' buf' ∧
    Size this s' = Normal (length l) s' ∧
    (cap' = cap ∨ cap' = n).
Proof.
  intros Hh Htype _ Hs'. destruct s as [vs h w tr].
  destruct (outcome_throws (Resize this n) (mkState vs h w tr) s' _ _
              (outcome_Resize_failure this l cap buf n vs h w tr Hh
                 (relocate_by_move_nothrow Htype)) Hs')
    as (cap' & buf' & Hh' & Hcap).
  exists cap', buf'. split_and!; [done| |done].
  by destruct (holds_observers _ _ _ _ _ Hh') as [-> _].
Qed.

(** ** Erasing and inserting back; growing and shrinking back *)

Lemma take_drop_erased l i x :
  l !! i = Some x →
  take i (take i l ++ drop (S i) l) ++ x :: drop i (take i l ++ drop (S i) l) = l.
Proof.
  intros Hx. apply lookup_lt_Some in Hx as Hi.
  assert (length (take i l) = i) as Hlen by (rewrite length_take; lia).
  rewrite take_app_length', drop_app_length' by done.
  by apply take_drop_middle.
Qed.

(** X26.  Inserting an element back at the position [Erase] returned, with the
    value that was erased, restores the vector: the same elements in the
    same block with the same capacity, and no reallocation. *)
Theorem Erase_then_Emplace this l cap buf i args s :
  holds s this l cap buf → l !! i = Some (value_of args) →
  returns (it ← Erase this (Ptr buf i); Emplace this it args) s (λ it s',
    holds s' this l cap buf ∧ it = Ptr buf i ∧
    heap s' = with_block buf (slots l cap) (heap s)).
Proof.
  intros Hh Hx. apply lookup_lt_Some in Hx as Hi.
  apply outcome_returns. apply outcome_bind.
  destruct s as [vs h w tr]. pose proof Hh as (Hv & Hle & Hbuf). simpl in Hv, Hbuf.
  eapply outcome_Erase; try done.
  2:{ intros (y & w0 & _ & Hr) s'. by eapply raises_not_quiet. }
  intros a x w' -> _.
  eapply (outcome_Emplace this (take i l ++ drop (S i) l) cap (Some a) i args).
  - unfold holds. simpl. rewrite !lookup_insert_eq, erased_length by done.
    split_and!; [done|lia|done].
  - rewrite erased_length by done. lia.
  - rewrite erased_length by done. intros Hfull. lia.
  - intros _ a' w'' tr'' [= <-]. rewrite take_drop_erased by done.
    unfold holds. simpl. rewrite !lookup_insert_eq, erased_length by done.
    replace (length l - 1 + 1) with (length l) by lia.
    split_and!; [done|done|done|done|]. by rewrite insert_insert_eq.
  - rewrite erased_length by done. intros Hfull. lia.
  - rewrite erased_length by done. intros Hfull. lia.
  - rewrite erased_length by done. intros Hfull. lia.
  - rewrite erased_length by done. intros Hfull. lia.
  - rewrite erased_length by done. intros Hfull. lia.
  - intros _ (o & w0 & Hr) s'. by eapply raises_not_quiet.
Qed.

(** X27.  Growing a vector with [Resize], to a size that fits, and shrinking it
    back to its old size restores its elements; the capacity may have grown
    on the way and is not given back. *)
Theorem Resize_grow_then_shrink this l cap buf n s :
  holds s this l cap buf → length l ≤ n →
  (cap < n → fits n) →
  returns (Resize this n;; Resize this (length l)) s (λ _ s',
    ∃ buf', holds s' this l (cap `max` n) buf').
Proof.
  intros Hh Hn _. apply outcome_returns. apply outcome_bind.
  destruct s as [vs h w tr]. pose proof Hh as (Hv & Hle & Hbuf). simpl in Hv, Hbuf.
  assert (∀ c buf0 vs0 h0 w0 tr0,
    holds (mkState vs0 h0 w0 tr0) this (l ++ replicate (n - length l) value_init) c buf0 →
    outcome (Resize this (length l)) (mkState vs0 h0 w0 tr0)
      (λ _ s', holds s' this l c buf0) (λ _, ¬ no_faults)) as Hback.
  { intros c buf0 vs0 h0 w0 tr0 Hh0.
    pose proof Hh0 as (Hv0 & Hle0 & Hbuf0). simpl in Hv0, Hbuf0.
    rewrite length_app, length_replicate in Hle0.
    eapply outcome_Resize; [done| | | |].
    - intros _. rewrite take_app_length. unfold holds. simpl.
      rewrite lookup_insert_eq. split_and!; [done|lia|].
      destruct buf0 as [a|]; [|done]. simpl. by rewrite lookup_insert_eq.
    - rewrite length_app. lia.
    - rewrite length_app. lia.
    - intros (o & w1 & Hr) s'. by eapply raises_not_quiet. }
  eapply outcome_Resize; [done| | | |].
  - intros Hshrink. assert (n = length l) as -> by lia.
    rewrite Nat.max_l by lia.
    eapply outcome_mono; [eapply (Hback cap buf)| |done].
    + rewrite Nat.sub_diag, take_ge by done. simpl. rewrite app_nil_r.
      unfold holds. simpl. rewrite lookup_insert_eq. split_and!; [done|done|].
      destruct buf as [a|]; [|done]. simpl. by rewrite lookup_insert_eq.
    + intros ? s' Hs'. by exists buf.
  - intros Hgrow Hfit w'. rewrite Nat.max_l by done.
    eapply outcome_mono; [eapply (Hback cap buf)| |done].
    + unfold holds. simpl. rewrite lookup_insert_eq, length_app, length_replicate.
      split_and!; [do 2 f_equal; lia|lia|].
      destruct buf as [a|]; [|lia]. simpl. by rewrite lookup_insert_eq.
    + intros ? s' Hs'. by exists buf.
  - intros Hre b w' Hb. rewrite Nat.max_r by lia.
    eapply outcome_mono; [eapply (Hback n (Some b))| |done].
    + unfold holds. simpl. rewrite !lookup_insert_eq, length_app, length_replicate.
      split_and!; [do 2 f_equal; lia|lia|done].
    + intros ? s' Hs'. by exists (Some b).
  - intros (o & w0 & Hr) s'. by eapply raises_not_quiet.
Qed.

End coverage.

(** * Examples *)

Section with_plain.
#[local] Existing Instance plain.

Lemma Emplace_inserts_witness :
  let inserted (s' : state nat unit) :=
    ∃ cap' buf' s_mid,
      holds s' 0 [1; 42; 2] cap' buf' ∧
      size_ <$> vecs s' !! 0 = Some 3 ∧
      InsertWithReallocate 0 1 (CopyOf 42) (one_vector [1; 2] 2) = Normal tt s_mid ∧
      size_ <$> vecs s_mid !! 0 = Some 2 ∧
      heap s_mid = heap s' ∧
      incr_size 0 s_mid = Normal tt s' in
  returns (Emplace 0 (Ptr (Some 0) 1) (CopyOf 42)) (one_vector [1; 2] 2)
    (λ _ s', inserted s') ∧
  returns (Insert 0 (Ptr (Some 0) 1) (CopyOf 42)) (one_vector [1; 2] 2)
    (λ _ s', inserted s').
Proof.
  refine (Emplace_inserts 0 [1; 2] 2 (Some 0) 1 (CopyOf 42) (one_vector [1; 2] 2) _ _).
  - unfold holds. split_and!; [vm_compute; reflexivity|simpl; lia|vm_compute; reflexivity].
  - simpl. lia.
Defined.

Lemma Erase_removes_witness :
  returns (Erase 0 (Ptr (Some 0) 0)) (one_vector [1; 42; 2] 4) (λ _ s',
    holds s' 0 [42; 2] 4 (Some 0) ∧
    vecs s' !! 0 = Some (mkVector (mkRawMemory (Some 0) 4) 2) ∧
    dom (heap s') = dom (heap (one_vector [1; 42; 2] 4)) ∧
    trace s' = [OpMoveAssign 42; OpMoveAssign 2; OpDestroy 2]).
Proof.
  refine (Erase_removes 0 [1; 42; 2] 4 (Some 0) 0 (one_vector [1; 42; 2] 4) _ _).
  - unfold holds. split_and!; [vm_compute; reflexivity|simpl; lia|vm_compute; reflexivity].
  - simpl. lia.
Defined.

Lemma growth_doubles_witness :
  let grown (s' : state nat unit) :=
    ∃ b blk tr',
      vecs s' !! 0 = Some (mkVector (mkRawMemory (Some b) 4) 3) ∧
      heap (one_vector [1; 2] 2) !! b = None ∧ heap s' !! b = Some blk ∧ length blk = 4 ∧
      trace s' = OpNew 4 :: tr' ∧
      (∀ n, OpNew n ∉ tr') in
  returns (Emplace 0 (Ptr (Some 0) 1) (CopyOf 42)) (one_vector [1; 2] 2)
    (λ _ s', grown s') ∧
  returns (EmplaceBack 0 (CopyOf 42)) (one_vector [1; 2] 2) (λ _ s', grown s') ∧
  returns (PushBack 0 (CopyOf 42)) (one_vector [1; 2] 2) (λ _ s', grown s').
Proof.
  refine (growth_doubles 0 [1; 2] 2 (Some 0) 1 (CopyOf 42) (one_vector [1; 2] 2) _ _ _).
  - unfold holds. split_and!; [vm_compute; reflexivity|simpl; lia|vm_compute; reflexivity].
  - reflexivity.
  - simpl. lia.
Defined.


Lemma returned_positions_witness :
  let at_index (j : nat) (it : ptr) (s' : state nat unit) :=
    ∃ b, begin 0 s' = Normal b s' ∧ it = b +ₚ j in
  (1 ≤ 3 →
   returns (Emplace 0 (Ptr (Some 0) 1) (CopyOf 7)) (one_vector [1; 42; 2] 4) (λ it s',
     at_index 1 it s' ∧ deref it s' = Normal 7 s') ∧
   returns (Insert 0 (Ptr (Some 0) 1) (CopyOf 7)) (one_vector [1; 42; 2] 4) (λ it s',
     at_index 1 it s' ∧ deref it s' = Normal 7 s')) ∧
  (1 < 3 →
   returns (Erase 0 (Ptr (Some 0) 1)) (one_vector [1; 42; 2] 4) (λ it s',
     at_index 1 it s' ∧
     (∀ y, [1; 42; 2] !! 2 = Some y → deref it s' = Normal y s') ∧
     (2 = 3 → end_ 0 s' = Normal it s'))) ∧
  returns (EmplaceBack 0 (CopyOf 7)) (one_vector [1; 42; 2] 4) (λ r s',
    at_index 3 r s' ∧
    size_ <$> vecs s' !! 0 = Some 4 ∧
    deref r s' = Normal 7 s').
Proof.
  refine (returned_positions 0 [1; 42; 2] 4 (Some 0) 1 (CopyOf 7)
            (one_vector [1; 42; 2] 4) _).
  unfold holds. split_and!; [vm_compute; reflexivity|simpl; lia|vm_compute; reflexivity].
Defined.
End with_plain.

Section with_fragile.
#[local] Existing Instance fragile.

Lemma strong_guarantee_witness :
  ∃ s', Reserve 0 4 (one_vector [1; 13] 2) = Throws s' ∧
        vecs s' = vecs (one_vector [1; 13] 2) ∧ heap s' = heap (one_vector [1; 13] 2).
Proof.
  eexists. split; [vm_compute; reflexivity|].
  refine (proj1 (strong_guarantee 0 [1; 13] 2 (Some 0) (one_vector [1; 13] 2) _) _ 4 _ _ _).
  - unfold holds. split_and!; [vm_compute; reflexivity|simpl; lia|vm_compute; reflexivity].
  - right. reflexivity.
  - intros _. vm_compute. reflexivity.
  - vm_compute. reflexivity.
Defined.

Lemma copy_assignment_reallocating_witness :
  ∃ s', assign_copy 0 1 (two_vectors [5] [1; 13]) = Throws s' ∧
        vecs s' = vecs (two_vectors [5] [1; 13]) ∧
        heap s' = heap (two_vectors [5] [1; 13]).
Proof.
  eexists. split; [vm_compute; reflexivity|].
  refine (proj1 (proj2 (copy_assignment_reallocating 0 1 [5] 1 (Some 0) [1; 13] 2 (Some 1)
                          (two_vectors [5] [1; 13]) _ _ _ _)) _ _).
  - lia.
  - unfold holds. split_and!; [vm_compute; reflexivity|simpl; lia|vm_compute; reflexivity].
  - unfold holds. split_and!; [vm_compute; reflexivity|simpl; lia|vm_compute; reflexivity].
  - simpl. lia.
  - vm_compute. reflexivity.
Defined.

(** C5: the failing run.  Starting from nothing, two [EmplaceBack] build
    the full vector [1; 13]; [Insert] at index 1 then reallocates, the copy
    of 13 raises, and the exception leaves a vector of size 2 whose slot 0
    was already destroyed: no list of elements describes it, and running
    its destructor destroys slot 0 a second time. *)
Theorem failed_Insert_leaves_destroyed_slot :
  let after :=
    mkState {[ 0 := mkVector (mkRawMemory (Some 1) 2) 2 ]}
            {[ 1 := [None; Some 13] ]} tt
            [OpNew 1; OpCtor 1; OpNew 2; OpCtor 13; OpCopyCtor 1; OpDestroy 1;
             OpNew 4; OpCopyCtor 7; OpCopyCtor 1; OpDestroy 1; OpCopyCtor 13] in
  (declare 0 (mret Vector_default);;
   EmplaceBack 0 (FromArgs 1);;
   EmplaceBack 0 (FromArgs 13);;
   b ← begin 0;
   Insert 0 (b +ₚ 1) (CopyOf 7)) empty_state = Throws after ∧
  end_of_life 0 after = Undefined ∧
  ∀ l cap buf, ¬ holds after 0 l cap buf.
Proof.
  split_and!; [vm_compute; reflexivity|vm_compute; reflexivity|].
  intros l cap buf (Hv & Hle & Hbuf). simpl in Hv.
  rewrite lookup_singleton_eq in Hv. injection Hv as <- <- Hl.
  simpl in Hbuf. rewrite lookup_singleton_eq in Hbuf. injection Hbuf as Hs.
  destruct l as [|x l]; [done|]. done.
Qed.

(** C1: a reallocating [Emplace] that fails without the strong guarantee.
    The element type is copyable and its move constructor is not
    [noexcept], so relocation copies.  The vector holds [1; 13] and is
    full; [Emplace] at index 1 reallocates.  [InsertWithReallocate] copies
    the original 1 into the new block and destroys it, then the copy of 13
    raises.  The exception leaves the vector with its size and capacity but
    with slot 0 of its block destroyed: the element 1 is lost and the
    original storage is not untouched.  The new block is released with the
    new element 7 and the copy of 1 in it: the only object destroyed is the
    original 1.  [Reserve] on the same vector fails at the same copy and
    leaves the block as it was. *)
Theorem failed_Emplace_loses_an_element :
  let before := one_vector [1; 13] 2 in
  let after :=
    mkState {[ 0 := mkVector (mkRawMemory (Some 0) 2) 2 ]}
            {[ 0 := [None; Some 13] ]} tt
            [OpNew 4; OpCopyCtor 7; OpCopyCtor 1; OpDestroy 1; OpCopyCtor 13] in
  is_copy_constructible = true ∧
  holds before 0 [1; 13] 2 (Some 0) ∧
  Emplace 0 (Ptr (Some 0) 1) (CopyOf 7) before = Throws after ∧
  vecs after = vecs before ∧
  heap before !! 0 = Some [Some 1; Some 13] ∧
  heap after !! 0 = Some [None; Some 13] ∧
  List.filter is_destruction (trace after) = [OpDestroy 1] ∧
  Reserve 0 4 before
  = Throws (mkState (vecs before) (heap before) tt
              [OpNew 4; OpCopyCtor 1; OpCopyCtor 13; OpDestroy 1]).
Proof.
  split_and!; try (vm_compute; reflexivity).
  unfold holds. split_and!; [vm_compute; reflexivity|simpl; lia|vm_compute; reflexivity].
Qed.

(** C6: a relocation by copy that does not leave the originals untouched
    until it has succeeded.  With the same element type, [Emplace] at
    index 1 of the full vector [1; 2] returns normally, and its trace shows
    the original 1 destroyed before the original 2 has been copied:
    [InsertWithReallocate] relocates in two calls of
    [MoveItemsInNewMemory], and each call destroys its originals.
    [Reserve], which relocates in one call, copies both elements before it
    destroys either. *)
Theorem Emplace_destroys_originals_before_relocation_ends :
  let before := one_vector [1; 2] 2 in
  is_nothrow_move_constructible = false ∧ is_copy_constructible = true ∧
  Emplace 0 (Ptr (Some 0) 1) (CopyOf 7) before
  = Normal (Ptr (Some 1) 1)
      (mkState {[ 0 := mkVector (mkRawMemory (Some 1) 4) 3 ]}
               {[ 1 := [Some 1; Some 7; Some 2; None] ]} tt
               [OpNew 4; OpCopyCtor 7; OpCopyCtor 1; OpDestroy 1;
                OpCopyCtor 2; OpDestroy 2]) ∧
  Reserve 0 4 before
  = Normal tt
      (mkState {[ 0 := mkVector (mkRawMemory (Some 1) 4) 2 ]}
               {[ 1 := [Some 1; Some 2; None; None] ]} tt
               [OpNew 4; OpCopyCtor 1; OpCopyCtor 2; OpDestroy 1; OpDestroy 2]).
Proof. split_and!; vm_compute; reflexivity. Qed.
End with_fragile.

Section with_move_only.
#[local] Existing Instance move_only.

(** [Reserve] on a vector of a move-only element type whose move
    constructor raises at the second element: a type that offers no copy to
    fall back on.  The exception leaves the vector with its first element
    moved from: it held [1; 13] and now holds [0; 13]. *)
Lemma Reserve_failure_changes_elements :
  Reserve 0 4 (one_vector [1; 13] 2)
  = Throws (mkState {[ 0 := mkVector (mkRawMemory (Some 0) 2) 2 ]}
                    {[ 0 := [Some 0; Some 13] ]} tt
                    [OpNew 4; OpMoveCtor 1; OpMoveCtor 13; OpDestroy 1]) ∧
  heap (one_vector [1; 13] 2) !! 0 = Some [Some 1; Some 13].
Proof. split; vm_compute; reflexivity. Qed.

(** The same element type is not nothrow-move-constructible, and
    [Reserve] transfers its elements by move all the same. *)
Lemma relocation_moves_although_move_may_raise :
  is_nothrow_move_constructible = false ∧
  Reserve 0 4 (one_vector [1; 2] 2)
  = Normal tt (mkState {[ 0 := mkVector (mkRawMemory (Some 1) 4) 2 ]}
                       {[ 1 := [Some 1; Some 2; None; None] ]} tt
                       [OpNew 4; OpMoveCtor 1; OpMoveCtor 2; OpDestroy 0; OpDestroy 0]).
Proof. split; vm_compute; reflexivity. Qed.

Lemma relocation_policy_witness :
  ∃ s', Reserve 0 4 (one_vector [1; 2] 2) = Normal tt s' ∧
        trace s' = [OpNew 4; OpMoveCtor 1; OpMoveCtor 2; OpDestroy 0; OpDestroy 0].
Proof.
  eexists. split; [vm_compute; reflexivity|].
  refine (proj1 (relocation_policy 0 [1; 2] 2 (Some 0) (one_vector [1; 2] 2) _) 4 _ _ _ _).
  - unfold holds. split_and!; [vm_compute; reflexivity|simpl; lia|vm_compute; reflexivity].
  - lia.
  - vm_compute. reflexivity.
  - vm_compute. reflexivity.
Defined.
End with_move_only.

(** * Examples for the constructors, observers and compositions *)

Section more_with_plain.
#[local] Existing Instance plain.

Lemma copy_constructor_witness :
  let s := one_vector [1; 2] 4 in
  let built (s' : state nat unit) :=
    ∃ buf',
      holds s' 1 [1; 2] 2 buf' ∧
      holds s' 0 [1; 2] 4 (Some 0) ∧
      (∀ a, buf' = Some a → heap s !! a = None) ∧
      ([1; 2] = [] → buf' = None ∧ heap s' = heap s ∧ trace s' = trace s) ∧
      ([1; 2] ≠ [] → trace s' = trace s ++ OpNew 2 :: (OpCopyCtor <$> [1; 2])) in
  returns (declare 1 (Vector_copy 0)) s (λ _ s', built s') ∧
  (∀ s', declare 1 (Vector_copy 0) s = Throws s' →
     vecs s' = vecs s ∧ heap s' = heap s).
Proof.
  refine (copy_constructor 1 0 [1; 2] 4 (Some 0) (one_vector [1; 2] 4) _ _).
  - unfold holds. split_and!; [vm_compute; reflexivity|simpl; lia|vm_compute; reflexivity].
  - lia.
Defined.

Lemma move_constructor_witness :
  let s := one_vector [1; 2] 4 in
  ∃ s' s'',
    declare 1 (Vector_move 0) s = Normal tt s' ∧
    holds s' 1 [1; 2] 4 (Some 0) ∧
    holds s' 0 [] 0 None ∧
    heap s' = heap s ∧ world s' = world s ∧ trace s' = trace s ∧
    end_of_life 0 s' = Normal tt s'' ∧
    holds s'' 1 [1; 2] 4 (Some 0) ∧
    heap s'' = heap s ∧ trace s'' = trace s.
Proof.
  refine (move_constructor 1 0 [1; 2] 4 (Some 0) (one_vector [1; 2] 4) _ _).
  - unfold holds. split_and!; [vm_compute; reflexivity|simpl; lia|vm_compute; reflexivity].
  - lia.
Defined.

Lemma Swap_exchanges_witness :
  let s := two_vectors [1; 2; 3] [5; 6] in
  ∃ s',
    Swap 0 1 s = Normal tt s' ∧
    assign_move 0 1 s = Normal tt s' ∧
    holds s' 0 [5; 6] 2 (Some 1) ∧
    holds s' 1 [1; 2; 3] 3 (Some 0) ∧
    heap s' = heap s ∧ world s' = world s ∧ trace s' = trace s ∧
    Swap 0 1 s' = Normal tt s.
Proof.
  refine (Swap_exchanges 0 1 [1; 2; 3] 3 (Some 0) [5; 6] 2 (Some 1)
            (two_vectors [1; 2; 3] [5; 6]) _ _ _).
  - unfold holds. split_and!; [vm_compute; reflexivity|simpl; lia|vm_compute; reflexivity].
  - unfold holds. split_and!; [vm_compute; reflexivity|simpl; lia|vm_compute; reflexivity].
  - lia.
Defined.

Lemma destructor_releases_witness :
  let s := one_vector [1; 2] 4 in
  ∃ s',
    end_of_life 0 s = Normal tt s' ∧
    vecs s' = delete 0 (vecs s) ∧
    heap s' = release (Some 0) (heap s) ∧
    world s' = world s ∧
    trace s' = trace s ++ (OpDestroy <$> [1; 2]).
Proof.
  refine (destructor_releases 0 [1; 2] 4 (Some 0) (one_vector [1; 2] 4) _).
  unfold holds. split_and!; [vm_compute; reflexivity|simpl; lia|vm_compute; reflexivity].
Defined.

Lemma scoped_copy_leaves_nothing_witness :
  let s := one_vector [1; 2] 4 in
  returns (declare 1 (Vector_copy 0);; end_of_life 1) s (λ _ s',
    vecs s' = vecs s ∧ heap s' = heap s ∧
    ∃ allocation,
      trace s' = trace s ++ allocation ++ (OpCopyCtor <$> [1; 2]) ++ (OpDestroy <$> [1; 2]) ∧
      allocation = if decide ([1; 2] = []) then [] else [OpNew 2]) ∧
  (∀ s', (declare 1 (Vector_copy 0);; end_of_life 1) s = Throws s' →
     vecs s' = vecs s ∧ heap s' = heap s).
Proof.
  refine (scoped_copy_leaves_nothing 1 0 [1; 2] 4 (Some 0) (one_vector [1; 2] 4) _ _).
  - unfold holds. split_and!; [vm_compute; reflexivity|simpl; lia|vm_compute; reflexivity].
  - vm_compute. reflexivity.
Defined.

Lemma Reserve_grows_witness :
  let s := one_vector [1; 2] 2 in
  returns (Reserve 0 5) s (λ _ s',
    ∃ buf',
      holds s' 0 [1; 2] 5 buf' ∧
      Size 0 s' = Normal 2 s' ∧
      Capacity 0 s' = Normal 5 s' ∧
      (5 ≤ 2 → s' = s) ∧
      (2 < 5 →
         (∀ a, buf' = Some a → heap s !! a = None) ∧
         heap s' = with_block buf' (slots [1; 2] 5) (release (Some 0) (heap s)) ∧
         trace s' = trace s ++ OpNew 5 :: (relocate_op <$> [1; 2]) ++
                      (OpDestroy <$> (relocated_from <$> [1; 2])))).
Proof.
  refine (Reserve_grows 0 [1; 2] 2 (Some 0) 5 (one_vector [1; 2] 2) _ _);
    [|intros _; vm_compute; reflexivity].
  unfold holds. split_and!; [vm_compute; reflexivity|simpl; lia|vm_compute; reflexivity].
Defined.

Lemma pushes_within_capacity_witness :
  let s := one_vector [1] 4 in
  let values := [CopyOf 7; MoveOf 8; FromArgs 9] in
  returns (push_all 0 values) s (λ _ s',
    holds s' 0 [1; 7; 8; 9] 4 (Some 0) ∧
    trace s' = trace s ++ [OpCopyCtor 7; OpMoveCtor 8; OpCtor 9]) ∧
  (∀ s', push_all 0 values s = Throws s' →
     ∃ done failed rest,
       values = done ++ failed :: rest ∧
       holds s' 0 ([1] ++ (value_of <$> done)) 4 (Some 0) ∧
       trace s' = trace s ++ (ctor_op <$> done) ++ [ctor_op failed]).
Proof.
  refine (pushes_within_capacity 0 [CopyOf 7; MoveOf 8; FromArgs 9] [1] 4 (Some 0)
            (one_vector [1] 4) _ _).
  - unfold holds. split_and!; [vm_compute; reflexivity|simpl; lia|vm_compute; reflexivity].
  - simpl. lia.
Defined.

Lemma push_all_appends_witness :
  let s := one_vector [1; 2] 2 in
  returns (push_all 0 [CopyOf 7; CopyOf 8; CopyOf 9]) s (λ _ s',
    ∃ cap' buf',
      holds s' 0 [1; 2; 7; 8; 9] cap' buf' ∧
      2 ≤ cap' ∧
      Size 0 s' = Normal 5 s').
Proof.
  refine (push_all_appends 0 [CopyOf 7; CopyOf 8; CopyOf 9] [1; 2] 2 (Some 0)
            (one_vector [1; 2] 2) _).
  unfold holds. split_and!; [vm_compute; reflexivity|simpl; lia|vm_compute; reflexivity].
Defined.

Lemma pushes_amortised_witness :
  let values := [CopyOf 1; CopyOf 2; CopyOf 3; CopyOf 4; CopyOf 5] in
  returns (push_all 0 values) default_vector (λ _ s',
    ∃ buf' added,
      let k := Nat.log2_up 5 in
      holds s' 0 [1; 2; 3; 4; 5] (2 ^ k) buf' ∧
      trace s' = trace default_vector ++ added ∧
      count_ops is_allocation added = k + 1 ∧
      count_ops is_destruction added = 2 ^ k - 1 ∧
      2 ^ k < 2 * 5).
Proof.
  refine (pushes_amortised 0 [CopyOf 1; CopyOf 2; CopyOf 3; CopyOf 4; CopyOf 5]
            default_vector _ _).
  - unfold holds. split_and!; [vm_compute; reflexivity|simpl; lia|reflexivity].
  - discriminate.
Defined.

Lemma PopBack_removes_last_witness :
  let s := one_vector [1; 2] 4 in
  ∃ s',
    PopBack 0 s = Normal tt s' ∧
    holds s' 0 [1] 4 (Some 0) ∧
    heap s' = with_block (Some 0) (slots [1] 4) (heap s) ∧
    world s' = world s ∧
    trace s' = trace s ++ [OpDestroy 2].
Proof.
  refine (PopBack_removes_last 0 [1] 2 4 (Some 0) (one_vector [1; 2] 4) _).
  unfold holds. split_and!; [vm_compute; reflexivity|simpl; lia|vm_compute; reflexivity].
Defined.

Lemma PushBack_then_PopBack_witness :
  let s := one_vector [1; 2] 2 in
  returns (PushBack 0 (CopyOf 7);; PopBack 0) s (λ _ s',
    ∃ cap' buf', holds s' 0 [1; 2] cap' buf' ∧ 2 ≤ cap').
Proof.
  refine (PushBack_then_PopBack 0 [1; 2] 2 (Some 0) (CopyOf 7) (one_vector [1; 2] 2) _).
  unfold holds. split_and!; [vm_compute; reflexivity|simpl; lia|vm_compute; reflexivity].
Defined.

Lemma Emplace_then_Erase_witness :
  let s := one_vector [1; 2] 2 in
  returns (it ← Emplace 0 (Ptr (Some 0) 1) (CopyOf 7); Erase 0 it) s (λ it s',
    ∃ cap' buf', holds s' 0 [1; 2] cap' buf' ∧ 2 ≤ cap' ∧ it = Ptr buf' 1).
Proof.
  refine (Emplace_then_Erase 0 [1; 2] 2 (Some 0) 1 (CopyOf 7) (one_vector [1; 2] 2) _ _).
  - unfold holds. split_and!; [vm_compute; reflexivity|simpl; lia|vm_compute; reflexivity].
  - simpl. lia.
Defined.

Lemma observers_agree_witness :
  let s := one_vector [1; 2] 4 in
  Size 0 s = Normal 2 s ∧
  Capacity 0 s = Normal 4 s ∧
  begin 0 s = Normal (Ptr (Some 0) 0) s ∧
  end_ 0 s = Normal (Ptr (Some 0) 2) s ∧
  (b ← begin 0; e ← end_ 0; ptr_diff e b) s = Normal 2 s ∧
  (∀ i x, [1; 2] !! i = Some x →
     at_ 0 i s = Normal (Ptr (Some 0) i) s ∧
     (p ← at_ 0 i; deref p) s = Normal x s) ∧
  (∀ i, [1; 2] !! i = None → at_ 0 i s = Undefined).
Proof.
  refine (observers_agree 0 [1; 2] 4 (Some 0) (one_vector [1; 2] 4) _).
  unfold holds. split_and!; [vm_compute; reflexivity|simpl; lia|vm_compute; reflexivity].
Defined.

Lemma out_of_range_is_undefined_witness :
  let s := one_vector [1; 2] 4 in
  ([1; 2] = [] → PopBack 0 s = Undefined) ∧
  (∀ i, 2 ≤ i → Erase 0 (Ptr (Some 0) i) s = Undefined) ∧
  (∀ i, 2 ≤ i → at_ 0 i s = Undefined).
Proof.
  refine (out_of_range_is_undefined 0 [1; 2] 4 (Some 0) (one_vector [1; 2] 4) _).
  unfold holds. split_and!; [vm_compute; reflexivity|simpl; lia|vm_compute; reflexivity].
Defined.

Lemma copy_assignment_in_place_witness :
  let s := two_vectors_with [1] 4 [5; 6; 7] 3 in
  returns (assign_copy 0 1) s (λ _ s',
    holds s' 0 [5; 6; 7] 4 (Some 0) ∧
    holds s' 1 [5; 6; 7] 3 (Some 1) ∧
    heap s' = with_block (Some 0) (slots [5; 6; 7] 4) (heap s) ∧
    trace s' = trace s ++ [OpCopyAssign 5] ++ [OpCopyCtor 6; OpCopyCtor 7] ++ []).
Proof.
  refine (copy_assignment_in_place 0 1 [1] 4 (Some 0) [5; 6; 7] 3 (Some 1)
            (two_vectors_with [1] 4 [5; 6; 7] 3) _ _ _ _ _).
  - lia.
  - unfold holds. split_and!; [vm_compute; reflexivity|simpl; lia|vm_compute; reflexivity].
  - unfold holds. split_and!; [vm_compute; reflexivity|simpl; lia|vm_compute; reflexivity].
  - simpl. lia.
  - intros a [= <-]. discriminate.
Defined.


Lemma invariant_kept_on_return_witness :
  let s := two_vectors [1; 2; 3] [5; 6] in
  (∀ n s', (3 < n → fits n) → Reserve 0 n s = Normal tt s' →
     ∃ cap' buf', holds s' 0 [1; 2; 3] cap' buf') ∧
  (∀ n s', (3 < n → fits n) → Resize 0 n s = Normal tt s' →
     ∃ cap' buf',
       holds s' 0 (take n [1; 2; 3] ++ replicate (n - 3) value_init) cap' buf') ∧
  (∀ args s', PushBack 0 args s = Normal tt s' →
     ∃ cap' buf', holds s' 0 ([1; 2; 3] ++ [value_of args]) cap' buf') ∧
  (∀ s', PopBack 0 s = Normal tt s' → holds s' 0 (take (3 - 1) [1; 2; 3]) 3 (Some 0)) ∧
  (∀ i args it s', i ≤ 3 → Emplace 0 (Ptr (Some 0) i) args s = Normal it s' →
     ∃ cap' buf', holds s' 0 (take i [1; 2; 3] ++ value_of args :: drop i [1; 2; 3]) cap' buf') ∧
  (∀ i it s', i < 3 → Erase 0 (Ptr (Some 0) i) s = Normal it s' →
     holds s' 0 (take i [1; 2; 3] ++ drop (S i) [1; 2; 3]) 3 (Some 0)) ∧
  (∀ rhs lr capr bufr s',
     0 ≠ rhs → holds s rhs lr capr bufr → (∀ a, Some 0 = Some a → bufr ≠ Some a) →
     assign_copy 0 rhs s = Normal tt s' →
     ∃ cap' buf', holds s' 0 lr cap' buf' ∧ holds s' rhs lr capr bufr).
Proof.
  refine (invariant_kept_on_return 0 [1; 2; 3] 3 (Some 0)
            (two_vectors [1; 2; 3] [5; 6]) _).
  unfold holds. split_and!; [vm_compute; reflexivity|simpl; lia|vm_compute; reflexivity].
Defined.

Lemma lifetime_leaves_nothing_witness :
  let s := one_vector [1; 2] 2 in
  returns (push_all 0 [CopyOf 7; CopyOf 8; CopyOf 9];; end_of_life 0) s (λ _ s',
    heap s' = release (Some 0) (heap s) ∧
    vecs s' = delete 0 (vecs s) ∧
    ∃ added,
      trace s' = trace s ++ added ∧
      count_ops is_destruction added = count_ops is_construction added + 2).
Proof.
  refine (lifetime_leaves_nothing 0 [CopyOf 7; CopyOf 8; CopyOf 9] [1; 2] 2 (Some 0)
            (one_vector [1; 2] 2) _).
  unfold holds. split_and!; [vm_compute; reflexivity|simpl; lia|vm_compute; reflexivity].
Defined.

Lemma Emplace_in_place_keeps_block_witness :
  let s := one_vector [1; 2] 4 in
  returns (Emplace 0 (Ptr (Some 0) 1) (CopyOf 7)) s (λ it s',
    holds s' 0 [1; 7; 2] 4 (Some 0) ∧
    it = Ptr (Some 0) 1 ∧
    heap s' = with_block (Some 0) (slots [1; 7; 2] 4) (heap s)).
Proof.
  refine (Emplace_in_place_keeps_block 0 [1; 2] 4 (Some 0) 1 (CopyOf 7)
            (one_vector [1; 2] 4) _ _ _).
  - unfold holds. split_and!; [vm_compute; reflexivity|simpl; lia|vm_compute; reflexivity].
  - simpl. lia.
  - simpl. lia.
Defined.

Lemma Emplace_past_end_never_returns_witness :
  let s := one_vector [1; 2] 4 in
  never_returns (Emplace 0 (Ptr (Some 0) 3) (CopyOf 7)) s ∧
  never_returns (Insert 0 (Ptr (Some 0) 3) (CopyOf 7)) s.
Proof.
  refine (Emplace_past_end_never_returns 0 [1; 2] 4 (Some 0) 3 (CopyOf 7)
            (one_vector [1; 2] 4) _ _).
  - unfold holds. split_and!; [vm_compute; reflexivity|simpl; lia|vm_compute; reflexivity].
  - simpl. lia.
Defined.

Lemma Reserve_then_pushes_witness :
  let s := one_vector [1; 2] 2 in
  returns (Reserve 0 5;;
           b ← begin 0;
           push_all 0 [CopyOf 7; CopyOf 8; CopyOf 9];;
           b' ← begin 0;
           mret (b, b')) s (λ bb s',
    bb.1 = bb.2 ∧
    ∃ buf', bb.1 = Ptr buf' 0 ∧ holds s' 0 [1; 2; 7; 8; 9] 5 buf').
Proof.
  refine (Reserve_then_pushes 0 [CopyOf 7; CopyOf 8; CopyOf 9] [1; 2] 2 (Some 0) 5
            (one_vector [1; 2] 2) _ _ _).
  - unfold holds. split_and!; [vm_compute; reflexivity|simpl; lia|vm_compute; reflexivity].
  - simpl. lia.
  - intros _. vm_compute. reflexivity.
Defined.

Lemma Erase_then_Emplace_witness :
  let s := one_vector [1; 7; 2] 4 in
  returns (it ← Erase 0 (Ptr (Some 0) 1); Emplace 0 it (CopyOf 7)) s (λ it s',
    holds s' 0 [1; 7; 2] 4 (Some 0) ∧ it = Ptr (Some 0) 1 ∧
    heap s' = with_block (Some 0) (slots [1; 7; 2] 4) (heap s)).
Proof.
  refine (Erase_then_Emplace 0 [1; 7; 2] 4 (Some 0) 1 (CopyOf 7)
            (one_vector [1; 7; 2] 4) _ _).
  - unfold holds. split_and!; [vm_compute; reflexivity|simpl; lia|vm_compute; reflexivity].
  - reflexivity.
Defined.

Lemma Resize_grow_then_shrink_witness :
  let s := one_vector [1; 2] 2 in
  returns (Resize 0 5;; Resize 0 2) s (λ _ s', ∃ buf', holds s' 0 [1; 2] 5 buf').
Proof.
  refine (Resize_grow_then_shrink 0 [1; 2] 2 (Some 0) 5 (one_vector [1; 2] 2) _ _ _).
  - unfold holds. split_and!; [vm_compute; reflexivity|simpl; lia|vm_compute; reflexivity].
  - simpl. lia.
  - intros _. vm_compute. reflexivity.
Defined.

Lemma RawMemory_scope_witness :
  let s := one_vector [1; 2] 2 in
  RawMemory_ctor 0 s = Normal RawMemory_default s ∧
  (3 ≠ 0 →
   returns (RawMemory_ctor 3) s (λ r s',
     ∃ b, r = mkRawMemory (Some b) 3 ∧ heap s !! b = None ∧
          heap s' = <[b := replicate 3 None]> (heap s) ∧
          trace s' = trace s ++ [OpNew 3])) ∧
  (∀ s', RawMemory_ctor 3 s = Throws s' → heap s' = heap s ∧ vecs s' = vecs s) ∧
  returns (r ← RawMemory_ctor 3; RawMemory_dtor r) s (λ _ s',
    heap s' = heap s ∧ vecs s' = vecs s).
Proof.
  refine (RawMemory_scope 3 (one_vector [1; 2] 2) _).
  vm_compute. reflexivity.
Defined.

Lemma sized_constructor_witness :
  let s := one_vector [1; 2] 2 in
  returns (declare 1 (Vector_sized 3)) s (λ _ s',
    ∃ buf,
      holds s' 1 [0; 0; 0] 3 buf ∧
      (∀ a, buf = Some a → heap s !! a = None) ∧
      heap s' = with_block buf (slots [0; 0; 0] 3) (heap s) ∧
      (3 = 0 → buf = None ∧ trace s' = trace s) ∧
      (3 ≠ 0 → trace s' = trace s ++ OpNew 3 :: replicate 3 OpValueInit)) ∧
  (∀ s', declare 1 (Vector_sized 3) s = Throws s' →
     vecs s' = vecs s ∧ heap s' = heap s).
Proof.
  refine (sized_constructor 1 3 (one_vector [1; 2] 2) _).
  vm_compute. reflexivity.
Defined.
End more_with_plain.

Section more_with_fragile.
#[local] Existing Instance fragile.

Lemma copy_assignment_in_place_failure_witness :
  let s := two_vectors_with [1] 4 [5; 13] 2 in
  ∃ s',
    assign_copy 0 1 s = Throws s' ∧
    ∃ lt',
      length lt' = 1 ∧
      holds s' 0 lt' 4 (Some 0) ∧
      holds s' 1 [5; 13] 2 (Some 1) ∧
      vecs s' = vecs s.
Proof.
  eexists. split; [vm_compute; reflexivity|].
  refine (copy_assignment_in_place_failure 0 1 [1] 4 (Some 0) [5; 13] 2 (Some 1)
            (two_vectors_with [1] 4 [5; 13] 2) _ _ _ _ _ _ _).
  - lia.
  - unfold holds. split_and!; [vm_compute; reflexivity|simpl; lia|vm_compute; reflexivity].
  - unfold holds. split_and!; [vm_compute; reflexivity|simpl; lia|vm_compute; reflexivity].
  - simpl. lia.
  - intros a [= <-]. discriminate.
  - vm_compute. reflexivity.
Defined.

Lemma Resize_failure_keeps_elements_witness :
  let s := one_vector [1; 13] 2 in
  ∃ s',
    Resize 0 4 s = Throws s' ∧
    ∃ cap' buf',
      holds s' 0 [1; 13] cap' buf' ∧
      Size 0 s' = Normal 2 s' ∧
      (cap' = 2 ∨ cap' = 4).
Proof.
  eexists. split; [vm_compute; reflexivity|].
  refine (Resize_failure_keeps_elements 0 [1; 13] 2 (Some 0) 4 (one_vector [1; 13] 2) _ _ _ _ _).
  - unfold holds. split_and!; [vm_compute; reflexivity|simpl; lia|vm_compute; reflexivity].
  - right. reflexivity.
  - intros _. vm_compute. reflexivity.
  - vm_compute. reflexivity.
Defined.
End more_with_fragile.
